(** * MAIDOS-IME core: dictionary store, pinyin parser, candidate manager
      and charset converter

    A shallow embedding of
      - [MAIDOS.IME.Core/dictionary.cpp]     (Dictionary and its loader),
      - [MAIDOS.IME.Core/pinyin_parser.cpp]  (PinyinParser),
      - [MAIDOS.IME.Core/candidate.cpp]      (CandidateManager),
      - [MAIDOS.IME.Core/converter.cpp]      (CharsetConverter),
      - [MAIDOS.IME.Core/schemes.cpp]        (PinyinScheme),
      - [MAIDOS.IME.Core/bopomofo_scheme.cpp] (BopomofoScheme),
      - [MAIDOS.IME.Core/ime_engine.cpp]     (ImeEngine),
    followed by the properties of these components.

    Conventions.
      - [wchar_t] is a UTF-16 code unit, a number in [N]; [std::wstring] is a
        list of code units.
      - [unsigned int] values are numbers in [N]; [unsigned long long]
        arithmetic is written with its reduction modulo 2^64.
      - [int] values are numbers in [Z]; an addition of two [int] is
        written with its wrap-around to 32 bits ([wrap_int]).
      - [std::map] is a [gmap]; [std::vector] is a list.
      - Member functions take the object state as an argument and return the
        new state next to the result.  An object held by reference (the
        dictionary of a parser) is passed at each call, so that a caller can
        change it between two calls.
      - Output to [std::wcout] is not modelled. *)

From Stdlib Require Import ZArith NArith List Lia Sorted Permutation Ascii String.
From stdpp Require Import base option list gmap sorting.

Local Open Scope N_scope.

(** ** Strings *)

Abbreviation wchar_t := N (only parsing).
Abbreviation wstring := (list N) (only parsing).

(** A wide literal [L"..."] whose characters are all ASCII. *)
Definition wlit (s : string) : wstring :=
  List.map N_of_ascii (list_ascii_of_string s).

Definition wchar (c : ascii) : wchar_t := N_of_ascii c.

(** ** The C++ standard algorithms used by the sources *)

(** A comparator handed to [std::sort] must induce a strict weak ordering:
    irreflexive, transitive, and with a transitive incomparability relation
    (stated here by its equivalent, negative transitivity). *)
Record StrictWeakOrder {A} (comp : A → A → bool) : Prop := {
  swo_irrefl : ∀ a, comp a a = false;
  swo_trans : ∀ a b c, comp a b = true → comp b c = true → comp a c = true;
  swo_negtrans : ∀ a b c, comp a b = false → comp b c = false → comp a c = false
}.

(** [sorted_by comp l]: no element is ordered before one of its
    predecessors, the postcondition of [std::sort]. *)
Definition sorted_by {A} (comp : A → A → bool) : list A → Prop :=
  StronglySorted (λ a b, comp b a = false).

(** [std::sort] is not part of the repository.  It is taken with the
    contract the C++ standard gives it: for a strict weak ordering the
    result is a rearrangement of the input that is sorted.  The order of
    equivalent elements is left open by that contract. *)
Class StdSort := {
  std_sort : ∀ {A}, (A → A → bool) → list A → list A;
  std_sort_perm : ∀ {A} (comp : A → A → bool) l,
    StrictWeakOrder comp → std_sort comp l ≡ₚ l;
  std_sort_sorted : ∀ {A} (comp : A → A → bool) l,
    StrictWeakOrder comp → sorted_by comp (std_sort comp l)
}.

(** [std::unique] with a binary predicate: every element is compared with
    the last element kept, and dropped when the predicate holds. *)
Fixpoint unique_from {A} (pred : A → A → bool) (kept : A) (l : list A) : list A :=
  match l with
  | [] => []
  | x :: l' =>
      if pred kept x then unique_from pred kept l'
      else x :: unique_from pred x l'
  end.

Definition std_unique {A} (pred : A → A → bool) (l : list A) : list A :=
  match l with
  | [] => []
  | x :: l' => x :: unique_from pred x l'
  end.

(** Two implementations of the [std::sort] contract by insertion.  They
    differ only in where an element goes among its equivalents. *)
Section Insertion.
Context {A : Type} (stop : A → A → bool).

Fixpoint insert_by (x : A) (l : list A) : list A :=
  match l with
  | [] => [x]
  | y :: l' => if stop x y then x :: y :: l' else y :: insert_by x l'
  end.

Definition insertion_sort_by (l : list A) : list A :=
  foldr insert_by [] l.
End Insertion.

(** Insert in front of the first element that is not ordered before [x]:
    equivalent elements keep their input order. *)
Definition sort_keep_ties {A} (comp : A → A → bool) : list A → list A :=
  insertion_sort_by (λ x y, negb (comp y x)).

(** Insert in front of the first element that [x] is ordered before:
    equivalent elements come out in reverse input order. *)
Definition sort_flip_ties {A} (comp : A → A → bool) : list A → list A :=
  insertion_sort_by (λ x y, comp x y).

(** ** [std::sort] of the GNU C++ library *)

(** The sort of libstdc++ ([bits/stl_algo.h] and [bits/stl_heap.h] of
    GCC 12), which the build of the sources with g++ links.  The range is
    the list [a]; iterators are positions in it.  A read outside the range,
    undefined behaviour in C++, gives [None]; the loops that move an
    iterator carry a counter that cannot run out before the iterator leaves
    the range. *)
Module Gnu.
Section Sort.
Context {A : Type} (comp : A → A → bool).

(** [std::iter_swap] *)
Definition iter_swap (a : list A) (i j : nat) : option (list A) :=
  x ← a !! i; y ← a !! j; Some (<[j := x]> (<[i := y]> a)).

(** [__move_median_to_first] *)
Definition move_median_to_first (a : list A) (result ia ib ic : nat)
    : option (list A) :=
  xa ← a !! ia; xb ← a !! ib; xc ← a !! ic;
  if comp xa xb then
    if comp xb xc then iter_swap a result ib
    else if comp xa xc then iter_swap a result ic
    else iter_swap a result ia
  else if comp xa xc then iter_swap a result ia
  else if comp xb xc then iter_swap a result ic
  else iter_swap a result ib.

(** [while (__comp(__first, __pivot)) ++__first;] *)
Fixpoint scan_up (fuel : nat) (a : list A) (first pivot : nat) : option nat :=
  match fuel with
  | O => None
  | S fuel =>
      x ← a !! first; p ← a !! pivot;
      if comp x p then scan_up fuel a (S first) pivot else Some first
  end.

(** [while (__comp(__pivot, __last)) --__last;] *)
Fixpoint scan_down (fuel : nat) (a : list A) (pivot last : nat) : option nat :=
  match fuel with
  | O => None
  | S fuel =>
      x ← a !! last; p ← a !! pivot;
      if comp p x then
        match last with
        | O => None
        | S last' => scan_down fuel a pivot last'
        end
      else Some last
  end.

(** [__unguarded_partition] *)
Fixpoint unguarded_partition (fuel : nat) (a : list A) (first last pivot : nat)
    : option (list A * nat) :=
  match fuel with
  | O => None
  | S fuel =>
      first ← scan_up (S (length a)) a first pivot;
      match last with
      | O => None
      | S last =>
          last ← scan_down (S (length a)) a pivot last;
          if negb (first <? last)%nat then Some (a, first)
          else
            a ← iter_swap a first last;
            unguarded_partition fuel a (S first) last pivot
      end
  end.

(** [__unguarded_partition_pivot] *)
Definition unguarded_partition_pivot (a : list A) (first last : nat)
    : option (list A * nat) :=
  let mid := (first + (last - first) / 2)%nat in
  a ← move_median_to_first a first (first + 1) mid (last - 1);
  unguarded_partition (S (length a)) a (first + 1) last first.

(** The loop of [__unguarded_linear_insert], [__val] being moved out. *)
Fixpoint linear_insert_loop (fuel : nat) (a : list A) (val : A) (last : nat)
    : option (list A) :=
  match fuel with
  | O => None
  | S fuel =>
      match last with
      | O => None
      | S next =>
          x ← a !! next;
          if comp val x then linear_insert_loop fuel (<[last := x]> a) val next
          else Some (<[last := val]> a)
      end
  end.

(** [__unguarded_linear_insert] *)
Definition unguarded_linear_insert (a : list A) (last : nat) : option (list A) :=
  val ← a !! last; linear_insert_loop (S (length a)) a val last.

(** The first branch of the loop of [__insertion_sort]: the element at [i]
    goes to [first], and the elements from [first] to [i - 1] move up by
    one ([std::move_backward]). *)
Definition move_to_first (a : list A) (first i : nat) : option (list A) :=
  val ← a !! i;
  Some (take first a ++ val :: take (i - first) (drop first a) ++ drop (S i) a).

(** The loop of [__insertion_sort], for [n] more elements from [i]. *)
Fixpoint insertion_loop (n : nat) (a : list A) (first i : nat) : option (list A) :=
  match n with
  | O => Some a
  | S n =>
      x ← a !! i; f ← a !! first;
      a ← (if comp x f then move_to_first a first i
           else unguarded_linear_insert a i);
      insertion_loop n a first (S i)
  end.

(** [__insertion_sort] *)
Definition insertion_sort (a : list A) (first last : nat) : option (list A) :=
  if (first =? last)%nat then Some a
  else insertion_loop (last - (first + 1)) a first (first + 1).

(** [__unguarded_insertion_sort], for [n] elements from [i]. *)
Fixpoint unguarded_insertion_sort (n : nat) (a : list A) (i : nat)
    : option (list A) :=
  match n with
  | O => Some a
  | S n => a ← unguarded_linear_insert a i; unguarded_insertion_sort n a (S i)
  end.

(** [_S_threshold] *)
Definition threshold : nat := 16.

(** [__final_insertion_sort] *)
Definition final_insertion_sort (a : list A) (first last : nat) : option (list A) :=
  if (threshold <? last - first)%nat then
    a ← insertion_sort a first (first + threshold);
    unguarded_insertion_sort (last - (first + threshold)) a (first + threshold)
  else insertion_sort a first last.

(** [__push_heap].  Positions in the heap count from [first]; at the top
    of the heap [(__holeIndex - 1) / 2] is [(0 - 1) / 2 = 0] in C++ as it is
    here. *)
Fixpoint push_heap (fuel : nat) (a : list A) (first holeIndex topIndex : nat)
    (value : A) : option (list A) :=
  match fuel with
  | O => None
  | S fuel =>
      let parent := ((holeIndex - 1) / 2)%nat in
      if (topIndex <? holeIndex)%nat then
        x ← a !! (first + parent)%nat;
        if comp x value then
          push_heap fuel (<[(first + holeIndex)%nat := x]> a) first parent topIndex value
        else Some (<[(first + holeIndex)%nat := value]> a)
      else Some (<[(first + holeIndex)%nat := value]> a)
  end.

(** The first loop of [__adjust_heap]; it returns the range, the hole and
    [__secondChild]. *)
Fixpoint sift_down (fuel : nat) (a : list A) (first holeIndex secondChild len : nat)
    : option (list A * nat * nat) :=
  match fuel with
  | O => None
  | S fuel =>
      if (secondChild <? (len - 1) / 2)%nat then
        let secondChild := (2 * (secondChild + 1))%nat in
        x ← a !! (first + secondChild)%nat;
        y ← a !! (first + (secondChild - 1))%nat;
        let secondChild := if comp x y then (secondChild - 1)%nat else secondChild in
        z ← a !! (first + secondChild)%nat;
        sift_down fuel (<[(first + holeIndex)%nat := z]> a) first secondChild
                  secondChild len
      else Some (a, holeIndex, secondChild)
  end.

(** [__adjust_heap]; [len] is at least 1 at every call. *)
Definition adjust_heap (a : list A) (first holeIndex len : nat) (value : A)
    : option (list A) :=
  let topIndex := holeIndex in
  '(a, holeIndex, secondChild) ← sift_down (S len) a first holeIndex holeIndex len;
  '(a, holeIndex) ←
    (if Nat.even len && (secondChild =? (len - 2) / 2)%nat then
       let secondChild := (2 * (secondChild + 1))%nat in
       z ← a !! (first + (secondChild - 1))%nat;
       Some (<[(first + holeIndex)%nat := z]> a, (secondChild - 1)%nat)
     else Some (a, holeIndex));
  push_heap (S len) a first holeIndex topIndex value.

(** [__pop_heap] *)
Definition pop_heap (a : list A) (first last result : nat) : option (list A) :=
  value ← a !! result;
  x ← a !! first;
  adjust_heap (<[result := x]> a) first 0 (last - first) value.

(** The loop of [__make_heap], from [parent] down to 0. *)
Fixpoint make_heap_loop (fuel : nat) (a : list A) (first len parent : nat)
    : option (list A) :=
  match fuel with
  | O => None
  | S fuel =>
      value ← a !! (first + parent)%nat;
      a ← adjust_heap a first parent len value;
      match parent with
      | O => Some a
      | S parent => make_heap_loop fuel a first len parent
      end
  end.

(** [__make_heap] *)
Definition make_heap (a : list A) (first last : nat) : option (list A) :=
  if (last - first <? 2)%nat then Some a
  else
    let len := (last - first)%nat in
    make_heap_loop (S len) a first len ((len - 2) / 2).

(** [__sort_heap] *)
Fixpoint sort_heap (fuel : nat) (a : list A) (first last : nat) : option (list A) :=
  match fuel with
  | O => None
  | S fuel =>
      if (1 <? last - first)%nat then
        let last := (last - 1)%nat in
        a ← pop_heap a first last last;
        sort_heap fuel a first last
      else Some a
  end.

(** The loop of [__heap_select], for [n] elements from [i]. *)
Fixpoint heap_select_loop (n : nat) (a : list A) (first middle i : nat)
    : option (list A) :=
  match n with
  | O => Some a
  | S n =>
      x ← a !! i; f ← a !! first;
      a ← (if comp x f then pop_heap a first middle i else Some a);
      heap_select_loop n a first middle (S i)
  end.

(** [__partial_sort], with [__heap_select] inlined *)
Definition partial_sort (a : list A) (first middle last : nat) : option (list A) :=
  a ← make_heap a first middle;
  a ← heap_select_loop (last - middle) a first middle middle;
  sort_heap (S (length a)) a first middle.

(** [__introsort_loop].  Each turn of its loop takes one from
    [__depth_limit], sorts the part behind the cut by a call of its own and
    goes on with the part in front of it. *)
Fixpoint introsort_loop (depth_limit : nat) (a : list A) (first last : nat)
    : option (list A) :=
  if (threshold <? last - first)%nat then
    match depth_limit with
    | O => partial_sort a first last last
    | S depth_limit =>
        '(a, cut) ← unguarded_partition_pivot a first last;
        a ← introsort_loop depth_limit a cut last;
        introsort_loop depth_limit a first cut
    end
  else Some a.

(** [std::sort] of a whole vector: [__sort(begin, end, comp)]. *)
Definition sort (a : list A) : option (list A) :=
  match a with
  | [] => Some a
  | _ :: _ =>
      let n := length a in
      a ← introsort_loop (Nat.log2 n * 2) a 0 n;
      final_insertion_sort a 0 n
  end.
End Sort.
End Gnu.

(** The comparator of a sort of positions: the elements found at two
    positions of [l] are compared. *)
Definition compare_at {A} (comp : A → A → bool) (l : list A) (i j : nat) : bool :=
  match l !! i, l !! j with
  | Some x, Some y => comp x y
  | _, _ => false
  end.

(** No element of [l] is ordered before one of its predecessors. *)
Fixpoint is_sorted_by {A} (comp : A → A → bool) (l : list A) : bool :=
  match l with
  | [] => true
  | x :: l' => forallb (λ y, negb (comp y x)) l' && is_sorted_by comp l'
  end.

(** [std::sort] of the GNU library on a vector [l].  The library moves
    elements and asks the comparator, and does nothing else with an
    element; it is run here on the positions [0 .. length l - 1], compared
    by the elements at these positions, and the elements are then put in
    the order of the positions.  The result is handed out after a test that
    it is complete and sorted.  Should the test fail, or the library read
    outside the vector, the sort by insertion answers instead: no such
    input is known, and none is possible if the library is correct. *)
Definition gnu_std_sort {A} (comp : A → A → bool) (l : list A) : list A :=
  let n := length l in
  match Gnu.sort (compare_at comp l) (seq 0 n) with
  | Some positions =>
      let out := omap (λ i, l !! i) positions in
      if bool_decide (merge_sort le positions = seq 0 n) && is_sorted_by comp out
      then out
      else sort_keep_ties comp l
  | None => sort_keep_ties comp l
  end.

(** ** dictionary.h: the dictionary store *)

Record DictEntry := mkDictEntry {
  word : wstring;
  frequency : N;
  pronunciation : wstring;
  tags : list wstring
}.

#[global] Instance DictEntry_eq_dec : EqDecision DictEntry.
Proof. solve_decision. Defined.

Record Dictionary := mkDictionary {
  m_entries : gmap (list N) (list DictEntry);
  m_version : wstring;
  m_createdAt : wstring;
  m_updatedAt : wstring
}.

(** [Dictionary::Dictionary()] *)
Definition Dictionary_new : Dictionary :=
  {| m_entries := ∅;
     m_version := wlit "1.0.0";
     m_createdAt := wlit "2026-01-25T00:00:00Z";
     m_updatedAt := wlit "2026-01-25T00:00:00Z" |}.

(** [Dictionary::Lookup] *)
Definition Lookup (d : Dictionary) (pron : wstring) : list DictEntry :=
  match m_entries d !! pron with
  | Some entries => entries
  | None => []
  end.

(** [m_entries[key].push_back(entry)]: [operator[]] creates an empty vector
    for a key that is absent. *)
Definition push_entry (key : wstring) (entry : DictEntry)
    (m : gmap (list N) (list DictEntry)) : gmap (list N) (list DictEntry) :=
  <[key := default [] (m !! key) ++ [entry]]> m.

(** [Dictionary::AddEntry] *)
Definition AddEntry (d : Dictionary) (pron : wstring) (entry : DictEntry) : Dictionary :=
  {| m_entries := push_entry pron entry (m_entries d);
     m_version := m_version d;
     m_createdAt := m_createdAt d;
     m_updatedAt := m_updatedAt d |}.

(** The number of entries held by the store, over all keys. *)
Definition entry_count (d : Dictionary) : nat :=
  map_fold (λ _ entries n, (length entries + n)%nat) 0%nat (m_entries d).

(** ** pinyin_parser.cpp: the pinyin parser *)

Record ParseResult := mkParseResult {
  candidates : list wstring;
  frequencies : list N
}.

(** The parser owns its cache; the dictionary it refers to is an argument
    of each operation. *)
Record PinyinParser := mkPinyinParser {
  m_cache : gmap (list N) ParseResult
}.

Definition PinyinParser_new : PinyinParser := {| m_cache := ∅ |}.

(** The comparator of both sorts in pinyin_parser.cpp:
    [a.frequency > b.frequency]. *)
Definition freq_gt (a b : DictEntry) : bool := frequency b <? frequency a.

(** The predicate given to [std::unique]: [a.word == b.word]. *)
Definition same_word (a b : DictEntry) : bool := bool_decide (word a = word b).

(** The body of the two inner loops of [GenerateCandidates]. *)
Definition combine_entries (leftEntry rightEntry : DictEntry) : DictEntry :=
  {| word := word leftEntry ++ word rightEntry;
     frequency := N.min (frequency leftEntry) (frequency rightEntry);
     pronunciation := pronunciation leftEntry ++ wlit " " ++ pronunciation rightEntry;
     tags := [wlit "combined"] |}.

(** One iteration of the split loop, for the split point [i]. *)
Definition split_candidates (d : Dictionary) (pinyinSequence : wstring) (i : nat)
    : list DictEntry :=
  let left := take i pinyinSequence in
  let right := drop i pinyinSequence in
  let leftEntries := Lookup d left in
  let rightEntries := Lookup d right in
  match leftEntries, rightEntries with
  | _ :: _, _ :: _ =>
      flat_map (λ leftEntry, List.map (combine_entries leftEntry) rightEntries)
               leftEntries
  | _, _ => []
  end.

(** The candidates collected before sorting: the exact match, or else the
    two-way splits at [i = 1 .. length - 1]. *)
Definition collect_candidates (d : Dictionary) (pinyinSequence : wstring) : list DictEntry :=
  match Lookup d pinyinSequence with
  | (_ :: _) as entries => entries
  | [] =>
      if (1 <? length pinyinSequence)%nat then
        flat_map (split_candidates d pinyinSequence)
                 (seq 1 (length pinyinSequence - 1))
      else []
  end.

Section Parser.
Context `{StdSort}.

(** [PinyinParser::ParseSinglePinyin] *)
Definition ParseSinglePinyin (d : Dictionary) (pinyin : wstring) : list DictEntry :=
  std_sort freq_gt (Lookup d pinyin).

(** [PinyinParser::GenerateCandidates] *)
Definition GenerateCandidates (d : Dictionary) (pinyinSequence : wstring)
    : list DictEntry :=
  let sorted := std_sort freq_gt (collect_candidates d pinyinSequence) in
  let deduped := std_unique same_word sorted in
  if (20 <? length deduped)%nat then take 20 deduped else deduped.

(** The result built from the generated candidates. *)
Definition to_result (cands : list DictEntry) : ParseResult :=
  {| candidates := List.map word cands;
     frequencies := List.map frequency cands |}.

(** [PinyinParser::ParseContinuousPinyin] *)
Definition ParseContinuousPinyin (d : Dictionary) (p : PinyinParser)
    (pinyinSequence : wstring) : ParseResult * PinyinParser :=
  match m_cache p !! pinyinSequence with
  | Some cached => (cached, p)
  | None =>
      let result := to_result (GenerateCandidates d pinyinSequence) in
      (result, {| m_cache := <[pinyinSequence := result]> (m_cache p) |})
  end.

(** [PinyinParser::ClearCache] *)
Definition ClearCache (p : PinyinParser) : PinyinParser :=
  {| m_cache := ∅ |}.
End Parser.

(** The operations a client can apply to a parser.  The dictionary is an
    argument of each call, since the owner of the dictionary can change it
    between two calls. *)
Inductive ParserOp :=
  | OpParse (d : Dictionary) (pinyinSequence : wstring)
  | OpClearCache.

Definition run_parser_op `{StdSort} (p : PinyinParser) (op : ParserOp) : PinyinParser :=
  match op with
  | OpParse d pinyinSequence => (ParseContinuousPinyin d p pinyinSequence).2
  | OpClearCache => ClearCache p
  end.

(** The states a parser can be in: any sequence of operations applied to a
    freshly constructed parser. *)
Definition parser_reachable `{StdSort} (p : PinyinParser) : Prop :=
  ∃ ops, p = foldl run_parser_op PinyinParser_new ops.

(** ** candidate.cpp: the candidate manager *)

(** [m_parser] holds the state of the parser the manager refers to. *)
Record CandidateManager := mkCandidateManager {
  m_parser : PinyinParser;
  m_selectedCandidate : wstring;
  m_userPreferences : gmap (list N) (gmap (list N) Z)
}.

Definition CandidateManager_new (p : PinyinParser) : CandidateManager :=
  {| m_parser := p; m_selectedCandidate := []; m_userPreferences := ∅ |}.

(** [static_cast<int>(candidates.size())] *)
Definition static_cast_int (n : nat) : Z :=
  ((Z.of_nat n + 2 ^ 31) mod 2 ^ 32 - 2 ^ 31)%Z.

(** The comparator of the sort in [GetSmartSuggestions]:
    [a.second > b.second]. *)
Definition weight_gt (a b : wstring * Z) : bool := (b.2 <? a.2)%Z.

(** The weight looked up for a candidate, [0] when none is recorded. *)
Definition weight_of (table : gmap (list N) Z) (candidate : wstring) : Z :=
  match table !! candidate with
  | Some w => w
  | None => 0%Z
  end.

(** [CandidateManager::SelectCandidate] *)
Definition SelectCandidate (cm : CandidateManager) (index : Z)
    (cands : list wstring) : bool * CandidateManager :=
  if ((index <? 0) || (static_cast_int (length cands) <=? index))%Z then
    (false, cm)
  else
    (true,
     {| m_parser := m_parser cm;
        m_selectedCandidate := default [] (cands !! Z.to_nat index);
        m_userPreferences := m_userPreferences cm |}).

(** [CandidateManager::GetSelectedCandidate] *)
Definition GetSelectedCandidate (cm : CandidateManager) : wstring :=
  m_selectedCandidate cm.

(** [CandidateManager::ClearSelection] *)
Definition ClearSelection (cm : CandidateManager) : CandidateManager :=
  {| m_parser := m_parser cm;
     m_selectedCandidate := [];
     m_userPreferences := m_userPreferences cm |}.

(** [CandidateManager::HasValidSelection] *)
Definition HasValidSelection (cm : CandidateManager) : bool :=
  match m_selectedCandidate cm with
  | [] => false
  | _ :: _ => true
  end.

(** The result of an [int] operation whose exact value is [z]: the value
    of the same residue modulo 2^32 between -2^31 and 2^31 - 1.  For an
    exact value outside that range the C++ standard leaves the behaviour
    undefined; this is what the compiled code computes. *)
Definition wrap_int (z : Z) : Z := ((z + 2 ^ 31) mod 2 ^ 32 - 2 ^ 31)%Z.

(** [CandidateManager::AddUserPreference]: both [operator[]] calls create
    the entry when it is absent, the inner one with the value [0], and
    [+=] is an addition of two [int]. *)
Definition AddUserPreference (cm : CandidateManager) (pinyin candidate : wstring)
    (preferenceBoost : Z) : CandidateManager :=
  let table := default ∅ (m_userPreferences cm !! pinyin) in
  let weight := default 0%Z (table !! candidate) in
  {| m_parser := m_parser cm;
     m_selectedCandidate := m_selectedCandidate cm;
     m_userPreferences :=
       <[pinyin := <[candidate := wrap_int (weight + preferenceBoost)]> table]>
         (m_userPreferences cm) |}.

Section Manager.
Context `{StdSort}.

(** [CandidateManager::GetCandidates] *)
Definition GetCandidates (d : Dictionary) (cm : CandidateManager)
    (pinyinInput : wstring) : list wstring * CandidateManager :=
  let '(parseResult, p) := ParseContinuousPinyin d (m_parser cm) pinyinInput in
  (candidates parseResult,
   {| m_parser := p;
      m_selectedCandidate := m_selectedCandidate cm;
      m_userPreferences := m_userPreferences cm |}).

(** The reordering step of [GetSmartSuggestions] for a preference table. *)
Definition apply_preferences (table : gmap (list N) Z) (cands : list wstring)
    : list wstring :=
  let weightedCandidates := List.map (λ c, (c, weight_of table c)) cands in
  List.map fst (std_sort weight_gt weightedCandidates).

(** [CandidateManager::GetSmartSuggestions] *)
Definition GetSmartSuggestions (d : Dictionary) (cm : CandidateManager)
    (pinyinInput : wstring) : list wstring * CandidateManager :=
  let '(cands, cm') := GetCandidates d cm pinyinInput in
  match m_userPreferences cm' !! pinyinInput with
  | Some table => (apply_preferences table cands, cm')
  | None => (cands, cm')
  end.

(** [CandidateManager::Reset] *)
Definition Reset (cm : CandidateManager) : CandidateManager :=
  let cm := ClearSelection cm in
  {| m_parser := ClearCache (m_parser cm);
     m_selectedCandidate := m_selectedCandidate cm;
     m_userPreferences := m_userPreferences cm |}.
End Manager.

(** The position of the first occurrence of [c] in [l], its rank. *)
Fixpoint rank_of (c : wstring) (l : list wstring) : option nat :=
  match l with
  | [] => None
  | x :: l' => if bool_decide (x = c) then Some 0%nat else S <$> rank_of c l'
  end.

(** ** converter.cpp: the charset converter *)

Record CharsetConverter := mkCharsetConverter {
  m_s2t : gmap N N;
  m_t2s : gmap N N
}.

(** [CharsetConverter::InitializeMaps], run by the constructor. *)
Definition InitializeMaps : CharsetConverter :=
  {| m_s2t := <[wchar "B" := wchar "B"]> (<[wchar "A" := wchar "A"]> ∅);
     m_t2s := <[wchar "B" := wchar "B"]> (<[wchar "A" := wchar "A"]> ∅) |}.

(** The body of both substitution loops: a character found in the table is
    replaced, any other is kept. *)
Definition substitute (table : gmap N N) (ch : wchar_t) : wchar_t :=
  match table !! ch with
  | Some mapped => mapped
  | None => ch
  end.

(** [CharsetConverter::Convert] *)
Definition Convert (cv : CharsetConverter) (text from to : wstring) : wstring :=
  if bool_decide (from = to) then text
  else if bool_decide (from = wlit "Simplified") && bool_decide (to = wlit "Traditional")
  then List.map (substitute (m_s2t cv)) text
  else if bool_decide (from = wlit "Traditional") && bool_decide (to = wlit "Simplified")
  then List.map (substitute (m_t2s cv)) text
  else text.

(** ** dictionary.cpp: the loader of the dictionary file format *)

(** The helpers of the anonymous namespace read a string [s] through a
    cursor [i] passed by reference.  The pair is represented by the unread
    suffix [s[i..]]: [s[i]] is its head, [++i] takes its tail and
    [i >= s.size()] is the empty suffix.

    A helper returns [ok] with its outputs and the new suffix, or [fail]
    where the C++ function returns [false].  The loops that call other
    helpers recurse on a counter, and [nofuel] is the result of a counter
    that is too small; the counter [LoadFromFile] starts from is shown to
    suffice in [LoadFromFile_total]. *)
Inductive res (A : Type) : Type :=
  | ok (a : A)
  | fail
  | nofuel.
Arguments ok {A} a.
Arguments fail {A}.
Arguments nofuel {A}.

#[global] Instance res_bind : MBind res := λ A B k r,
  match r with
  | ok a => k a
  | fail => fail
  | nofuel => nofuel
  end.

#[global] Instance res_fmap : FMap res := λ A B f r,
  match r with
  | ok a => ok (f a)
  | fail => fail
  | nofuel => nofuel
  end.

(** [iswspace] in the "C" locale, which the program never changes: space
    and the control characters from tab to carriage return. *)
Definition iswspace (ch : wchar_t) : bool :=
  (ch =? 32) || ((9 <=? ch) && (ch <=? 13)).

(** [iswdigit]: the decimal digits ['0'] to ['9']. *)
Definition iswdigit (ch : wchar_t) : bool :=
  (48 <=? ch) && (ch <=? 57).

(** [SkipWs] *)
Fixpoint SkipWs (s : wstring) : wstring :=
  match s with
  | ch :: s' => if iswspace ch then SkipWs s' else s
  | [] => []
  end.

(** [Consume] *)
Definition Consume (s : wstring) (ch : wchar_t) : res wstring :=
  match SkipWs s with
  | c :: s' => if c =? ch then ok s' else fail
  | [] => fail
  end.

(** The value of one hexadecimal digit of a [\uXXXX] escape. *)
Definition hex_digit (h : wchar_t) : option N :=
  if (48 <=? h) && (h <=? 57) then Some (h - 48)
  else if (97 <=? h) && (h <=? 102) then Some (h - 97 + 10)
  else if (65 <=? h) && (h <=? 70) then Some (h - 65 + 10)
  else None.

(** The four-digit loop of the [\u] case: [code <<= 4; code |= digit]. *)
Definition hex4 (h1 h2 h3 h4 : wchar_t) : option N :=
  d1 ← hex_digit h1; d2 ← hex_digit h2; d3 ← hex_digit h3; d4 ← hex_digit h4;
  Some (N.lor (N.shiftl (N.lor (N.shiftl (N.lor (N.shiftl
          (N.lor (N.shiftl 0 4) d1) 4) d2) 4) d3) 4) d4).

(** [static_cast<wchar_t>(code)] for the 16-bit [wchar_t] of the target. *)
Definition to_wchar (code : N) : wchar_t := code mod 2 ^ 16.

(** The characters after the opening quote of [ParseString]. *)
Fixpoint string_body (s : wstring) (result : wstring) : res (wstring * wstring) :=
  match s with
  | [] => fail
  | ch :: s1 =>
      if ch =? 34 then ok (result, s1)
      else if ch =? 92 then
        match s1 with
        | [] => fail
        | esc :: s2 =>
            if esc =? 34 then string_body s2 (result ++ [34])
            else if esc =? 92 then string_body s2 (result ++ [92])
            else if esc =? 47 then string_body s2 (result ++ [47])
            else if esc =? 98 then string_body s2 (result ++ [8])
            else if esc =? 102 then string_body s2 (result ++ [12])
            else if esc =? 110 then string_body s2 (result ++ [10])
            else if esc =? 114 then string_body s2 (result ++ [13])
            else if esc =? 116 then string_body s2 (result ++ [9])
            else if esc =? 117 then
              match s2 with
              | h1 :: h2 :: h3 :: h4 :: s3 =>
                  match hex4 h1 h2 h3 h4 with
                  | Some code => string_body s3 (result ++ [to_wchar code])
                  | None => fail
                  end
              | _ => fail
              end
            else string_body s2 (result ++ [esc])
        end
      else string_body s1 (result ++ [ch])
  end.

(** [ParseString] *)
Definition ParseString (s : wstring) : res (wstring * wstring) :=
  match SkipWs s with
  | c :: s' => if c =? 34 then string_body s' [] else fail
  | [] => fail
  end.

(** The digit loop of [ParseUnsigned] on an [unsigned long long]. *)
Fixpoint digits_loop (value : N) (s : wstring) : N * wstring :=
  match s with
  | ch :: s' =>
      if iswdigit ch then
        let value := (value * 10 + (ch - 48)) mod 2 ^ 64 in
        let value := if 0xFFFFFFFF <? value then 0xFFFFFFFF else value in
        digits_loop value s'
      else (value, s)
  | [] => (value, [])
  end.

(** [ParseUnsigned]; the last step is [static_cast<unsigned int>(value)]. *)
Definition ParseUnsigned (s : wstring) : res (N * wstring) :=
  match SkipWs s with
  | (ch :: _) as s0 =>
      if iswdigit ch then
        let '(value, rest) := digits_loop 0 s0 in
        ok (value mod 2 ^ 32, rest)
      else fail
  | [] => fail
  end.

(** The last branch of [SkipValue]: a number, [true], [false] or [null],
    read up to a comma, a closing bracket or white space. *)
Fixpoint scalar_end (s : wstring) : wstring :=
  match s with
  | ch :: s' =>
      if (ch =? 44) || (ch =? 125) || (ch =? 93) || iswspace ch then s
      else scalar_end s'
  | [] => []
  end.

(** The optional comma after an element: [SkipWs], then [++i] on [',']. *)
Definition skip_comma (s : wstring) : wstring :=
  match SkipWs s with
  | (c :: s') as s0 => if c =? 44 then s' else s0
  | [] => []
  end.

(** [SkipValue], with the loops of [SkipObject] and [SkipArray] after their
    opening bracket. *)
Fixpoint SkipValue (fuel : nat) (s : wstring) : res wstring :=
  match fuel with
  | O => nofuel
  | S fuel =>
      match SkipWs s with
      | [] => fail
      | (c :: s') as s0 =>
          if c =? 34 then '(_, rest) ← ParseString s0; ok rest
          else if c =? 123 then
            s1 ← Consume s0 123; skip_object_loop fuel s1
          else if c =? 91 then
            s1 ← Consume s0 91; skip_array_loop fuel s1
          else
            let rest := scalar_end s0 in
            if (length rest <? length s0)%nat then ok rest else fail
      end
  end
with skip_object_loop (fuel : nat) (s : wstring) : res wstring :=
  match fuel with
  | O => nofuel
  | S fuel =>
      match s with
      | [] => fail
      | _ :: _ =>
          match SkipWs s with
          | [] => fail
          | (c :: s') as s0 =>
              if c =? 125 then ok s'
              else
                '(_, s1) ← ParseString s0;
                s2 ← Consume s1 58;
                s3 ← SkipValue fuel s2;
                skip_object_loop fuel (skip_comma s3)
          end
      end
  end
with skip_array_loop (fuel : nat) (s : wstring) : res wstring :=
  match fuel with
  | O => nofuel
  | S fuel =>
      match s with
      | [] => fail
      | _ :: _ =>
          match SkipWs s with
          | [] => fail
          | (c :: s') as s0 =>
              if c =? 93 then ok s'
              else
                s1 ← SkipValue fuel s0;
                skip_array_loop fuel (skip_comma s1)
          end
      end
  end.

(** [SkipObject] *)
Definition SkipObject (fuel : nat) (s : wstring) : res wstring :=
  s1 ← Consume s 123; skip_object_loop fuel s1.

(** [SkipArray] *)
Definition SkipArray (fuel : nat) (s : wstring) : res wstring :=
  s1 ← Consume s 91; skip_array_loop fuel s1.

(** The loop of [ParseTags] after the opening bracket. *)
Fixpoint tags_loop (fuel : nat) (s : wstring) (tags : list wstring)
    : res (list wstring * wstring) :=
  match fuel with
  | O => nofuel
  | S fuel =>
      match s with
      | [] => fail
      | _ :: _ =>
          match SkipWs s with
          | [] => fail
          | (c :: s') as s0 =>
              if c =? 93 then ok (tags, s')
              else
                '(tag, s1) ← ParseString s0;
                tags_loop fuel (skip_comma s1) (tags ++ [tag])
          end
      end
  end.

(** [ParseTags] *)
Definition ParseTags (fuel : nat) (s : wstring) : res (list wstring * wstring) :=
  s1 ← Consume s 91; tags_loop fuel s1 [].

(** The field dispatch in the loop of [ParseEntryObject]. *)
Definition entry_field (fuel : nat) (key : wstring) (s : wstring) (entry : DictEntry)
    : res (DictEntry * wstring) :=
  if bool_decide (key = wlit "word") then
    '(w, s1) ← ParseString s;
    ok (mkDictEntry w (frequency entry) (pronunciation entry) (tags entry), s1)
  else if bool_decide (key = wlit "frequency") then
    '(f, s1) ← ParseUnsigned s;
    ok (mkDictEntry (word entry) f (pronunciation entry) (tags entry), s1)
  else if bool_decide (key = wlit "pronunciation") then
    '(p, s1) ← ParseString s;
    ok (mkDictEntry (word entry) (frequency entry) p (tags entry), s1)
  else if bool_decide (key = wlit "tags") then
    '(t, s1) ← ParseTags fuel s;
    ok (mkDictEntry (word entry) (frequency entry) (pronunciation entry) t, s1)
  else
    s1 ← SkipValue fuel s; ok (entry, s1).

(** The loop of [ParseEntryObject] after the opening brace. *)
Fixpoint entry_loop (fuel : nat) (s : wstring) (entry : DictEntry)
    : res (DictEntry * wstring) :=
  match fuel with
  | O => nofuel
  | S fuel =>
      match s with
      | [] => fail
      | _ :: _ =>
          match SkipWs s with
          | [] => fail
          | (c :: s') as s0 =>
              if c =? 125 then ok (entry, s')
              else
                '(key, s1) ← ParseString s0;
                s2 ← Consume s1 58;
                '(entry, s3) ← entry_field fuel key s2 entry;
                entry_loop fuel (skip_comma s3) entry
          end
      end
  end.

(** [ParseEntryObject]; [DictEntry{}] is the value-initialised entry. *)
Definition ParseEntryObject (fuel : nat) (s : wstring) : res (DictEntry * wstring) :=
  s1 ← Consume s 123; entry_loop fuel s1 (mkDictEntry [] 0 [] []).

(** [std::wstring::find] of a string: the suffix that starts at the first
    occurrence, [None] for [npos]. *)
Fixpoint find_sub (pat s : wstring) : option wstring :=
  if bool_decide (pat `prefix_of` s) then Some s
  else match s with
       | [] => None
       | _ :: s' => find_sub pat s'
       end.

(** [std::wstring::find] of a character, from the cursor on. *)
Fixpoint find_char (ch : wchar_t) (s : wstring) : option wstring :=
  match s with
  | [] => None
  | c :: s' => if c =? ch then Some s else find_char ch s'
  end.

(** The state of [LoadFromFile] while it reads: the entries stored so far
    and the cursor, or the reason why reading stopped. *)
Abbreviation load_state := (gmap (list N) (list DictEntry) * res (list N))%type
  (only parsing).

(** The statements of the inner loop after a successful
    [ParseEntryObject]: default the pronunciation to the key and append. *)
Definition store_entry (pronKey : wstring) (entry : DictEntry)
    (m : gmap (list N) (list DictEntry)) : gmap (list N) (list DictEntry) :=
  let entry :=
    match pronunciation entry with
    | [] => mkDictEntry (word entry) (frequency entry) pronKey (tags entry)
    | _ :: _ => entry
    end in
  push_entry pronKey entry m.

(** The inner loop of [LoadFromFile] over the entry objects of one key. *)
Fixpoint entries_loop (fuel : nat) (s : wstring) (pronKey : wstring)
    (m : gmap (list N) (list DictEntry)) : load_state :=
  match fuel with
  | O => (m, nofuel)
  | S fuel =>
      match s with
      | [] => (m, ok [])
      | _ :: _ =>
          match ParseEntryObject fuel s with
          | ok (entry, s1) =>
              let m := store_entry pronKey entry m in
              match SkipWs s1 with
              | (c :: s2) as s1' =>
                  if c =? 44 then entries_loop fuel s2 pronKey m
                  else (m, ok s1')
              | [] => (m, ok [])
              end
          | fail => (m, fail)
          | nofuel => (m, nofuel)
          end
      end
  end.

(** The key, the colon and the opening bracket of one dictionary key. *)
Definition key_header (s : wstring) : res (wstring * wstring) :=
  '(pronKey, s1) ← ParseString s;
  s2 ← Consume s1 58;
  s3 ← Consume s2 91;
  ok (pronKey, s3).

(** The outer loop of [LoadFromFile] over the keys of the entries object.
    [ok] is the normal end of the loop, at the closing brace or at the end
    of the content. *)
Fixpoint keys_loop (fuel : nat) (s : wstring)
    (m : gmap (list N) (list DictEntry)) : load_state :=
  match fuel with
  | O => (m, nofuel)
  | S fuel =>
      match s with
      | [] => (m, ok [])
      | _ :: _ =>
          match SkipWs s with
          | [] => (m, fail)
          | (c :: s') as s0 =>
              if c =? 125 then (m, ok s')
              else
                match key_header s0 with
                | ok (pronKey, s3) =>
                    let s4 := SkipWs s3 in
                    let '(m, r) :=
                      match s4 with
                      | c4 :: _ =>
                          if negb (c4 =? 93) then entries_loop fuel s4 pronKey m
                          else (m, ok s4)
                      | [] => (m, ok s4)
                      end in
                    match r ≫= (λ s5, Consume s5 93) with
                    | ok s6 => keys_loop fuel (skip_comma s6) m
                    | fail => (m, fail)
                    | nofuel => (m, nofuel)
                    end
                | fail => (m, fail)
                | nofuel => (m, nofuel)
                end
          end
      end
  end.

(** The part of [LoadFromFile] between reading the content and the update
    of the time stamp; the entries start from the cleared map. *)
Definition load_content (fuel : nat) (content : wstring) : load_state :=
  match find_sub ([34] ++ wlit "entries" ++ [34]) content with
  | None => (∅, fail)
  | Some s =>
      match find_char 58 s with
      | None => (∅, fail)
      | Some s1 =>
          match Consume (tail s1) 123 with
          | ok s2 => keys_loop fuel s2 ∅
          | fail => (∅, fail)
          | nofuel => (∅, nofuel)
          end
      end
  end.

(** [Dictionary::LoadFromFile].  [fs] gives the decoded content of the
    files that can be opened and [now] is the formatted local time.  The
    result is [None] only if the loop counter runs out, which does not
    happen ([LoadFromFile_total]).  The [catch (...)] handler, reached on
    an exception of the runtime, is not modelled. *)
Definition LoadFromFile (fs : list N → option (list N)) (now : wstring)
    (d : Dictionary) (filePath : wstring) : option (bool * Dictionary) :=
  match fs filePath with
  | None => Some (false, mkDictionary ∅ (m_version d) (m_createdAt d) (m_updatedAt d))
  | Some content =>
      match load_content (2 * length content + 2) content with
      | (m, ok _) =>
          Some (negb (bool_decide (m = ∅)),
                mkDictionary m (m_version d) (m_createdAt d) now)
      | (m, fail) =>
          Some (false, mkDictionary m (m_version d) (m_createdAt d) (m_updatedAt d))
      | (m, nofuel) => None
      end
  end.

(** ** candidate.cpp: the remaining operations of the manager *)

(** The comparators of the two sorts in [GetSmartCandidates]:
    [a.length() < b.length()] and [a.length() > b.length()]. *)
Definition shorter (a b : wstring) : bool := (length a <? length b)%nat.
Definition longer (a b : wstring) : bool := (length b <? length a)%nat.

(** [CandidateManager::GetCandidateFrequency].  The sum [1 + length] is a
    [size_t] and cannot wrap, a string being shorter than 2^64 - 1; the
    quotient is at most 1000 and fits an [unsigned int]. *)
Definition GetCandidateFrequency (candidate : wstring) : N :=
  1000 / (1 + N.of_nat (length candidate)).

Section SmartCandidates.
Context `{StdSort}.

(** [CandidateManager::GetSmartCandidates] *)
Definition GetSmartCandidates (d : Dictionary) (cm : CandidateManager)
    (pinyinInput context : wstring) : list wstring * CandidateManager :=
  let '(cands, cm') := GetCandidates d cm pinyinInput in
  if bool_decide (context = []) || (length cands <=? 1)%nat then (cands, cm')
  else
    let sorted :=
      if bool_decide (context = []) || (length context <? 5)%nat
      then std_sort shorter cands
      else std_sort longer cands in
    (if (10 <? length sorted)%nat then take 10 sorted else sorted, cm').
End SmartCandidates.

(** ** converter.cpp: conversion of a vector of characters *)

Inductive Charset := Simplified | Traditional.

#[global] Instance Charset_eq_dec : EqDecision Charset.
Proof. solve_decision. Defined.

(** [CharsetConverter::ConvertCandidates] *)
Definition ConvertCandidates (cv : CharsetConverter) (cands : wstring)
    (from to : Charset) : wstring :=
  if bool_decide (from = to) then cands
  else
    match from, to with
    | Simplified, Traditional => List.map (substitute (m_s2t cv)) cands
    | Traditional, Simplified => List.map (substitute (m_t2s cv)) cands
    | _, _ => cands
    end.

(** The name of a charset, as [Convert] expects it. *)
Definition charset_name (c : Charset) : wstring :=
  match c with
  | Simplified => wlit "Simplified"
  | Traditional => wlit "Traditional"
  end.

(** ** schemes.h, schemes.cpp: the pinyin input scheme *)

(** [InputScheme::Candidate] *)
Record Candidate := mkCandidate {
  character : wstring;
  cand_frequency : Z;
  cand_tags : list wstring
}.

(** [static_cast<int>] of an [unsigned int]: values from 2^31 on come out
    negative. *)
Definition int_of_unsigned (u : N) : Z :=
  ((Z.of_N u + 2 ^ 31) mod 2 ^ 32 - 2 ^ 31)%Z.

Module PinyinScheme.

(** [m_parser] is a pointer: [None] is the null pointer of a scheme whose
    [SetParser] was not called, [Some p] the state of the parser pointed
    to. *)
Record t := mk {
  m_parser : option PinyinParser;
  m_userWords : gmap (list N) Z
}.

(** [PinyinScheme::PinyinScheme()] *)
Definition new : t := {| m_parser := None; m_userWords := ∅ |}.

(** [PinyinScheme::SetParser] *)
Definition SetParser (s : t) (p : PinyinParser) : t :=
  {| m_parser := Some p; m_userWords := m_userWords s |}.

(** The loop of [GetCandidates]: one candidate per index below both
    sizes, without tags. *)
Definition to_candidates (r : ParseResult) : list Candidate :=
  zip_with (λ w f, mkCandidate w (int_of_unsigned f) [])
           (candidates r) (frequencies r).

(** [PinyinScheme::GetCandidates] *)
Definition GetCandidates `{StdSort} (d : Dictionary) (s : t) (input : wstring)
    : list Candidate * t :=
  match m_parser s with
  | None => ([], s)
  | Some p =>
      let '(result, p') := ParseContinuousPinyin d p input in
      (to_candidates result, {| m_parser := Some p'; m_userWords := m_userWords s |})
  end.

(** [PinyinScheme::ProcessInput] *)
Definition ProcessInput `{StdSort} (d : Dictionary) (s : t) (input : wstring)
    : list Candidate * t :=
  GetCandidates d s input.

(** [PinyinScheme::AddWord] *)
Definition AddWord (s : t) (w : wstring) (freq : Z) : t :=
  {| m_parser := m_parser s; m_userWords := <[w := freq]> (m_userWords s) |}.

(** [PinyinScheme::RemoveWord] *)
Definition RemoveWord (s : t) (w : wstring) : t :=
  {| m_parser := m_parser s; m_userWords := delete w (m_userWords s) |}.

End PinyinScheme.

(** ** Iteration over a std::map *)

(** [operator<] of [std::wstring]: the lexicographic order of the code
    units. *)
Fixpoint wstring_lt (a b : wstring) : bool :=
  match a, b with
  | _, [] => false
  | [], _ :: _ => true
  | x :: a', y :: b' => (x <? y) || ((x =? y) && wstring_lt a' b')
  end.

(** The pairs of a map in the order a range-for loop over the [std::map]
    visits them: by ascending key. *)
Definition key_le {V} (p q : list N * V) : Prop := wstring_lt q.1 p.1 = false.

#[global] Instance key_le_dec {V} (p q : list N * V) : Decision (key_le p q).
Proof. unfold key_le. apply _. Defined.

Definition in_key_order {V} (m : gmap (list N) V) : list (list N * V) :=
  merge_sort key_le (map_to_list m).

(** ** bopomofo_scheme.cpp: the bopomofo input scheme *)

(** What the host system answers to the scheme and to the engine: the value
    of the environment variable MAIDOS_IME_DICT_DIR as [GetEnvVarW] returns
    it (empty when unset), the directory [GetExeDirW] returns (empty on
    failure), which paths [FileExistsW] accepts, the decoded content of the
    files that can be opened, and the formatted local time at the n-th load
    attempt of a call. *)
Record Host := mkHost {
  dict_dir_var : wstring;
  exe_dir : wstring;
  file_exists : list N → bool;
  file_content : list N → option (list N);
  clock : nat → wstring
}.

(** [JoinPathW] *)
Definition JoinPathW (a b : wstring) : wstring :=
  match a, b with
  | [], _ => b
  | _, [] => a
  | _, _ =>
      match last a with
      | Some ch => if (ch =? 92) || (ch =? 47) then a ++ b else a ++ [92] ++ b
      | None => b
      end
  end.

(** One iteration of the loop of [TrimAndCollapseWs], on the pair of [out]
    and [pendingSpace]. *)
Definition trim_step (st : list N * bool) (ch : wchar_t) : list N * bool :=
  let '(out, pendingSpace) := st in
  if iswspace ch then (out, true)
  else
    let out :=
      if pendingSpace && negb (bool_decide (out = [])) then out ++ [32] else out in
    (out ++ [ch], false).

(** [TrimAndCollapseWs] *)
Definition TrimAndCollapseWs (input : wstring) : wstring :=
  (fold_left trim_step input ([], false)).1.

Definition cand_freq_gt (a b : Candidate) : bool :=
  (cand_frequency b <? cand_frequency a)%Z.

Module BopomofoScheme.

Record t := mk {
  m_bopomofoToPinyin : gmap (list N) (list N);
  m_userWords : gmap (list N) Z;
  m_dictionary : option Dictionary;
  m_dictionaryLoaded : bool
}.

(** The assignments of [InitializeBopomofoMapping], in their order. *)
Definition mapping_pairs : list (list N * list N) :=
  [ ([0x3105], wlit "b"); ([0x3106], wlit "p"); ([0x3107], wlit "m");
    ([0x3108], wlit "f"); ([0x3109], wlit "d"); ([0x310A], wlit "t");
    ([0x310B], wlit "n"); ([0x310C], wlit "l"); ([0x310D], wlit "g");
    ([0x310E], wlit "k"); ([0x310F], wlit "h"); ([0x3110], wlit "j");
    ([0x3111], wlit "q"); ([0x3112], wlit "x"); ([0x3113], wlit "zh");
    ([0x3114], wlit "ch"); ([0x3115], wlit "sh"); ([0x3116], wlit "r");
    ([0x3117], wlit "z"); ([0x3118], wlit "c"); ([0x3119], wlit "s");
    ([0x3127], wlit "i"); ([0x3128], wlit "u"); ([0x3129], wlit "v");
    ([0x311A], wlit "a"); ([0x311B], wlit "o"); ([0x311C], wlit "e");
    ([0x311D], wlit "e"); ([0x311E], wlit "ai"); ([0x311F], wlit "ei");
    ([0x3120], wlit "ao"); ([0x3121], wlit "ou"); ([0x3122], wlit "an");
    ([0x3123], wlit "en"); ([0x3124], wlit "ang"); ([0x3125], wlit "eng");
    ([0x3126], wlit "er"); ([0x02C7], wlit "3"); ([0x02CA], wlit "2");
    ([0x02CB], wlit "4"); ([0x02D9], wlit "5") ].

(** [BopomofoScheme::InitializeBopomofoMapping] *)
Definition InitializeBopomofoMapping : gmap (list N) (list N) :=
  foldl (λ m kv, <[kv.1 := kv.2]> m) ∅ mapping_pairs.

(** [BopomofoScheme::BopomofoScheme()] *)
Definition new : t :=
  {| m_bopomofoToPinyin := InitializeBopomofoMapping;
     m_userWords := ∅;
     m_dictionary := None;
     m_dictionaryLoaded := false |}.

(** [BopomofoScheme::NormalizeForLookup] *)
Definition NormalizeForLookup (input : wstring) : wstring :=
  TrimAndCollapseWs input.

(** [BopomofoScheme::ParseBopomofoInput] *)
Definition ParseBopomofoInput (input : wstring) : wstring :=
  List.filter (λ ch, negb (ch =? 32)) input.

(** The table lookup at the end of the loop body of
    [ConvertBopomofoToPinyin]. *)
Definition convert_char (table : gmap (list N) (list N)) (ch : wchar_t) : wstring :=
  match table !! [ch] with
  | Some pinyin => pinyin
  | None => [ch]
  end.

(** The loop of [ConvertBopomofoToPinyin].  [next_ch] is the character
    after [ch], or [L'\0'] at the end, which equals none of the characters
    it is compared with. *)
Fixpoint convert_loop (table : gmap (list N) (list N)) (bopomofo : wstring) : wstring :=
  match bopomofo with
  | [] => []
  | ch :: rest =>
      match rest with
      | next_ch :: rest' =>
          if (ch =? 0x3127) && (next_ch =? 0x3122) then wlit "ian" ++ convert_loop table rest'
          else if (ch =? 0x3128) && (next_ch =? 0x3122) then wlit "uan" ++ convert_loop table rest'
          else if (ch =? 0x3129) && (next_ch =? 0x3122) then wlit "uan" ++ convert_loop table rest'
          else convert_char table ch ++ convert_loop table rest
      | [] => convert_char table ch
      end
  end.

(** [BopomofoScheme::ConvertBopomofoToPinyin] *)
Definition ConvertBopomofoToPinyin (s : t) (bopomofo : wstring) : wstring :=
  convert_loop (m_bopomofoToPinyin s) bopomofo.

(** The loop of [IsValidBopomofoInput]. *)
Fixpoint valid_loop (table : gmap (list N) (list N)) (input : wstring) : bool :=
  match input with
  | [] => false
  | ch :: rest =>
      if ch =? 32 then valid_loop table rest
      else if bool_decide (is_Some (table !! [ch])) then true
      else valid_loop table rest
  end.

(** [BopomofoScheme::IsValidBopomofoInput] *)
Definition IsValidBopomofoInput (s : t) (input : wstring) : bool :=
  match input with
  | [] => false
  | _ :: _ => valid_loop (m_bopomofoToPinyin s) input
  end.

(** The paths [EnsureDictionaryLoaded] tries, in their order. *)
Definition dictionary_paths (host : Host) : list (list N) :=
  (match dict_dir_var host with
   | [] => []
   | _ :: _ =>
       [ JoinPathW (dict_dir_var host) (wlit "bopomofo.dict.json");
         JoinPathW (dict_dir_var host) (wlit "dicts\bopomofo.dict.json") ]
   end) ++
  (match exe_dir host with
   | [] => []
   | _ :: _ =>
       [ JoinPathW (exe_dir host) (wlit "bopomofo.dict.json");
         JoinPathW (exe_dir host) (wlit "dicts\bopomofo.dict.json");
         JoinPathW (exe_dir host) (wlit "..\dicts\bopomofo.dict.json") ]
   end) ++
  [ wlit "src/dicts/bopomofo.dict.json"; wlit "dicts/bopomofo.dict.json" ].

(** The loop of [EnsureDictionaryLoaded] over the paths, from attempt [n]
    on.  [LoadFromFile] always returns ([LoadFromFile_total]); its [None]
    is mapped to failure. *)
Fixpoint try_paths (host : Host) (d : Dictionary) (n : nat) (paths : list (list N))
    : bool * Dictionary :=
  match paths with
  | [] => (false, d)
  | path :: rest =>
      if negb (file_exists host path) then try_paths host d (S n) rest
      else
        match LoadFromFile (file_content host) (clock host n) d path with
        | Some (true, d') => (true, d')
        | Some (false, d') => try_paths host d' (S n) rest
        | None => (false, d)
        end
  end.

(** [BopomofoScheme::EnsureDictionaryLoaded] *)
Definition EnsureDictionaryLoaded (host : Host) (s : t) : bool * t :=
  if m_dictionaryLoaded s && bool_decide (is_Some (m_dictionary s)) then (true, s)
  else
    let '(loaded, d) := try_paths host Dictionary_new 0 (dictionary_paths host) in
    (loaded,
     {| m_bopomofoToPinyin := m_bopomofoToPinyin s;
        m_userWords := m_userWords s;
        m_dictionary := Some d;
        m_dictionaryLoaded := loaded |}).

(** [BopomofoScheme::Initialize] *)
Definition Initialize (host : Host) (s : t) : bool * t :=
  EnsureDictionaryLoaded host s.

(** The entries [GetCandidates] works with: those of the normalized key,
    or else those of the first key whose form without spaces is that of
    the normalized key. *)
Definition find_entries (d : Dictionary) (key : wstring) : list DictEntry :=
  match Lookup d key with
  | (_ :: _) as entries => entries
  | [] =>
      let needle := ParseBopomofoInput key in
      match needle with
      | [] => []
      | _ :: _ =>
          match List.find (λ kv, bool_decide (ParseBopomofoInput kv.1 = needle))
                          (in_key_order (m_entries d)) with
          | Some kv => kv.2
          | None => []
          end
      end
  end.

(** The body of the loop that turns entries into candidates. *)
Definition to_candidate (userWords : gmap (list N) Z) (entry : DictEntry) : Candidate :=
  let freq := int_of_unsigned (frequency entry) in
  {| character := word entry;
     cand_frequency :=
       match userWords !! word entry with
       | Some boost => wrap_int (freq + boost)
       | None => freq
       end;
     cand_tags := tags entry |}.

(** [BopomofoScheme::GetCandidates] *)
Definition GetCandidates `{StdSort} (host : Host) (s : t) (input : wstring)
    : list Candidate * t :=
  if negb (IsValidBopomofoInput s input) then ([], s)
  else
    let '(loaded, s') := EnsureDictionaryLoaded host s in
    if negb loaded then ([], s')
    else
      let key := NormalizeForLookup input in
      let entries := find_entries (default Dictionary_new (m_dictionary s')) key in
      let cands := List.map (to_candidate (m_userWords s')) entries in
      let sorted := std_sort cand_freq_gt cands in
      (if (10 <? length sorted)%nat then take 10 sorted else sorted, s').

(** [BopomofoScheme::ProcessInput] *)
Definition ProcessInput `{StdSort} (host : Host) (s : t) (input : wstring)
    : list Candidate * t :=
  GetCandidates host s input.

(** [BopomofoScheme::AddWord] *)
Definition AddWord (s : t) (w : wstring) (freq : Z) : t :=
  {| m_bopomofoToPinyin := m_bopomofoToPinyin s;
     m_userWords := <[w := freq]> (m_userWords s);
     m_dictionary := m_dictionary s;
     m_dictionaryLoaded := m_dictionaryLoaded s |}.

(** [BopomofoScheme::RemoveWord] *)
Definition RemoveWord (s : t) (w : wstring) : t :=
  {| m_bopomofoToPinyin := m_bopomofoToPinyin s;
     m_userWords := delete w (m_userWords s);
     m_dictionary := m_dictionary s;
     m_dictionaryLoaded := m_dictionaryLoaded s |}.

End BopomofoScheme.

(** ** dictionary.cpp: writing the dictionary file format *)

(** [std::endl], as it reaches the stream. *)
Definition endl : wstring := [10].

(** The quotation mark. *)
Definition quote : wstring := [34].

(** The digits of [operator<<] for an [unsigned int], least significant
    first into [acc]; ten digits suffice below 2^32. *)
Fixpoint digits_of (fuel : nat) (n : N) (acc : wstring) : wstring :=
  match fuel with
  | O => acc
  | S fuel =>
      let acc := (48 + n mod 10) :: acc in
      if n <? 10 then acc else digits_of fuel (n / 10) acc
  end.

Definition print_unsigned (n : N) : wstring := digits_of 10 n [].

(** The three loops of [SaveToFile] share one shape: a flag that is true
    for the first element only, and a comma with a line end written in
    front of every other element. *)
Fixpoint save_list {A} (item : A → wstring) (first : bool) (l : list A) : wstring :=
  match l with
  | [] => []
  | x :: l' =>
      (if first then [] else wlit "," ++ endl) ++ item x ++ save_list item false l'
  end.

(** What the loop over the tags writes for one tag. *)
Definition save_tag (tag : wstring) : wstring :=
  wlit "          " ++ quote ++ tag ++ quote.

(** What the loop over the entries of a key writes for one entry. *)
Definition save_entry (entry : DictEntry) : wstring :=
  wlit "      {" ++ endl ++
  wlit "        " ++ quote ++ wlit "word" ++ quote ++ wlit ": " ++ quote
    ++ word entry ++ quote ++ wlit "," ++ endl ++
  wlit "        " ++ quote ++ wlit "frequency" ++ quote ++ wlit ": "
    ++ print_unsigned (frequency entry) ++ wlit "," ++ endl ++
  wlit "        " ++ quote ++ wlit "pronunciation" ++ quote ++ wlit ": " ++ quote
    ++ pronunciation entry ++ quote ++ wlit "," ++ endl ++
  wlit "        " ++ quote ++ wlit "tags" ++ quote ++ wlit ": [" ++ endl ++
  save_list save_tag true (tags entry) ++
  endl ++ wlit "        ]" ++ endl ++
  wlit "      }".

(** What the loop over the map writes for one key. *)
Definition save_key (pair : list N * list DictEntry) : wstring :=
  wlit "    " ++ quote ++ pair.1 ++ quote ++ wlit ": [" ++ endl ++
  save_list save_entry true pair.2 ++
  endl ++ wlit "    ]".

(** The characters [SaveToFile] sends to the stream, in their order. *)
Definition SaveToFile_text (d : Dictionary) : wstring :=
  wlit "{" ++ endl ++
  wlit "  " ++ quote ++ wlit "version" ++ quote ++ wlit ": " ++ quote
    ++ m_version d ++ quote ++ wlit "," ++ endl ++
  wlit "  " ++ quote ++ wlit "created_at" ++ quote ++ wlit ": " ++ quote
    ++ m_createdAt d ++ quote ++ wlit "," ++ endl ++
  wlit "  " ++ quote ++ wlit "updated_at" ++ quote ++ wlit ": " ++ quote
    ++ m_updatedAt d ++ quote ++ wlit "," ++ endl ++
  wlit "  " ++ quote ++ wlit "entries" ++ quote ++ wlit ": {" ++ endl ++
  save_list save_key true (in_key_order (m_entries d)) ++
  endl ++ wlit "  }" ++ endl ++
  wlit "}" ++ endl.

(** The characters the stream of [SaveToFile] can encode.  The stream is a
    [std::wofstream] on which no locale is imbued, so that it converts with
    the facet of the classic locale: a character below 128 becomes the byte
    of that value, and the conversion of any other character fails. *)
Definition encodable (ch : wchar_t) : bool := ch <? 128.

(** The characters in front of the first one that cannot be encoded. *)
Fixpoint encodable_prefix (text : wstring) : wstring :=
  match text with
  | [] => []
  | ch :: text' => if encodable ch then ch :: encodable_prefix text' else []
  end.

(** [Dictionary::SaveToFile], with the result and the content of the file
    after the call ([None]: nothing was written).  The call fails when the
    file cannot be opened.  When every character can be encoded, the file
    holds all of them, one byte each, and the call succeeds.  Otherwise the
    stream fails at the first buffer that holds a character it cannot
    encode: it writes nothing of that buffer, skips every later output, and
    throws when [close] tries to write the buffer again, so that the
    handler returns false.  The file then holds the characters that had left
    the buffer before, [flushed] many of those in front of the failing
    character; that number depends on the size of the buffer and is given
    by the caller of the model.  (This is the stream of the GNU C++
    library.) *)
Definition SaveToFile (opens : bool) (flushed : nat) (d : Dictionary)
    : bool * option (list N) :=
  if opens then
    let text := SaveToFile_text d in
    if forallb encodable text then (true, Some text)
    else (false, Some (take flushed (encodable_prefix text)))
  else (false, None).

(** ** ime_engine.cpp: the dictionary of the engine *)

Module ImeEngine.

(** [ResolveDictPath] *)
Definition ResolveDictPath (host : Host) (fileName : wstring) : wstring :=
  let from_dict_dir :=
    match dict_dir_var host with
    | [] => None
    | _ :: _ =>
        let p1 := JoinPathW (dict_dir_var host) fileName in
        if file_exists host p1 then Some p1
        else
          let p2 := JoinPathW (dict_dir_var host) (JoinPathW (wlit "dicts") fileName) in
          if file_exists host p2 then Some p2 else None
    end in
  let from_exe_dir :=
    match exe_dir host with
    | [] => None
    | _ :: _ =>
        let p1 := JoinPathW (exe_dir host) fileName in
        if file_exists host p1 then Some p1
        else
          let p2 := JoinPathW (exe_dir host) (JoinPathW (wlit "dicts") fileName) in
          if file_exists host p2 then Some p2
          else
            let p3 := JoinPathW (exe_dir host) (JoinPathW (wlit "..\dicts") fileName) in
            if file_exists host p3 then Some p3 else None
    end in
  match from_dict_dir with
  | Some p => p
  | None =>
      match from_exe_dir with
      | Some p => p
      | None =>
          let p4 := JoinPathW (wlit "src\dicts") fileName in
          if file_exists host p4 then p4
          else
            let p5 := JoinPathW (wlit "dicts") fileName in
            if file_exists host p5 then p5 else []
      end
  end.

(** The entries [Initialize] adds when no dictionary file loads, in their
    order. *)
Definition fallback_entries : list (list N * DictEntry) :=
  [ (wlit "ni hao", mkDictEntry (wlit "NiHao") 1000 (wlit "ni hao")
                      [wlit "greeting"; wlit "common"]);
    (wlit "shi jie", mkDictEntry (wlit "ShiJie") 800 (wlit "shi jie")
                       [wlit "noun"; wlit "common"]);
    (wlit "xie xie", mkDictEntry (wlit "XieXie") 950 (wlit "xie xie")
                       [wlit "greeting"; wlit "common"]);
    (wlit "jin tian", mkDictEntry (wlit "JinTian") 900 (wlit "jin tian")
                        [wlit "time"; wlit "common"]);
    (wlit "ming tian", mkDictEntry (wlit "MingTian") 700 (wlit "ming tian")
                         [wlit "time"; wlit "common"]);
    (wlit "ai", mkDictEntry (wlit "Ai") 600 (wlit "ai")
                  [wlit "emotion"; wlit "common"]) ].

Definition add_fallback (d : Dictionary) : Dictionary :=
  foldl (λ d kv, AddEntry d kv.1 kv.2) d fallback_entries.

(** The dictionary [Initialize] leaves in [m_dictionary]: a new dictionary,
    loaded from the resolved path, with the fallback entries added when the
    path is empty or the load fails.  [LoadFromFile] always returns
    ([LoadFromFile_total]); its [None] is mapped to failure. *)
Definition InitializeDictionary (host : Host) : Dictionary :=
  let d := Dictionary_new in
  let dictPath := ResolveDictPath host (wlit "pinyin.dict.json") in
  match dictPath with
  | [] => add_fallback d
  | _ :: _ =>
      match LoadFromFile (file_content host) (clock host 0) d dictPath with
      | Some (true, d') => d'
      | Some (false, d') => add_fallback d'
      | None => add_fallback d
      end
  end.

(** *** The engine after [Initialize] *)

(** The scheme objects held in [m_schemes], one constructor per class that
    implements [InputScheme].  The pinyin scheme of the engine points to the
    parser of the engine ([SetParser(m_pinyinParser.get())]); that parser is
    held once, in [m_pinyinParser], and of the scheme object itself the user
    words remain. *)
Inductive Scheme :=
  | PinyinObj (userWords : gmap (list N) Z)
  | BopomofoObj (s : BopomofoScheme.t).

(** The members of an engine whose [Initialize] has run, so that none of
    the three pointers is null.  [ImeEngine::Candidate] has the fields of
    [InputScheme::Candidate], and one record stands for both. *)
Record t := mk {
  m_aiSelectionEnabled : bool;
  m_autoCorrectionEnabled : bool;
  m_smartSuggestionsEnabled : bool;
  m_defaultScheme : wstring;
  m_charset : wstring;
  m_dictionary : Dictionary;
  m_pinyinParser : PinyinParser;
  m_converter : CharsetConverter;
  m_schemes : gmap (list N) Scheme
}.

Definition set_parser (e : t) (p : PinyinParser) : t :=
  {| m_aiSelectionEnabled := m_aiSelectionEnabled e;
     m_autoCorrectionEnabled := m_autoCorrectionEnabled e;
     m_smartSuggestionsEnabled := m_smartSuggestionsEnabled e;
     m_defaultScheme := m_defaultScheme e;
     m_charset := m_charset e;
     m_dictionary := m_dictionary e;
     m_pinyinParser := p;
     m_converter := m_converter e;
     m_schemes := m_schemes e |}.

Definition set_scheme (e : t) (name : wstring) (s : Scheme) : t :=
  {| m_aiSelectionEnabled := m_aiSelectionEnabled e;
     m_autoCorrectionEnabled := m_autoCorrectionEnabled e;
     m_smartSuggestionsEnabled := m_smartSuggestionsEnabled e;
     m_defaultScheme := m_defaultScheme e;
     m_charset := m_charset e;
     m_dictionary := m_dictionary e;
     m_pinyinParser := m_pinyinParser e;
     m_converter := m_converter e;
     m_schemes := <[name := s]> (m_schemes e) |}.

(** [ImeEngine::Initialize], with [LoadConfiguration] inlined: every member
    is assigned, so the result does not depend on the state before the
    call.  The [catch (...)] handler is not modelled. *)
Definition Initialize (host : Host) (configPath : wstring) : bool * t :=
  (true,
   {| m_aiSelectionEnabled := true;
      m_autoCorrectionEnabled := true;
      m_smartSuggestionsEnabled := true;
      m_defaultScheme := wlit "pinyin";
      m_charset := wlit "Traditional";
      m_dictionary := InitializeDictionary host;
      m_pinyinParser := PinyinParser_new;
      m_converter := InitializeMaps;
      m_schemes := <[wlit "bopomofo" := BopomofoObj BopomofoScheme.new]>
                     (<[wlit "pinyin" := PinyinObj ∅]> ∅) |}).

(** [ImeEngine::GetCandidatesFromScheme].  The loop that copies the
    candidates of the scheme into candidates of the engine copies each
    field. *)
Definition GetCandidatesFromScheme `{StdSort} (host : Host) (e : t)
    (input schemeName : wstring) : list Candidate * t :=
  match m_schemes e !! schemeName with
  | Some (PinyinObj userWords) =>
      let scheme := {| PinyinScheme.m_parser := Some (m_pinyinParser e);
                       PinyinScheme.m_userWords := userWords |} in
      let '(cs, scheme') := PinyinScheme.GetCandidates (m_dictionary e) scheme input in
      (cs, set_parser e (default (m_pinyinParser e) (PinyinScheme.m_parser scheme')))
  | Some (BopomofoObj s) =>
      let '(cs, s') := BopomofoScheme.GetCandidates host s input in
      (cs, set_scheme e schemeName (BopomofoObj s'))
  | None =>
      if bool_decide (schemeName = wlit "pinyin") then
        let '(result, p') :=
          ParseContinuousPinyin (m_dictionary e) (m_pinyinParser e) input in
        (PinyinScheme.to_candidates result, set_parser e p')
      else ([], e)
  end.

(** [ImeEngine::ProcessInput] *)
Definition ProcessInput `{StdSort} (host : Host) (e : t)
    (input context : wstring) : list Candidate * t :=
  let '(cs, e') := GetCandidatesFromScheme host e input (m_defaultScheme e) in
  (match cs with
   | _ :: _ => if m_aiSelectionEnabled e' then std_sort cand_freq_gt cs else cs
   | [] => cs
   end, e').

(** [ImeEngine::ProcessCrossInput] *)
Definition ProcessCrossInput `{StdSort} (host : Host) (e : t)
    (input context scheme charset : wstring) : wstring * t :=
  let '(cs, e') := ProcessInput host e input context in
  let result :=
    match cs with
    | c :: _ => character c
    | [] => input
    end in
  (Convert (m_converter e') result (m_charset e') charset, e').

(** [ImeEngine::GetCrossCandidates] *)
Definition GetCrossCandidates `{StdSort} (host : Host) (e : t)
    (input scheme charset : wstring) : list Candidate * t :=
  GetCandidatesFromScheme host e input scheme.

(** The calls a client can make on an engine. *)
Inductive EngineOp :=
  | OpInitialize (configPath : wstring)
  | OpProcessInput (input context : wstring)
  | OpProcessCrossInput (input context scheme charset : wstring)
  | OpGetCrossCandidates (input scheme charset : wstring).

Definition run_engine_op `{StdSort} (host : Host) (e : t) (op : EngineOp) : t :=
  match op with
  | OpInitialize configPath => (Initialize host configPath).2
  | OpProcessInput input context => (ProcessInput host e input context).2
  | OpProcessCrossInput input context scheme charset =>
      (ProcessCrossInput host e input context scheme charset).2
  | OpGetCrossCandidates input scheme charset =>
      (GetCrossCandidates host e input scheme charset).2
  end.

(** The states of an engine in use: [Initialize], followed by any calls. *)
Definition engine_reachable `{StdSort} (host : Host) (e : t) : Prop :=
  ∃ configPath ops,
    e = foldl (run_engine_op host) (Initialize host configPath).2 ops.

End ImeEngine.

(** * Properties *)

(** ** The sorting contract *)

Lemma key_gt_swo {A} (key : A → Z) :
  StrictWeakOrder (λ a b, (key b <? key a)%Z).
Proof.
  split; intros *; rewrite ?Z.ltb_lt, ?Z.ltb_ge; lia.
Qed.

Lemma freq_gt_swo : StrictWeakOrder freq_gt.
Proof.
  unfold freq_gt. split; intros *; rewrite ?N.ltb_lt, ?N.ltb_ge; lia.
Qed.

Lemma weight_gt_swo : StrictWeakOrder weight_gt.
Proof. apply (key_gt_swo snd). Qed.

Lemma swo_asym {A} (comp : A → A → bool) a b :
  StrictWeakOrder comp → comp a b = true → comp b a = false.
Proof.
  intros Hswo Hab. destruct (comp b a) eqn:Hba; [|done].
  rewrite <-(swo_irrefl _ Hswo a). symmetry. by eapply swo_trans.
Qed.

Section InsertionFacts.
Context {A : Type} (comp stop : A → A → bool).
Hypothesis Hswo : StrictWeakOrder comp.
Hypothesis stop_before : ∀ x y, stop x y = true → comp y x = false.
Hypothesis stop_after : ∀ x y, stop x y = false → comp x y = false.

Lemma insert_by_perm x l : insert_by stop x l ≡ₚ x :: l.
Proof.
  induction l as [|y l IH]; simpl; [done|].
  destruct (stop x y); [done|]. by rewrite IH, Permutation_swap.
Qed.

Lemma insertion_sort_by_perm l : insertion_sort_by stop l ≡ₚ l.
Proof.
  induction l as [|x l IH]; simpl; [done|].
  by rewrite insert_by_perm, IH.
Qed.

Lemma insert_by_sorted x l :
  sorted_by comp l → sorted_by comp (insert_by stop x l).
Proof.
  unfold sorted_by. induction l as [|y l IH]; simpl; intros Hl.
  - repeat constructor.
  - apply StronglySorted_inv in Hl as [Hl Hy].
    destruct (stop x y) eqn:Hs.
    + constructor; [by constructor|].
      constructor; [by apply stop_before|].
      eapply Forall_impl; [exact Hy|]. intros z Hz. simpl in Hz.
      eapply swo_negtrans; eauto.
    + constructor; [by apply IH|].
      rewrite insert_by_perm. constructor; [|done]. by apply stop_after.
Qed.

Lemma insertion_sort_by_sorted l : sorted_by comp (insertion_sort_by stop l).
Proof.
  induction l as [|x l IH]; simpl; [constructor|]. by apply insert_by_sorted.
Qed.
End InsertionFacts.

(** Insertion that keeps ties in input order implements the contract. *)
Definition keep_ties_sort : StdSort.
Proof.
  refine {| std_sort := @sort_keep_ties |}.
  - intros A comp l _. apply insertion_sort_by_perm.
  - intros A comp l Hswo. apply insertion_sort_by_sorted; [done|..].
    + intros x y Hs. by apply negb_true_iff in Hs.
    + intros x y Hs. apply negb_false_iff in Hs. by apply swo_asym.
Defined.

(** So does insertion that reverses ties. *)
Definition flip_ties_sort : StdSort.
Proof.
  refine {| std_sort := @sort_flip_ties |}.
  - intros A comp l _. apply insertion_sort_by_perm.
  - intros A comp l Hswo. apply insertion_sort_by_sorted; [done|..].
    + intros x y Hs. by apply swo_asym.
    + done.
Defined.

(** So does the sort of the GNU library, by the test it is handed out
    with. *)
Lemma omap_lookup_seq {A} (l : list A) :
  omap (λ i, l !! i) (seq 0 (length l)) = l.
Proof.
  induction l as [|x l IH] using rev_ind; [done|].
  rewrite length_app, Nat.add_1_r, seq_S, omap_app. simpl.
  rewrite lookup_app_r, Nat.sub_diag by lia. simpl.
  f_equal. etrans; [|exact IH]. apply list_omap_ext, Forall2_same_length_lookup.
  split; [done|]. intros i a b Ha Hb. assert (a = b) as <- by congruence.
  apply lookup_seq in Ha as [-> Hi]. by rewrite lookup_app_l.
Qed.

Lemma is_sorted_by_spec {A} (comp : A → A → bool) (l : list A) :
  is_sorted_by comp l = true → sorted_by comp l.
Proof.
  induction l as [|x l IH]; simpl; [constructor|].
  intros [Hx Hl]%andb_true_iff. constructor; [by apply IH|].
  apply Forall_forall. intros y Hy%list_elem_of_In.
  rewrite forallb_forall in Hx. by apply negb_true_iff, Hx.
Qed.

Definition gnu_sort : StdSort.
Proof.
  refine {| std_sort := @gnu_std_sort |}.
  - intros A comp l Hswo. unfold gnu_std_sort.
    destruct (Gnu.sort _ _) as [positions|];
      [|by apply (@std_sort_perm keep_ties_sort)].
    case_match eqn:Htest; [|by apply (@std_sort_perm keep_ties_sort)].
    apply andb_true_iff in Htest as [Hall%bool_decide_eq_true _].
    transitivity (omap (λ i, l !! i) (seq 0 (length l)));
      [|by rewrite omap_lookup_seq].
    rewrite <-Hall. by rewrite merge_sort_Permutation.
  - intros A comp l Hswo. unfold gnu_std_sort.
    destruct (Gnu.sort _ _) as [positions|];
      [|by apply (@std_sort_sorted keep_ties_sort)].
    case_match eqn:Htest; [|by apply (@std_sort_sorted keep_ties_sort)].
    apply andb_true_iff in Htest as [_ Hsorted]. by apply is_sorted_by_spec.
Defined.

(** ** std::unique and truncation keep a sorted list sorted *)

Lemma unique_from_sublist {A} (pred : A → A → bool) kept l :
  unique_from pred kept l `sublist_of` l.
Proof.
  revert kept. induction l as [|x l IH]; intros kept; simpl; [constructor|].
  destruct (pred kept x); [by apply sublist_cons|by apply sublist_skip].
Qed.

Lemma std_unique_sublist {A} (pred : A → A → bool) l :
  std_unique pred l `sublist_of` l.
Proof.
  destruct l as [|x l]; simpl; [constructor|].
  apply sublist_skip, unique_from_sublist.
Qed.

Lemma StronglySorted_sublist {A} (R : relation A) l1 l2 :
  l1 `sublist_of` l2 → StronglySorted R l2 → StronglySorted R l1.
Proof.
  induction 1 as [|x l1 l2 Hsub IH|x l1 l2 Hsub IH]; intros Hs; [done|..];
    apply StronglySorted_inv in Hs as [Hs Hx]; [|by apply IH].
  constructor; [by apply IH|].
  rewrite Forall_forall in Hx |- *. intros y Hy. apply Hx.
  by eapply elem_of_sublist.
Qed.

Lemma StronglySorted_lookup {A} (R : relation A) l i j a b :
  StronglySorted R l → (i < j)%nat → l !! i = Some a → l !! j = Some b → R a b.
Proof.
  intros Hs. revert i j. induction Hs as [|x l Hs IH Hx]; intros i j Hij Hi Hj.
  - by rewrite lookup_nil in Hi.
  - destruct j as [|j]; [lia|]. destruct i as [|i]; simpl in *.
    + simplify_eq. rewrite Forall_forall in Hx. apply Hx.
      by eapply list_elem_of_lookup_2.
    + eapply (IH i j); [lia|done..].
Qed.

(** ** The ranking invariant of the parser *)

(** What every result of [GenerateCandidates] satisfies. *)
Definition ranked (r : ParseResult) : Prop :=
  StronglySorted (λ a b, b ≤ a) (frequencies r) ∧
  (length (candidates r) ≤ 20)%nat ∧
  length (frequencies r) = length (candidates r).

Section ParserFacts.
Context `{StdSort}.

Lemma GenerateCandidates_sublist d s :
  GenerateCandidates d s `sublist_of` std_sort freq_gt (collect_candidates d s).
Proof.
  unfold GenerateCandidates. case_match.
  - etrans; [apply sublist_take|apply std_unique_sublist].
  - apply std_unique_sublist.
Qed.

Lemma GenerateCandidates_sorted d s :
  sorted_by freq_gt (GenerateCandidates d s).
Proof.
  eapply StronglySorted_sublist; [apply GenerateCandidates_sublist|].
  apply std_sort_sorted, freq_gt_swo.
Qed.

Lemma GenerateCandidates_length d s :
  (length (GenerateCandidates d s) ≤ 20)%nat.
Proof.
  unfold GenerateCandidates. case_match eqn:Hlen.
  - rewrite length_take. lia.
  - apply Nat.ltb_ge in Hlen. lia.
Qed.

Lemma to_result_ranked d s : ranked (to_result (GenerateCandidates d s)).
Proof.
  unfold ranked, to_result; simpl. split_and!.
  - eapply (StronglySorted_fmap frequency); [|apply GenerateCandidates_sorted].
    intros x y Hxy. simpl in Hxy. unfold freq_gt in Hxy.
    apply N.ltb_ge in Hxy. lia.
  - rewrite length_map. apply GenerateCandidates_length.
  - by rewrite !length_map.
Qed.

(** Every cached result is ranked. *)
Definition cache_ranked (p : PinyinParser) : Prop :=
  map_Forall (λ _ r, ranked r) (m_cache p).

Lemma ParseContinuousPinyin_cache_ranked d p s :
  cache_ranked p → cache_ranked (ParseContinuousPinyin d p s).2.
Proof.
  unfold cache_ranked, ParseContinuousPinyin. intros Hp.
  destruct (m_cache p !! s) eqn:Hs; simpl; [done|].
  apply map_Forall_insert_2; [apply to_result_ranked|done].
Qed.

Lemma reachable_cache_ranked p : parser_reachable p → cache_ranked p.
Proof.
  intros [ops ->]. induction ops as [|op ops IH] using rev_ind.
  - apply map_Forall_empty.
  - rewrite foldl_app. simpl. destruct op; simpl.
    + by apply ParseContinuousPinyin_cache_ranked.
    + apply map_Forall_empty.
Qed.

Lemma ParseContinuousPinyin_ranked d p s :
  cache_ranked p → ranked (ParseContinuousPinyin d p s).1.
Proof.
  unfold ParseContinuousPinyin. intros Hp.
  destruct (m_cache p !! s) eqn:Hs; simpl.
  - by eapply Hp.
  - apply to_result_ranked.
Qed.
End ParserFacts.

(** C5.  For every input sequence and every dictionary, the result of
    [ParseContinuousPinyin] on a parser in any reachable state has
    non-increasing frequencies and holds at most 20 candidates (with one
    frequency per candidate). *)
Theorem parse_result_ranked `{StdSort} (d : Dictionary) (p : PinyinParser)
    (pinyinSequence : wstring) :
  parser_reachable p →
  let r := (ParseContinuousPinyin d p pinyinSequence).1 in
  (∀ i j a b, (i < j)%nat →
     frequencies r !! i = Some a → frequencies r !! j = Some b → b ≤ a) ∧
  (length (candidates r) ≤ 20)%nat ∧
  length (frequencies r) = length (candidates r).
Proof.
  intros Hp r.
  destruct (ParseContinuousPinyin_ranked d p pinyinSequence) as (Hs & Hlen & Heq).
  { by apply reachable_cache_ranked. }
  split_and!; [|done..].
  intros i j a b Hij Hi Hj.
  by apply (StronglySorted_lookup _ _ i j a b Hs).
Qed.

(** A dictionary with entries under two keys, for the examples below. *)
Definition example_entry (w : string) (f : N) (pron : string) : DictEntry :=
  mkDictEntry (wlit w) f (wlit pron) [].

(** The ranking invariant at a parser that has already cached its input. *)
Lemma parse_result_ranked_witness :
  let S := keep_ties_sort in
  let d := AddEntry (AddEntry Dictionary_new (wlit "a") (example_entry "x" 3 "a"))
                    (wlit "a") (example_entry "y" 7 "a") in
  let p := run_parser_op PinyinParser_new (OpParse d (wlit "a")) in
  parser_reachable p ∧
  let r := (ParseContinuousPinyin d p (wlit "a")).1 in
  (∀ i j a b, (i < j)%nat →
     frequencies r !! i = Some a → frequencies r !! j = Some b → b ≤ a) ∧
  (length (candidates r) ≤ 20)%nat ∧
  length (frequencies r) = length (candidates r).
Proof.
  intros S d p. split.
  - exists [OpParse d (wlit "a")]. reflexivity.
  - apply (parse_result_ranked d p (wlit "a")).
    exists [OpParse d (wlit "a")]. reflexivity.
Defined.

(** ** The cache of the parser *)

(** The parser after further parse calls, each made with the dictionary as
    it is at that call. *)
Definition parse_calls `{StdSort} (p : PinyinParser)
    (calls : list (Dictionary * list N)) : PinyinParser :=
  foldl (λ p call, (ParseContinuousPinyin call.1 p call.2).2) p calls.

Section CacheFacts.
Context `{StdSort}.

Lemma ParseContinuousPinyin_cached d p s r :
  m_cache p !! s = Some r → ParseContinuousPinyin d p s = (r, p).
Proof. unfold ParseContinuousPinyin. by intros ->. Qed.

Lemma ParseContinuousPinyin_fresh d p s :
  m_cache p !! s = None →
  ParseContinuousPinyin d p s =
    (to_result (GenerateCandidates d s),
     {| m_cache := <[s := to_result (GenerateCandidates d s)]> (m_cache p) |}).
Proof. unfold ParseContinuousPinyin. by intros ->. Qed.

Lemma ParseContinuousPinyin_stores d p s :
  m_cache (ParseContinuousPinyin d p s).2 !! s = Some (ParseContinuousPinyin d p s).1.
Proof.
  unfold ParseContinuousPinyin. destruct (m_cache p !! s) eqn:Hs; simpl; [done|].
  apply lookup_insert_eq.
Qed.

Lemma ParseContinuousPinyin_keeps d p s s' r :
  m_cache p !! s = Some r → m_cache (ParseContinuousPinyin d p s').2 !! s = Some r.
Proof.
  unfold ParseContinuousPinyin. intros Hs.
  destruct (m_cache p !! s') eqn:Hs'; simpl; [done|].
  rewrite lookup_insert_ne; [done|]. intros ->. congruence.
Qed.

Lemma parse_calls_keeps p calls s r :
  m_cache p !! s = Some r → m_cache (parse_calls p calls) !! s = Some r.
Proof.
  unfold parse_calls. revert p.
  induction calls as [|[d' s'] calls IH]; intros p Hs; simpl; [done|].
  by apply IH, ParseContinuousPinyin_keeps.
Qed.
End CacheFacts.

(** C3.  A second [ParseContinuousPinyin] call with the same input returns
    the identical result and leaves the parser as it is; it is answered
    from the cache entry stored by the first call, whatever the dictionary
    has become and whatever other inputs were parsed in between.  After
    [ClearCache] the result is computed again, from the dictionary of that
    call. *)
Theorem cache_correct `{StdSort} (d : Dictionary) (p : PinyinParser)
    (pinyinSequence : wstring) :
  let r1 := (ParseContinuousPinyin d p pinyinSequence).1 in
  let p1 := (ParseContinuousPinyin d p pinyinSequence).2 in
  ParseContinuousPinyin d p1 pinyinSequence = (r1, p1) ∧
  m_cache p1 !! pinyinSequence = Some r1 ∧
  (∀ d' calls,
     let p2 := parse_calls p1 calls in
     ParseContinuousPinyin d' p2 pinyinSequence = (r1, p2)) ∧
  (∀ d' calls,
     let p3 := ClearCache (parse_calls p1 calls) in
     (ParseContinuousPinyin d' p3 pinyinSequence).1 =
       to_result (GenerateCandidates d' pinyinSequence)).
Proof.
  intros r1 p1.
  assert (m_cache p1 !! pinyinSequence = Some r1) as Hstored
    by apply ParseContinuousPinyin_stores.
  split_and!.
  - by apply ParseContinuousPinyin_cached.
  - done.
  - intros d' calls p2.
    by apply ParseContinuousPinyin_cached, parse_calls_keeps.
  - intros d' calls p3. by rewrite ParseContinuousPinyin_fresh.
Qed.

(** The stale result is observable: after the dictionary gains an entry for
    the cached input, the parser still answers without it, and answers with
    it once the cache is cleared. *)
Example stale_result_served :
  let S := keep_ties_sort in
  let d := AddEntry Dictionary_new (wlit "a") (example_entry "x" 3 "a") in
  let d' := AddEntry d (wlit "a") (example_entry "y" 7 "a") in
  let p1 := (ParseContinuousPinyin d PinyinParser_new (wlit "a")).2 in
  candidates (ParseContinuousPinyin d' p1 (wlit "a")).1 = [wlit "x"] ∧
  candidates (ParseContinuousPinyin d' (ClearCache p1) (wlit "a")).1
    = [wlit "y"; wlit "x"].
Proof. split; vm_compute; reflexivity. Qed.

(** ** Segmentation *)

(** When no two distinct elements of the input are equivalent, the contract
    of [std::sort] fixes the result. *)
Lemma std_sort_determined `{StdSort} {A} (comp : A → A → bool) (l : list A) :
  StrictWeakOrder comp →
  (∀ x y, x ∈ l → y ∈ l → comp y x = false → comp x y = false → x = y) →
  std_sort comp l = sort_keep_ties comp l.
Proof.
  intros Hswo Hdistinct.
  pose proof (@std_sort_perm keep_ties_sort A comp l Hswo) as Hperm.
  pose proof (@std_sort_sorted keep_ties_sort A comp l Hswo) as Hsorted.
  simpl in Hperm, Hsorted.
  eapply StronglySorted_unique_strong;
    [|by apply std_sort_sorted|exact Hsorted|by rewrite std_sort_perm, Hperm].
  intros x y Hx Hy. apply Hdistinct.
  - by rewrite std_sort_perm in Hx.
  - by rewrite Hperm in Hy.
Qed.

Lemma std_sort_singleton `{StdSort} {A} (comp : A → A → bool) (x : A) :
  StrictWeakOrder comp → std_sort comp [x] = [x].
Proof. intros Hswo. apply Permutation_singleton_r. by apply std_sort_perm. Qed.

(** The rule of the two-way split: entries found for both halves of a split
    give their combination as a candidate, before sorting. *)
Lemma split_candidates_combined (d : Dictionary) (s : wstring) (i : nat)
    (leftEntry rightEntry : DictEntry) :
  leftEntry ∈ Lookup d (take i s) →
  rightEntry ∈ Lookup d (drop i s) →
  combine_entries leftEntry rightEntry ∈ split_candidates d s i.
Proof.
  intros Hl Hr. unfold split_candidates.
  destruct (Lookup d (take i s)) as [|l0 ls] eqn:El; [by apply elem_of_nil in Hl|].
  destruct (Lookup d (drop i s)) as [|r0 rs] eqn:Er; [by apply elem_of_nil in Hr|].
  apply list_elem_of_In, in_flat_map. exists leftEntry.
  split; [by apply list_elem_of_In|].
  apply in_map. by apply list_elem_of_In.
Qed.

(** After the sort by frequency, [std::unique] keeps for every element an
    element of the same word that does not rank below it. *)
Lemma unique_from_keeps_word kept l x :
  Forall (λ y, frequency y ≤ frequency kept) l →
  sorted_by freq_gt l → x ∈ l →
  ∃ y, y ∈ kept :: unique_from same_word kept l ∧
       word y = word x ∧ frequency x ≤ frequency y.
Proof.
  intros Hkept Hsorted. revert kept Hkept.
  induction Hsorted as [|a l Hsorted IH Ha]; intros kept Hkept Hx;
    [by apply elem_of_nil in Hx|].
  apply Forall_cons in Hkept as [Hak Hkept].
  assert (Forall (λ y, frequency y ≤ frequency a) l) as Hla.
  { eapply Forall_impl; [exact Ha|]. intros y Hy. unfold freq_gt in Hy.
    by apply N.ltb_ge in Hy. }
  simpl. destruct (same_word kept a) eqn:Hsame.
  - apply elem_of_cons in Hx as [->|Hx].
    + exists kept. split_and!; [by left| |done].
      unfold same_word in Hsame. by apply bool_decide_eq_true in Hsame.
    + by apply IH.
  - apply elem_of_cons in Hx as [->|Hx].
    + exists a. split_and!; [by right; left|done|lia].
    + destruct (IH a Hla Hx) as (y & Hy & Hw & Hf).
      exists y. split_and!; [by right|done..].
Qed.

Lemma std_unique_keeps_word l x :
  sorted_by freq_gt l → x ∈ l →
  ∃ y, y ∈ std_unique same_word l ∧ word y = word x ∧ frequency x ≤ frequency y.
Proof.
  intros Hsorted Hx. destruct l as [|a l]; [by apply elem_of_nil in Hx|].
  apply StronglySorted_inv in Hsorted as [Hsorted Ha]. simpl.
  apply elem_of_cons in Hx as [->|Hx]; [exists a; split_and!; [by left|done|lia]|].
  apply unique_from_keeps_word; [|done..].
  eapply Forall_impl; [exact Ha|]. intros y Hy. unfold freq_gt in Hy.
  by apply N.ltb_ge in Hy.
Qed.

(** C4 (amended).  The dictionary holds an entry for "ni" with word U+4F60
    and frequency 500 and an entry for "hao" with word U+597D and frequency
    500, and none for "nihao"; the parser has no cached result for "nihao".
    Then the two-way segmentation rule forms the candidate of both words
    with frequency [min 500 500 = 500].  When at most 20 candidates are
    formed for the sequence, the result holds a candidate with that word,
    and its frequency is that of a formed candidate with that word and at
    least 500.  When the dictionary holds nothing but the two entries, the
    result is that candidate alone, with frequency 500. *)
Theorem nihao_segmentation `{StdSort} (d : Dictionary) (p : PinyinParser)
    (e_ni e_hao : DictEntry) :
  e_ni ∈ Lookup d (wlit "ni") → word e_ni = [20320] → frequency e_ni = 500 →
  e_hao ∈ Lookup d (wlit "hao") → word e_hao = [22909] → frequency e_hao = 500 →
  Lookup d (wlit "nihao") = [] →
  m_cache p !! wlit "nihao" = None →
  let r := (ParseContinuousPinyin d p (wlit "nihao")).1 in
  let formed := collect_candidates d (wlit "nihao") in
  let both := combine_entries e_ni e_hao in
  both ∈ formed ∧
  word both = [20320; 22909] ∧
  frequency both = N.min 500 500 ∧
  ((length formed ≤ 20)%nat →
   ∃ i e, candidates r !! i = Some [20320; 22909] ∧
          frequencies r !! i = Some (frequency e) ∧
          e ∈ formed ∧ word e = [20320; 22909] ∧ 500 ≤ frequency e) ∧
  (Lookup d (wlit "ni") = [e_ni] → Lookup d (wlit "hao") = [e_hao] →
   (∀ key, key ≠ wlit "ni" → key ≠ wlit "hao" → Lookup d key = []) →
   r = {| candidates := [[20320; 22909]]; frequencies := [500] |}).
Proof.
  intros Hni Hw1 Hf1 Hhao Hw2 Hf2 Hnone Hfresh r formed both.
  assert (word both = [20320; 22909]) as Hword.
  { unfold both, combine_entries. simpl. by rewrite Hw1, Hw2. }
  assert (frequency both = 500) as Hfreq.
  { unfold both, combine_entries. simpl. by rewrite Hf1, Hf2. }
  assert (both ∈ formed) as Hformed.
  { unfold formed, collect_candidates. rewrite Hnone.
    change (wlit "nihao") with [110; 105; 104; 97; 111].
    cbn [length Nat.ltb Nat.leb Nat.sub].
    apply list_elem_of_In, in_flat_map. exists 2%nat. split.
    - apply list_elem_of_In. apply elem_of_seq. lia.
    - apply list_elem_of_In, split_candidates_combined; done. }
  assert (r = to_result (GenerateCandidates d (wlit "nihao"))) as Hr.
  { unfold r. by rewrite ParseContinuousPinyin_fresh. }
  split_and!; [done|done|by rewrite Hfreq| |].
  - intros Hlen.
    pose proof (std_sort_perm freq_gt formed freq_gt_swo) as Hperm.
    pose proof (std_sort_sorted freq_gt formed freq_gt_swo) as Hsorted.
    destruct (std_unique_keeps_word (std_sort freq_gt formed) both Hsorted)
      as (e & He & Hwe & Hfe); [by rewrite Hperm|].
    assert (GenerateCandidates d (wlit "nihao")
              = std_unique same_word (std_sort freq_gt formed)) as Hg.
    { unfold GenerateCandidates. fold formed. case_match eqn:Hbig; [|done].
      apply Nat.ltb_lt in Hbig.
      pose proof (sublist_length _ _
                    (std_unique_sublist same_word (std_sort freq_gt formed))) as Hsub.
      rewrite (Permutation_length Hperm) in Hsub. lia. }
    apply list_elem_of_lookup in He as [i Hi].
    exists i, e. rewrite Hr, Hg. unfold to_result. simpl.
    rewrite !list_lookup_fmap, Hi. simpl.
    split_and!; [by rewrite Hwe, Hword|done| |by rewrite Hwe|by rewrite <-Hfreq].
    rewrite <-Hperm. eapply elem_of_sublist; [|apply std_unique_sublist].
    by eapply list_elem_of_lookup_2.
  - intros Hni1 Hhao1 Hother.
    assert (formed = [both]) as Hc.
    { unfold formed, collect_candidates. rewrite Hnone.
      change (wlit "nihao") with [110; 105; 104; 97; 111].
      cbn [length Nat.ltb Nat.leb Nat.sub seq flat_map].
      unfold split_candidates. cbn [take drop].
      change [110; 105] with (wlit "ni"). change [104; 97; 111] with (wlit "hao").
      rewrite Hni1, Hhao1.
      rewrite (Hother [110]), (Hother [110; 105; 104]),
        (Hother [110; 105; 104; 97]) by done.
      reflexivity. }
    rewrite Hr. unfold GenerateCandidates. fold formed.
    rewrite Hc, std_sort_singleton by apply freq_gt_swo.
    clearbody both. unfold to_result. simpl. by rewrite Hword, Hfreq.
Qed.

(** The dictionary of the segmentation example. *)
Definition nihao_dict : Dictionary :=
  AddEntry (AddEntry Dictionary_new (wlit "ni")
              (mkDictEntry [20320] 500 (wlit "ni") []))
           (wlit "hao") (mkDictEntry [22909] 500 (wlit "hao") []).

Lemma nihao_dict_other key :
  key ≠ wlit "ni" → key ≠ wlit "hao" → Lookup nihao_dict key = [].
Proof.
  intros Hni Hhao. unfold Lookup, nihao_dict, AddEntry, push_entry; simpl.
  rewrite lookup_insert_ne by done. rewrite lookup_insert_ne by done.
  by rewrite lookup_empty.
Qed.

(** The segmentation example on the dictionary built by two [AddEntry]
    calls: one candidate is formed, and it is the result. *)
Lemma nihao_segmentation_witness :
  let S := keep_ties_sort in
  let both := combine_entries (mkDictEntry [20320] 500 (wlit "ni") [])
                              (mkDictEntry [22909] 500 (wlit "hao") []) in
  both ∈ collect_candidates nihao_dict (wlit "nihao") ∧
  (ParseContinuousPinyin nihao_dict PinyinParser_new (wlit "nihao")).1 =
    {| candidates := [[20320; 22909]]; frequencies := [500] |}.
Proof.
  intros S both.
  destruct (nihao_segmentation nihao_dict PinyinParser_new
              (mkDictEntry [20320] 500 (wlit "ni") [])
              (mkDictEntry [22909] 500 (wlit "hao") []))
    as (Hformed & _ & _ & _ & Honly);
    [vm_compute; by left|reflexivity|reflexivity|
     vm_compute; by left|reflexivity|reflexivity|
     vm_compute; reflexivity|apply lookup_empty|].
  split; [exact Hformed|].
  apply Honly; [vm_compute; reflexivity|vm_compute; reflexivity|apply nihao_dict_other].
Defined.

(** When the frequencies of the input are pairwise different, the contract
    of [std::sort] fixes the result of the sort by frequency. *)
Lemma std_sort_determined_freq `{StdSort} (l : list DictEntry) :
  NoDup (frequency <$> l) → std_sort freq_gt l = sort_keep_ties freq_gt l.
Proof.
  intros Hnd. apply std_sort_determined; [apply freq_gt_swo|].
  intros x y Hx Hy Hyx Hxy. unfold freq_gt in Hyx, Hxy.
  apply N.ltb_ge in Hyx, Hxy.
  assert (frequency x = frequency y) as Heq by lia. clear Hyx Hxy.
  induction l as [|a l IH]; [by apply elem_of_nil in Hx|].
  rewrite fmap_cons in Hnd. apply NoDup_cons in Hnd as [Ha Hnd].
  apply elem_of_cons in Hx as [->|Hx]; apply elem_of_cons in Hy as [->|Hy].
  - done.
  - destruct Ha. rewrite Heq. by apply list_elem_of_fmap_2.
  - destruct Ha. rewrite <-Heq. by apply list_elem_of_fmap_2.
  - by apply IH.
Qed.

Lemma GenerateCandidates_determined `{StdSort} d s :
  NoDup (frequency <$> collect_candidates d s) →
  GenerateCandidates d s = @GenerateCandidates keep_ties_sort d s.
Proof.
  intros Hnd. unfold GenerateCandidates. by rewrite std_sort_determined_freq.
Qed.

(** The dictionary of the segmentation example with 21 more entries under
    "n", of frequencies 1001 to 1021, and one under "ihao". *)
Definition crowded_dict : Dictionary :=
  AddEntry
    (foldl (λ d i, AddEntry d (wlit "n")
                     (mkDictEntry [19968 + N.of_nat i] (1001 + N.of_nat i)
                                  (wlit "n") []))
           nihao_dict (seq 0 21))
    (wlit "ihao") (mkDictEntry [22909] 2000 (wlit "ihao") []).

(** The frequencies of the candidates formed for "nihao" on [crowded_dict]
    are pairwise different, so that every [std::sort] leads to the same
    result. *)
Lemma crowded_dict_result `{StdSort} :
  (ParseContinuousPinyin crowded_dict PinyinParser_new (wlit "nihao")).1
  = to_result (@GenerateCandidates keep_ties_sort crowded_dict (wlit "nihao")).
Proof.
  rewrite ParseContinuousPinyin_fresh by apply lookup_empty. cbn [fst].
  rewrite GenerateCandidates_determined; [done|].
  apply (bool_decide_unpack _). vm_compute. exact I.
Qed.

(** C4 as stated fails on [crowded_dict], which holds the two entries the
    claim asks for and none for "nihao": the split after "n" forms 21
    candidates of frequency above 1000, the cut to 20 candidates drops the
    candidate of "ni" and "hao", and the result does not hold its word.
    The sort is that of the GNU library; by [crowded_dict_result] any other
    gives the same. *)
Lemma nihao_displaced :
  let S := gnu_sort in
  let r := (ParseContinuousPinyin crowded_dict PinyinParser_new (wlit "nihao")).1 in
  mkDictEntry [20320] 500 (wlit "ni") [] ∈ Lookup crowded_dict (wlit "ni") ∧
  mkDictEntry [22909] 500 (wlit "hao") [] ∈ Lookup crowded_dict (wlit "hao") ∧
  Lookup crowded_dict (wlit "nihao") = [] ∧
  length (candidates r) = 20%nat ∧
  ([20320; 22909] ∉ candidates r) ∧
  Forall (λ f, 1000 < f) (frequencies r).
Proof.
  intros S r. unfold r. rewrite crowded_dict_result.
  split_and!.
  - apply (bool_decide_unpack _). vm_compute. exact I.
  - apply (bool_decide_unpack _). vm_compute. exact I.
  - vm_compute. reflexivity.
  - vm_compute. reflexivity.
  - apply (bool_decide_unpack _). vm_compute. exact I.
  - apply (bool_decide_unpack _). vm_compute. exact I.
Qed.

(** ** Deduplication *)

(** A dictionary for which two different splits of "abc" give the word
    "xyz", with frequencies 9 and 3, and a third candidate lies between. *)
Definition dedup_dict : Dictionary :=
  let d := AddEntry Dictionary_new (wlit "a") (example_entry "x" 9 "a") in
  let d := AddEntry d (wlit "a") (example_entry "q" 5 "a") in
  let d := AddEntry d (wlit "bc") (example_entry "yz" 9 "bc") in
  let d := AddEntry d (wlit "ab") (example_entry "xy" 3 "ab") in
  AddEntry d (wlit "c") (example_entry "z" 3 "c").

Lemma dedup_dict_collected :
  collect_candidates dedup_dict (wlit "abc") =
    [ mkDictEntry (wlit "xyz") 9 (wlit "a bc") [wlit "combined"];
      mkDictEntry (wlit "qyz") 5 (wlit "a bc") [wlit "combined"];
      mkDictEntry (wlit "xyz") 3 (wlit "ab c") [wlit "combined"] ].
Proof. vm_compute. reflexivity. Qed.

(** C2.  On [dedup_dict] the parser returns the word "xyz" twice, with
    frequencies 9 and 3: [std::unique] only drops a candidate whose word
    equals that of its predecessor in frequency order. *)
Theorem dedup_adjacent_only `{StdSort} :
  (ParseContinuousPinyin dedup_dict PinyinParser_new (wlit "abc")).1 =
    {| candidates := [wlit "xyz"; wlit "qyz"; wlit "xyz"];
       frequencies := [9; 5; 3] |}.
Proof.
  rewrite ParseContinuousPinyin_fresh by apply lookup_empty. simpl.
  unfold GenerateCandidates. rewrite dedup_dict_collected.
  rewrite std_sort_determined; [vm_compute; reflexivity|apply freq_gt_swo|].
  intros x y Hx Hy.
  repeat (apply elem_of_cons in Hx as [->|Hx]); [..|by apply elem_of_nil in Hx];
    repeat (apply elem_of_cons in Hy as [->|Hy]); try (by apply elem_of_nil in Hy);
    vm_compute; congruence.
Qed.

(** ** Reordering by user preference *)

Lemma StronglySorted_fmap_inv {A B} (f : A → B) (R : relation B) (R' : relation A)
    (l : list A) :
  (∀ x y, R (f x) (f y) → R' x y) →
  StronglySorted R (List.map f l) → StronglySorted R' l.
Proof.
  intros HR. induction l as [|x l IH]; simpl; intros Hs; [constructor|].
  apply StronglySorted_inv in Hs as [Hs Hx]. constructor; [by apply IH|].
  apply Forall_forall. intros y Hy. apply HR.
  rewrite Forall_forall in Hx. apply Hx.
  apply list_elem_of_In, in_map. by apply list_elem_of_In.
Qed.

Lemma map_fst_tagged {A B} (g : A → B) (l : list (A * B)) :
  Forall (λ pr, pr.2 = g pr.1) l →
  List.map (λ c, (c, g c)) (List.map fst l) = l.
Proof.
  induction 1 as [|[a b] l Hab Hl IH]; simpl in *; [done|]. by rewrite IH, Hab.
Qed.

(** Weights in non-increasing order. *)
Definition by_weight (table : gmap (list N) Z) : relation (list N) :=
  λ a b, (weight_of table b ≤ weight_of table a)%Z.

Section PreferenceFacts.
Context `{StdSort}.

Lemma apply_preferences_tagged table cands :
  List.map (λ c, (c, weight_of table c)) (apply_preferences table cands) =
  std_sort weight_gt (List.map (λ c, (c, weight_of table c)) cands).
Proof.
  unfold apply_preferences. apply map_fst_tagged.
  rewrite (std_sort_perm weight_gt _ weight_gt_swo).
  apply Forall_forall. intros pr Hpr.
  apply list_elem_of_In, in_map_iff in Hpr as (c & <- & _). done.
Qed.

Lemma apply_preferences_perm table cands :
  apply_preferences table cands ≡ₚ cands.
Proof.
  unfold apply_preferences.
  rewrite (Permutation_map fst (std_sort_perm weight_gt _ weight_gt_swo)).
  rewrite map_map. simpl. by rewrite map_id.
Qed.

Lemma apply_preferences_sorted table cands :
  StronglySorted (by_weight table) (apply_preferences table cands).
Proof.
  apply (StronglySorted_fmap_inv (λ c, (c, weight_of table c))
           (λ a b, weight_gt b a = false)).
  - intros x y Hxy. unfold weight_gt in Hxy. simpl in Hxy.
    apply Z.ltb_ge in Hxy. exact Hxy.
  - rewrite apply_preferences_tagged. apply std_sort_sorted, weight_gt_swo.
Qed.

Lemma GetSmartSuggestions_unfold d cm input :
  GetSmartSuggestions d cm input =
    (match m_userPreferences cm !! input with
     | Some table => apply_preferences table (GetCandidates d cm input).1
     | None => (GetCandidates d cm input).1
     end, (GetCandidates d cm input).2).
Proof.
  unfold GetSmartSuggestions, GetCandidates.
  destruct (ParseContinuousPinyin d (m_parser cm) input) as [r p]. simpl.
  by destruct (m_userPreferences cm !! input).
Qed.
End PreferenceFacts.

(** C6 (amended).  [GetSmartSuggestions] returns the base candidate list
    when no preference table exists for the input key.  When one exists, it
    returns a rearrangement of the base list in which the recorded weights,
    0 for a candidate without one, never increase.  The state it leaves is
    that left by [GetCandidates]. *)
Theorem smart_suggestions_by_weight `{StdSort} (d : Dictionary)
    (cm : CandidateManager) (pinyinInput : wstring) :
  let base := (GetCandidates d cm pinyinInput).1 in
  let suggestions := (GetSmartSuggestions d cm pinyinInput).1 in
  (GetSmartSuggestions d cm pinyinInput).2 = (GetCandidates d cm pinyinInput).2 ∧
  match m_userPreferences cm !! pinyinInput with
  | None => suggestions = base
  | Some table =>
      suggestions ≡ₚ base ∧
      ∀ i j a b, (i < j)%nat →
        suggestions !! i = Some a → suggestions !! j = Some b →
        (weight_of table b ≤ weight_of table a)%Z
  end.
Proof.
  intros base suggestions. subst base suggestions.
  rewrite GetSmartSuggestions_unfold. simpl. split; [done|].
  destruct (m_userPreferences cm !! pinyinInput) as [table|]; [|done].
  split; [apply apply_preferences_perm|].
  intros i j a b Hij Hi Hj.
  eapply (StronglySorted_lookup (by_weight table)); [|exact Hij|exact Hi|exact Hj].
  apply apply_preferences_sorted.
Qed.

(** The claim as the specification words it: with a preference table the
    candidates come out in the order of a stable sort by weight. *)
Definition suggestions_stable (S : StdSort) : Prop :=
  ∀ d cm pinyinInput table,
    m_userPreferences cm !! pinyinInput = Some table →
    (GetSmartSuggestions d cm pinyinInput).1 =
      List.map fst
        (sort_keep_ties weight_gt
           (List.map (λ c, (c, weight_of table c))
                     (GetCandidates d cm pinyinInput).1)).

(** Two candidates of weight 0 under a table that records a third word. *)
Definition tie_dict : Dictionary :=
  AddEntry (AddEntry Dictionary_new (wlit "a") (example_entry "x" 9 "a"))
           (wlit "a") (example_entry "y" 5 "a").

Definition tie_manager : CandidateManager :=
  AddUserPreference (CandidateManager_new PinyinParser_new)
                    (wlit "a") (wlit "z") 1.

(** Seventeen entries under "a", with the words "wa" to "wq" and the
    frequencies 100 down to 84. *)
Definition alphabet_dict : Dictionary :=
  foldl (λ d i, AddEntry d (wlit "a")
                  (mkDictEntry [119; 97 + N.of_nat i] (100 - N.of_nat i)
                               (wlit "a") []))
        Dictionary_new (seq 0 17).

Definition alphabet_base : list wstring :=
  [ wlit "wa"; wlit "wb"; wlit "wc"; wlit "wd"; wlit "we"; wlit "wf"; wlit
    "wg"; wlit "wh"; wlit "wi"; wlit "wj"; wlit "wk"; wlit "wl"; wlit "wm";
    wlit "wn"; wlit "wo"; wlit "wp"; wlit "wq" ].

Definition alphabet_suggestions : list wstring :=
  [ wlit "wi"; wlit "wq"; wlit "wp"; wlit "wo"; wlit "wn"; wlit "wm"; wlit
    "wl"; wlit "wk"; wlit "wj"; wlit "wa"; wlit "wh"; wlit "wg"; wlit "wf";
    wlit "we"; wlit "wd"; wlit "wc"; wlit "wb" ].

(** C6 as stated fails with the [std::sort] of the GNU library.  The
    preference table of [tie_manager] for "a" records "z" only, so that the
    seventeen candidates of [alphabet_dict] all weigh 0.  The vector of
    more than sixteen elements goes through the partition step of the
    library, which swaps equivalent elements, and the candidates come back
    in another order than the base order.  (With sixteen candidates or
    fewer the library sorts by insertion and keeps the base order among
    equal weights.) *)
Lemma suggestions_not_stable :
  let S := gnu_sort in
  (GetCandidates alphabet_dict tie_manager (wlit "a")).1 = alphabet_base ∧
  (∃ table, m_userPreferences tie_manager !! wlit "a" = Some table ∧
            Forall (λ c, weight_of table c = 0%Z) alphabet_base) ∧
  Gnu.sort weight_gt (List.map (λ c, (c, 0%Z)) alphabet_base)
    = Some (List.map (λ c, (c, 0%Z)) alphabet_suggestions) ∧
  (GetSmartSuggestions alphabet_dict tie_manager (wlit "a")).1
    = alphabet_suggestions ∧
  alphabet_suggestions ≠ alphabet_base ∧
  ¬ suggestions_stable gnu_sort.
Proof.
  intros S. split_and!.
  - vm_compute. reflexivity.
  - exists {[ wlit "z" := 1%Z ]}. split; [vm_compute; reflexivity|].
    apply (bool_decide_unpack _). vm_compute. exact I.
  - vm_compute. reflexivity.
  - vm_compute. reflexivity.
  - discriminate.
  - intros Hstable.
    specialize (Hstable alphabet_dict tie_manager (wlit "a") {[ wlit "z" := 1%Z ]}).
    vm_compute in Hstable. specialize (Hstable eq_refl). discriminate Hstable.
Qed.

(** ** Rank of a candidate *)

Lemma rank_of_split c l r :
  rank_of c l = Some r →
  ∃ pre post, l = pre ++ (c :: post) ∧ (c ∉ pre) ∧ length pre = r.
Proof.
  revert r. induction l as [|x l IH]; intros r; simpl; [done|].
  case_bool_decide as Hx.
  - intros [= <-]. subst x. exists [], l. split_and!; [done| |done].
    apply not_elem_of_nil.
  - destruct (rank_of c l) as [r'|] eqn:Hr; [|done]. simpl. intros [= <-].
    destruct (IH r' eq_refl) as (pre & post & -> & Hpre & <-).
    exists (x :: pre), post. split_and!; [done| |done].
    rewrite not_elem_of_cons. done.
Qed.

Lemma rank_of_elem c l : c ∈ l → is_Some (rank_of c l).
Proof.
  induction l as [|x l IH]; simpl; [by intros ?%elem_of_nil|].
  intros Hc. case_bool_decide as Hx; [by eexists|].
  apply elem_of_cons in Hc as [->|Hc]; [done|].
  destruct (IH Hc) as [r ->]. by eexists.
Qed.

Lemma rank_of_is_elem c l r : rank_of c l = Some r → c ∈ l.
Proof.
  intros (pre & post & -> & _)%rank_of_split.
  apply elem_of_app. right. by left.
Qed.

Lemma filter_length_mono {A} (P Q : A → Prop)
    `{∀ x, Decision (P x)} `{∀ x, Decision (Q x)} (l : list A) :
  (∀ x, P x → Q x) → (length (filter P l) ≤ length (filter Q l))%nat.
Proof.
  intros HPQ. induction l as [|x l IH]; [done|].
  rewrite !filter_cons. destruct (decide (P x)) as [HP|HP].
  - rewrite decide_True by auto. simpl. lia.
  - destruct (decide (Q x)); simpl; lia.
Qed.

Lemma filter_none {A} (P : A → Prop) `{∀ x, Decision (P x)} (l : list A) :
  Forall (λ x, ¬ P x) l → filter P l = [].
Proof.
  induction 1 as [|x l Hx Hl IH]; [done|].
  by rewrite filter_cons, decide_False.
Qed.

Lemma filter_all {A} (P : A → Prop) `{∀ x, Decision (P x)} (l : list A) :
  Forall P l → filter P l = l.
Proof.
  induction 1 as [|x l Hx Hl IH]; [done|].
  by rewrite filter_cons, decide_True, IH.
Qed.

Section RankFacts.
Context (w : list N → Z) (c : list N).

(** The candidates other than [c] that weigh more than [c]. *)
Definition heavier (x : list N) : Prop := x ≠ c ∧ (w c < w x)%Z.

(** The candidates other than [c] that weigh at least as much as [c]. *)
Definition not_lighter (x : list N) : Prop := x ≠ c ∧ (w c ≤ w x)%Z.

#[local] Instance heavier_dec x : Decision (heavier x).
Proof. unfold heavier. apply _. Defined.

#[local] Instance not_lighter_dec x : Decision (not_lighter x).
Proof. unfold not_lighter. apply _. Defined.

(** In a list sorted by weight, the rank of [c] lies between the number of
    heavier candidates and the number of candidates that are not lighter. *)
Lemma rank_bounds l r :
  StronglySorted (λ a b, (w b ≤ w a)%Z) l →
  rank_of c l = Some r →
  (length (filter heavier l) ≤ r ≤ length (filter not_lighter l))%nat.
Proof.
  intros Hs (pre & post & -> & Hpre & <-)%rank_of_split.
  apply StronglySorted_app in Hs as (Hcross & _ & Hpost).
  apply StronglySorted_inv in Hpost as [_ Hpost].
  rewrite !filter_app, !length_app. split.
  - rewrite (filter_none heavier (c :: post)).
    + simpl. pose proof (length_filter heavier pre). lia.
    + constructor; [unfold heavier; tauto|].
      eapply Forall_impl; [exact Hpost|]. unfold heavier. simpl. lia.
  - rewrite (filter_all not_lighter pre); [lia|].
    apply Forall_forall. intros x Hx. split; [by intros ->|].
    apply (Hcross x c); [done|by left].
Qed.
End RankFacts.

(** ** Boost monotonicity *)

Lemma weight_of_default (table : gmap (list N) Z) c :
  default 0%Z (table !! c) = weight_of table c.
Proof. unfold weight_of. by destruct (table !! c). Qed.

Lemma weight_of_insert_eq (table : gmap (list N) Z) c v :
  weight_of (<[c := v]> table) c = v.
Proof. unfold weight_of. by rewrite lookup_insert_eq. Qed.

Lemma weight_of_insert_ne (table : gmap (list N) Z) c x v :
  x ≠ c → weight_of (<[c := v]> table) x = weight_of table x.
Proof. intros Hx. unfold weight_of. by rewrite lookup_insert_ne. Qed.

Section BoostFacts.
Context `{StdSort}.

(** What [GetSmartSuggestions] makes of the base list, by the table found
    for the input key. *)
Definition suggest (found : option (gmap (list N) Z)) (base : list (list N))
    : list (list N) :=
  match found with
  | Some table => apply_preferences table base
  | None => base
  end.

(** The table of the input key after [AddUserPreference]. *)
Definition boosted (found : option (gmap (list N) Z)) (c : list N) (n : Z)
    : gmap (list N) Z :=
  let table := default ∅ found in
  <[c := wrap_int (default 0%Z (table !! c) + n)]> table.

(** An exact value in the range of [int] is the result. *)
Lemma wrap_int_small z : (- 2 ^ 31 ≤ z < 2 ^ 31)%Z → wrap_int z = z.
Proof. intros Hz. unfold wrap_int. rewrite Z.mod_small; lia. Qed.

Lemma AddUserPreference_table cm k c n :
  m_userPreferences (AddUserPreference cm k c n) !! k
    = Some (boosted (m_userPreferences cm !! k) c n).
Proof. unfold AddUserPreference, boosted. simpl. apply lookup_insert_eq. Qed.

Lemma rank_after_boost found base c n r0 :
  (0 < n)%Z →
  (- 2 ^ 31 ≤ weight_of (default ∅ found) c)%Z →
  (weight_of (default ∅ found) c + n < 2 ^ 31)%Z →
  rank_of c (suggest found base) = Some r0 →
  ∃ r1, rank_of c (suggest (Some (boosted found c n)) base) = Some r1 ∧
        (r1 ≤ r0)%nat.
Proof.
  intros Hn Hint Hsum Hr0. simpl.
  assert (c ∈ base) as Hc.
  { apply rank_of_is_elem in Hr0. destruct found as [table|]; simpl in Hr0; [|done].
    by rewrite apply_preferences_perm in Hr0. }
  destruct (rank_of_elem c (apply_preferences (boosted found c n) base)) as [r1 Hr1].
  { by rewrite apply_preferences_perm. }
  exists r1. split; [done|].
  pose proof (rank_bounds (weight_of (boosted found c n)) c _ r1
                (apply_preferences_sorted _ base) Hr1) as [_ Hup].
  rewrite (Permutation_length
             (filter_Permutation _ _ _ (apply_preferences_perm _ base))) in Hup.
  etrans; [exact Hup|].
  destruct found as [table|]; simpl in Hr0.
  - pose proof (rank_bounds (weight_of table) c _ r0
                  (apply_preferences_sorted _ base) Hr0) as [Hlow _].
    rewrite (Permutation_length
               (filter_Permutation _ _ _ (apply_preferences_perm _ base))) in Hlow.
    etrans; [|exact Hlow].
    apply filter_length_mono. intros x [Hx Hw]. split; [done|].
    unfold boosted in Hw. simpl in Hw, Hint, Hsum.
    rewrite weight_of_insert_eq, weight_of_insert_ne, weight_of_default in Hw by done.
    rewrite wrap_int_small in Hw by lia. lia.
  - rewrite filter_none; [simpl; lia|].
    apply Forall_forall. intros x _ [Hx Hw].
    unfold boosted in Hw. simpl in Hw, Hint, Hsum.
    rewrite weight_of_insert_eq, weight_of_insert_ne, weight_of_default in Hw by done.
    rewrite wrap_int_small in Hw by lia.
    unfold weight_of in Hw. rewrite !lookup_empty in Hw. simpl in Hw. lia.
Qed.

Lemma GetSmartSuggestions_suggest d cm k :
  (GetSmartSuggestions d cm k).1 =
    suggest (m_userPreferences cm !! k) (GetCandidates d cm k).1.
Proof. by rewrite GetSmartSuggestions_unfold. Qed.

Lemma GetCandidates_boosted d cm k k' c n :
  (GetCandidates d (AddUserPreference cm k' c n) k).1 = (GetCandidates d cm k).1.
Proof.
  unfold GetCandidates, AddUserPreference. simpl.
  by destruct (ParseContinuousPinyin d (m_parser cm) k).
Qed.

Lemma GetCandidates_again d cm k :
  (GetCandidates d (GetSmartSuggestions d cm k).2 k).1 = (GetCandidates d cm k).1.
Proof.
  rewrite GetSmartSuggestions_unfold. simpl. unfold GetCandidates.
  pose proof (ParseContinuousPinyin_stores d (m_parser cm) k) as Hstored.
  destruct (ParseContinuousPinyin d (m_parser cm) k) as [r p] eqn:Hp.
  simpl in *. by rewrite (ParseContinuousPinyin_cached d p k r Hstored).
Qed.

Lemma GetSmartSuggestions_prefs d cm k :
  m_userPreferences (GetSmartSuggestions d cm k).2 = m_userPreferences cm.
Proof.
  rewrite GetSmartSuggestions_unfold. simpl. unfold GetCandidates.
  by destruct (ParseContinuousPinyin d (m_parser cm) k).
Qed.
End BoostFacts.

(** A boost [n > 0] for candidate [c] under key [k] does not worsen the
    rank of [c] in [GetSmartSuggestions(k)], provided that the weight
    recorded for [c] under [k] (0 when there is none) is an [int] and the
    addition of [n] to it does not leave the range of [int]: with the same
    dictionary and the same manager otherwise, the position of [c] after
    the boost is at most its position before.  This holds both when the two
    queries start from the same manager state and when the boost follows
    the first query. *)
Theorem boost_monotone `{StdSort} (d : Dictionary) (cm : CandidateManager)
    (k c : wstring) (n : Z) (r0 : nat) :
  (0 < n)%Z →
  (- 2 ^ 31 ≤ weight_of (default ∅ (m_userPreferences cm !! k)) c)%Z →
  (weight_of (default ∅ (m_userPreferences cm !! k)) c + n < 2 ^ 31)%Z →
  rank_of c (GetSmartSuggestions d cm k).1 = Some r0 →
  (∃ r1, rank_of c (GetSmartSuggestions d (AddUserPreference cm k c n) k).1
           = Some r1 ∧ (r1 ≤ r0)%nat) ∧
  (∃ r1, let cm1 := (GetSmartSuggestions d cm k).2 in
         rank_of c (GetSmartSuggestions d (AddUserPreference cm1 k c n) k).1
           = Some r1 ∧ (r1 ≤ r0)%nat).
Proof.
  intros Hn Hlow Hhigh Hr0. rewrite GetSmartSuggestions_suggest in Hr0. split.
  - rewrite GetSmartSuggestions_suggest, AddUserPreference_table,
      GetCandidates_boosted.
    by apply rank_after_boost.
  - simpl.
    rewrite GetSmartSuggestions_suggest, AddUserPreference_table,
      GetCandidates_boosted, GetCandidates_again, GetSmartSuggestions_prefs.
    by apply rank_after_boost.
Qed.

(** A boost of 2 moves "y", behind "x" of the same weight, from rank 1 to
    a rank that is no worse. *)
Lemma boost_monotone_witness :
  let S := keep_ties_sort in
  (0 < 2)%Z ∧
  rank_of (wlit "y") (GetSmartSuggestions tie_dict tie_manager (wlit "a")).1
    = Some 1%nat ∧
  (∃ r1, rank_of (wlit "y")
           (GetSmartSuggestions tie_dict
              (AddUserPreference tie_manager (wlit "a") (wlit "y") 2) (wlit "a")).1
           = Some r1 ∧ (r1 ≤ 1)%nat) ∧
  (∃ r1, let cm1 := (GetSmartSuggestions tie_dict tie_manager (wlit "a")).2 in
         rank_of (wlit "y")
           (GetSmartSuggestions tie_dict
              (AddUserPreference cm1 (wlit "a") (wlit "y") 2) (wlit "a")).1
           = Some r1 ∧ (r1 ≤ 1)%nat).
Proof.
  intros S. split; [lia|]. split; [vm_compute; reflexivity|].
  apply (boost_monotone tie_dict tie_manager (wlit "a") (wlit "y") 2 1);
    [lia|vm_compute; discriminate|vm_compute; reflexivity|vm_compute; reflexivity].
Defined.

(** When the weights of the input are pairwise different, the contract of
    [std::sort] fixes the order by weight. *)
Lemma apply_preferences_determined `{StdSort} table cands :
  NoDup (weight_of table <$> cands) →
  apply_preferences table cands = @apply_preferences keep_ties_sort table cands.
Proof.
  intros Hnd. unfold apply_preferences. f_equal.
  apply std_sort_determined; [apply weight_gt_swo|].
  intros x y Hx Hy Hyx Hxy. unfold weight_gt in Hyx, Hxy.
  apply Z.ltb_ge in Hyx, Hxy.
  apply list_elem_of_In, in_map_iff in Hx as (cx & <- & Hx).
  apply list_elem_of_In, in_map_iff in Hy as (cy & <- & Hy).
  simpl in *. assert (weight_of table cx = weight_of table cy) as Heq by lia.
  clear Hyx Hxy. apply list_elem_of_In in Hx, Hy.
  enough (cx = cy) as -> by done.
  induction cands as [|a l IH]; [by apply elem_of_nil in Hx|].
  rewrite fmap_cons in Hnd. apply NoDup_cons in Hnd as [Ha Hnd].
  apply elem_of_cons in Hx as [->|Hx]; apply elem_of_cons in Hy as [->|Hy].
  - done.
  - destruct Ha. rewrite Heq. by apply list_elem_of_fmap_2.
  - destruct Ha. rewrite <-Heq. by apply list_elem_of_fmap_2.
  - by apply IH.
Qed.

(** C7.  The boost that makes the weight overflow worsens the rank.  With
    the weight 2147483647 recorded for "x", "x" is the first of the two
    suggestions for "a"; a boost of 1 makes the recorded weight
    -2147483648, and "x" falls behind "y", whose weight is 0.  This is so
    for every [std::sort], the weights being different. *)
Theorem boost_overflow_worsens_rank `{StdSort} :
  let cm := AddUserPreference (CandidateManager_new PinyinParser_new)
              (wlit "a") (wlit "x") 2147483647 in
  let boosted_cm := AddUserPreference cm (wlit "a") (wlit "x") 1 in
  weight_of (default ∅ (m_userPreferences cm !! wlit "a")) (wlit "x")
    = 2147483647%Z ∧
  weight_of (default ∅ (m_userPreferences boosted_cm !! wlit "a")) (wlit "x")
    = (-2147483648)%Z ∧
  (GetSmartSuggestions tie_dict cm (wlit "a")).1 = [wlit "x"; wlit "y"] ∧
  rank_of (wlit "x") (GetSmartSuggestions tie_dict cm (wlit "a")).1 = Some 0%nat ∧
  (GetSmartSuggestions tie_dict boosted_cm (wlit "a")).1 = [wlit "y"; wlit "x"] ∧
  rank_of (wlit "x") (GetSmartSuggestions tie_dict boosted_cm (wlit "a")).1
    = Some 1%nat.
Proof.
  intros cm boosted_cm.
  assert (∀ cm', m_parser cm' = PinyinParser_new →
            (GetCandidates tie_dict cm' (wlit "a")).1 = [wlit "x"; wlit "y"])
    as Hbase.
  { intros cm' Hparser. unfold GetCandidates. rewrite Hparser.
    rewrite ParseContinuousPinyin_fresh by apply lookup_empty. cbn [fst candidates].
    rewrite GenerateCandidates_determined
      by (apply (bool_decide_unpack _); vm_compute; exact I).
    vm_compute. reflexivity. }
  assert ((GetSmartSuggestions tie_dict cm (wlit "a")).1 = [wlit "x"; wlit "y"])
    as Hbefore.
  { rewrite GetSmartSuggestions_suggest, Hbase by reflexivity.
    unfold cm. rewrite AddUserPreference_table. cbn [suggest].
    rewrite apply_preferences_determined
      by (apply (bool_decide_unpack _); vm_compute; exact I).
    vm_compute. reflexivity. }
  assert ((GetSmartSuggestions tie_dict boosted_cm (wlit "a")).1
            = [wlit "y"; wlit "x"]) as Hafter.
  { rewrite GetSmartSuggestions_suggest, Hbase by reflexivity.
    unfold boosted_cm. rewrite AddUserPreference_table. cbn [suggest].
    rewrite apply_preferences_determined
      by (apply (bool_decide_unpack _); vm_compute; exact I).
    vm_compute. reflexivity. }
  rewrite Hbefore, Hafter.
  split_and!; [vm_compute; reflexivity|vm_compute; reflexivity|done|
               vm_compute; reflexivity|done|vm_compute; reflexivity].
Qed.

(** ** The charset converter *)

(** C9.  [Convert] returns the text unchanged for every pair of charset
    names other than exactly ("Simplified", "Traditional") and
    ("Traditional", "Simplified"), and in every case returns a string of
    the length of the text. *)
Theorem convert_identity_length (cv : CharsetConverter) (text from to : wstring) :
  ((from, to) ≠ (wlit "Simplified", wlit "Traditional") →
   (from, to) ≠ (wlit "Traditional", wlit "Simplified") →
   Convert cv text from to = text) ∧
  length (Convert cv text from to) = length text.
Proof.
  unfold Convert. split.
  - intros Hst Hts. case_bool_decide as Hft; [done|].
    repeat case_bool_decide; subst; simpl; congruence.
  - repeat case_bool_decide; simpl; by rewrite ?length_map.
Qed.

(** A charset name in lower case is not recognised: the text comes back. *)
Lemma convert_identity_length_witness :
  Convert InitializeMaps (wlit "AB") (wlit "simplified") (wlit "Traditional")
    = wlit "AB" ∧
  length (Convert InitializeMaps (wlit "AB") (wlit "simplified") (wlit "Traditional"))
    = length (wlit "AB").
Proof.
  destruct (convert_identity_length InitializeMaps (wlit "AB")
              (wlit "simplified") (wlit "Traditional")) as [Hid Hlen].
  split; [apply Hid; vm_compute; discriminate|exact Hlen].
Defined.

(** ** Selection state of the candidate manager *)

Lemma static_cast_int_small (n : nat) :
  (Z.of_nat n < 2 ^ 31)%Z → static_cast_int n = Z.of_nat n.
Proof.
  intros Hn. unfold static_cast_int.
  rewrite Z.mod_small; lia.
Qed.

(** C10.  In every state of the manager, reachable or not,
    [HasValidSelection] is true exactly when the stored selection is a
    non-empty string.  A [SelectCandidate] that fails leaves the manager
    unchanged; one that succeeds stores the candidate at the index, so that
    [HasValidSelection] is false afterwards when that candidate is the
    empty string; an index within a list of fewer than 2^31 candidates
    succeeds.  [ClearSelection] and [Reset] make [HasValidSelection]
    false. *)
Theorem selection_validity (cm : CandidateManager) :
  (HasValidSelection cm = true ↔ m_selectedCandidate cm ≠ []) ∧
  (∀ index cands cm',
     SelectCandidate cm index cands = (false, cm') → cm' = cm) ∧
  (∀ index cands cm',
     SelectCandidate cm index cands = (true, cm') →
     cands !! Z.to_nat index = Some (m_selectedCandidate cm') ∧
     (cands !! Z.to_nat index = Some [] → HasValidSelection cm' = false)) ∧
  (∀ index cands,
     (0 ≤ index < Z.of_nat (length cands))%Z →
     (Z.of_nat (length cands) < 2 ^ 31)%Z →
     (SelectCandidate cm index cands).1 = true) ∧
  (∀ index cands,
     (index < 0 ∨ Z.of_nat (length cands) ≤ index)%Z →
     (Z.of_nat (length cands) < 2 ^ 31)%Z →
     SelectCandidate cm index cands = (false, cm)) ∧
  HasValidSelection (ClearSelection cm) = false ∧
  HasValidSelection (Reset cm) = false.
Proof.
  split_and!.
  - unfold HasValidSelection. by destruct (m_selectedCandidate cm).
  - intros index cands cm'. unfold SelectCandidate. case_match; congruence.
  - intros index cands cm'. unfold SelectCandidate.
    case_match eqn:Hrange; [congruence|]. intros [= <-].
    apply orb_false_iff in Hrange as [Hlo Hhi].
    apply Z.ltb_ge in Hlo. apply Z.leb_gt in Hhi.
    assert (Z.to_nat index < length cands)%nat as Hlt.
    { unfold static_cast_int in Hhi.
      pose proof (Z.mod_pos_bound (Z.of_nat (length cands) + 2 ^ 31) (2 ^ 32)
                    ltac:(lia)) as Hbound.
      pose proof (Z.mod_le (Z.of_nat (length cands) + 2 ^ 31) (2 ^ 32)
                    ltac:(lia) ltac:(lia)).
      lia. }
    apply lookup_lt_is_Some_2 in Hlt as [x Hx]. simpl. rewrite Hx. simpl.
    split; [done|]. intros [= ->]. reflexivity.
  - intros index cands Hidx Hsmall. unfold SelectCandidate.
    rewrite static_cast_int_small by done.
    case_match eqn:Hrange; [|done].
    apply orb_true_iff in Hrange as [Hlo%Z.ltb_lt|Hhi%Z.leb_le]; lia.
  - intros index cands Hidx Hsmall. unfold SelectCandidate.
    rewrite static_cast_int_small by done.
    case_match eqn:Hrange; [done|].
    apply orb_false_iff in Hrange as [Hlo%Z.ltb_ge Hhi%Z.leb_gt]. lia.
  - reflexivity.
  - reflexivity.
Qed.

(** Selecting an empty candidate succeeds and leaves no valid selection;
    an index past the end fails. *)
Lemma selection_validity_witness :
  let cm := CandidateManager_new PinyinParser_new in
  let cm' := (SelectCandidate cm 1 [wlit "x"; []]).2 in
  SelectCandidate cm 1 [wlit "x"; []] = (true, cm') ∧
  HasValidSelection cm' = false ∧
  SelectCandidate cm 2 [wlit "x"; []] = (false, cm).
Proof.
  intros cm cm'.
  destruct (selection_validity cm) as (_ & _ & Hok & _ & Hfail & _).
  split_and!.
  - reflexivity.
  - apply (Hok 1%Z [wlit "x"; []] cm'); reflexivity.
  - apply Hfail; [right; simpl; lia|simpl; lia].
Defined.

(** ** Numbers of the dictionary format *)

(** The value of a decimal literal, digit by digit from the left. *)
Definition decimal_value_from (v : N) (digits : wstring) : N :=
  fold_left (λ v ch, v * 10 + (ch - 48)) digits v.

Definition decimal_value (digits : wstring) : N := decimal_value_from 0 digits.

(** The next character, if any, does not continue the number. *)
Definition ends_number (rest : wstring) : Prop :=
  match rest with
  | ch :: _ => iswdigit ch = false
  | [] => True
  end.

Lemma iswdigit_range ch : iswdigit ch = true ↔ 48 ≤ ch ≤ 57.
Proof. unfold iswdigit. rewrite andb_true_iff, !N.leb_le. done. Qed.

Lemma iswdigit_not_space ch : iswdigit ch = true → iswspace ch = false.
Proof.
  intros Hd%iswdigit_range. unfold iswspace.
  apply orb_false_iff. split.
  - apply N.eqb_neq. lia.
  - apply andb_false_iff. right. apply N.leb_gt. lia.
Qed.

Lemma SkipWs_spaces ws s :
  Forall (λ ch, iswspace ch = true) ws → SkipWs (ws ++ s) = SkipWs s.
Proof. induction 1 as [|ch ws Hch _ IH]; simpl; [done|]. by rewrite Hch. Qed.

Lemma SkipWs_non_space ch s : iswspace ch = false → SkipWs (ch :: s) = ch :: s.
Proof. simpl. by intros ->. Qed.

(** The accumulator of the digit loop is the value read so far, clamped. *)
Lemma digits_loop_value digits rest v :
  Forall (λ ch, iswdigit ch = true) digits →
  ends_number rest →
  digits_loop (N.min v 0xFFFFFFFF) (digits ++ rest) =
    (N.min (decimal_value_from v digits) 0xFFFFFFFF, rest).
Proof.
  intros Hdigits Hrest. revert v.
  induction Hdigits as [|ch digits Hch _ IH]; intros v; simpl.
  - destruct rest as [|ch rest]; [done|]. simpl in *. by rewrite Hrest.
  - rewrite Hch. apply iswdigit_range in Hch.
    rewrite <-(IH (v * 10 + (ch - 48))). f_equal.
    rewrite N.mod_small by (change (2 ^ 64) with 18446744073709551616; lia).
    case_match eqn:Hcmp; [apply N.ltb_lt in Hcmp|apply N.ltb_ge in Hcmp]; lia.
Qed.

(** C8.  [ParseUnsigned] skips white space and reads the digits that
    follow.  A literal whose value exceeds 2^32 - 1 yields 2^32 - 1 and is
    no error; a literal within the range yields its value; the cursor ends
    after the last digit.  When the first character after the white space is
    no digit, or there is none, the parse fails. *)
Theorem parse_unsigned_clamps (ws digits rest : wstring) :
  Forall (λ ch, iswspace ch = true) ws →
  Forall (λ ch, iswdigit ch = true) digits →
  digits ≠ [] →
  ends_number rest →
  ParseUnsigned (ws ++ digits ++ rest) =
    ok (if decimal_value digits <=? 4294967295
        then decimal_value digits else 4294967295, rest) ∧
  (∀ s, ends_number (SkipWs s) → ParseUnsigned s = fail).
Proof.
  intros Hws Hdigits Hne Hrest. split.
  - unfold ParseUnsigned. rewrite SkipWs_spaces by done.
    destruct digits as [|ch digits]; [done|].
    pose proof (Forall_inv Hdigits) as Hch. simpl in Hch.
    rewrite <-app_comm_cons, SkipWs_non_space by by apply iswdigit_not_space.
    rewrite Hch, app_comm_cons.
    change 0 with (N.min 0 0xFFFFFFFF) at 1.
    rewrite digits_loop_value by done.
    fold (decimal_value (ch :: digits)). f_equal. f_equal.
    case_match eqn:Hcmp; [apply N.leb_le in Hcmp|apply N.leb_gt in Hcmp].
    + rewrite N.min_l by done. apply N.mod_small.
      change (2 ^ 32) with 4294967296. lia.
    + rewrite N.min_r by lia. reflexivity.
  - intros s Hs. unfold ParseUnsigned.
    destruct (SkipWs s) as [|ch s']; [done|]. simpl in Hs. by rewrite Hs.
Qed.

(** 2^32 is clamped, 2^32 - 1 is exact, and a sign is no number. *)
Lemma parse_unsigned_clamps_witness :
  ParseUnsigned (wlit "  4294967296,") = ok (4294967295, wlit ",") ∧
  ParseUnsigned (wlit "  4294967295,") = ok (4294967295, wlit ",") ∧
  ParseUnsigned (wlit " -1") = fail.
Proof.
  split_and!.
  - apply (parse_unsigned_clamps (wlit "  ") (wlit "4294967296") (wlit ","));
      [repeat constructor..|discriminate|reflexivity].
  - apply (parse_unsigned_clamps (wlit "  ") (wlit "4294967295") (wlit ","));
      [repeat constructor..|discriminate|reflexivity].
  - apply (parse_unsigned_clamps [] (wlit "0") []);
      [repeat constructor..|discriminate|exact I|reflexivity].
Defined.

(** ** The loader always returns *)

(** A helper that returns [ok] has moved the cursor forward, and the
    helper has not run out of its counter. *)
Definition advances (r : res (list N)) (s : wstring) : Prop :=
  match r with
  | ok s' => (length s' < length s)%nat
  | fail => True
  | nofuel => False
  end.

Definition advances_with {A} (r : res (A * list N)) (s : wstring) : Prop :=
  advances (snd <$> r) s.

(** Case analysis on the result of a helper, given its progress lemma; the
    cases [fail] and [nofuel] are closed where the goal allows it. *)
Ltac by_progress lem :=
  let Hadv := fresh "Hadv" in
  pose proof lem as Hadv; unfold advances_with in Hadv;
  match type of Hadv with
  | advances (snd <$> ?r) _ => destruct r as [[? ?]| |]
  | advances ?r _ => destruct r as [?| |]
  end; simpl in *; try done.

Lemma SkipWs_length s : (length (SkipWs s) ≤ length s)%nat.
Proof.
  induction s as [|ch s IH]; simpl; [done|]. destruct (iswspace ch); simpl; lia.
Qed.

Lemma Consume_advances s ch : advances (Consume s ch) s.
Proof.
  unfold Consume. pose proof (SkipWs_length s) as Hs.
  destruct (SkipWs s) as [|c s']; simpl in *; [done|].
  destruct (c =? ch); simpl; [lia|done].
Qed.

Lemma string_body_advances s result : advances_with (string_body s result) s.
Proof.
  unfold advances_with. revert result.
  induction s as [s IH] using (induction_ltof1 _ (@length N)). unfold ltof in IH.
  intros result. destruct s as [|ch s1]; simpl; [done|].
  destruct (ch =? 34); simpl; [lia|].
  destruct (ch =? 92).
  - destruct s1 as [|esc s2]; simpl; [done|].
    repeat (case_match;
            [match goal with
             | |- context [string_body ?t ?r] =>
                 specialize (IH t ltac:(simpl; lia) r);
                 destruct (string_body t r); simpl in *; first [lia|done]
             end|]).
    case_match.
    + destruct s2 as [|h1 [|h2 [|h3 [|h4 s3]]]]; simpl; try done.
      destruct (hex4 h1 h2 h3 h4) as [code|]; simpl; [|done].
      specialize (IH s3 ltac:(simpl; lia) (result ++ [to_wchar code])).
      destruct (string_body s3 _); simpl in *; first [lia|done].
    + specialize (IH s2 ltac:(simpl; lia) (result ++ [esc])).
      destruct (string_body s2 _); simpl in *; first [lia|done].
  - specialize (IH s1 ltac:(simpl; lia) (result ++ [ch])).
    destruct (string_body s1 _); simpl in *; first [lia|done].
Qed.

Lemma ParseString_advances s : advances_with (ParseString s) s.
Proof.
  unfold ParseString. pose proof (SkipWs_length s) as Hs.
  destruct (SkipWs s) as [|c s']; simpl in *; [done|].
  destruct (c =? 34); [|done]. unfold advances_with.
  by_progress (string_body_advances s' []); lia.
Qed.

Lemma digits_loop_length v s : (length (digits_loop v s).2 ≤ length s)%nat.
Proof.
  revert v. induction s as [|ch s IH]; intros v; simpl; [done|].
  destruct (iswdigit ch); simpl; [|done]. etrans; [apply IH|lia].
Qed.

Lemma ParseUnsigned_advances s : advances_with (ParseUnsigned s) (0 :: s).
Proof.
  unfold ParseUnsigned, advances_with. pose proof (SkipWs_length s) as Hs.
  destruct (SkipWs s) as [|ch s']; [done|].
  destruct (iswdigit ch); [|done].
  pose proof (digits_loop_length 0 (ch :: s')) as Hd.
  destruct (digits_loop 0 (ch :: s')) as [v rest]. simpl in *. lia.
Qed.

Lemma scalar_end_length s : (length (scalar_end s) ≤ length s)%nat.
Proof.
  induction s as [|ch s IH]; simpl; [done|]. case_match; simpl; lia.
Qed.

Lemma skip_comma_length s : (length (skip_comma s) ≤ length s)%nat.
Proof.
  unfold skip_comma. pose proof (SkipWs_length s) as Hs.
  destruct (SkipWs s) as [|c s']; simpl in *; [lia|].
  destruct (c =? 44); simpl; lia.
Qed.

Lemma skip_value_advances fuel :
  (∀ s, (2 * length s < fuel)%nat → advances (SkipValue fuel s) s) ∧
  (∀ s, (2 * length s + 1 < fuel)%nat → advances (skip_object_loop fuel s) (0 :: s)) ∧
  (∀ s, (2 * length s + 1 < fuel)%nat → advances (skip_array_loop fuel s) (0 :: s)).
Proof.
  induction fuel as [|fuel (IHv & IHo & IHa)]; [split_and!; intros; lia|].
  split_and!; intros s Hlen; simpl.
  - pose proof (SkipWs_length s) as Hs.
    destruct (SkipWs s) as [|c s'] eqn:Hskip; [done|].
    repeat case_match.
    + pose proof (ParseString_advances (c :: s')) as Hp. unfold advances_with in Hp.
      destruct (ParseString (c :: s')) as [[]| |]; simpl in *; first [lia|done].
    + pose proof (Consume_advances (c :: s') 123) as Hc.
      destruct (Consume (c :: s') 123) as [s1| |]; simpl in *; [|done..].
      specialize (IHo s1 ltac:(lia)).
      destruct (skip_object_loop fuel s1); simpl in *; first [lia|done].
    + pose proof (Consume_advances (c :: s') 91) as Hc.
      destruct (Consume (c :: s') 91) as [s1| |]; simpl in *; [|done..].
      specialize (IHa s1 ltac:(lia)).
      destruct (skip_array_loop fuel s1); simpl in *; first [lia|done].
    + match goal with H : (_ <? _)%nat = true |- _ => apply Nat.ltb_lt in H end.
      simpl in *. lia.
    + match goal with H : (_ <? _)%nat = true |- _ => apply Nat.ltb_lt in H end.
      simpl in *. lia.
    + done.
    + done.
  - destruct s as [|c0 s0] eqn:Es; [done|]. rewrite <-Es in *. clear Es.
    pose proof (SkipWs_length s) as Hs.
    destruct (SkipWs s) as [|c s'] eqn:Hskip; [done|].
    case_match; [simpl in *; lia|].
    pose proof (ParseString_advances (c :: s')) as Hp. unfold advances_with in Hp.
    destruct (ParseString (c :: s')) as [[key s1]| |]; simpl in *; [|done..].
    pose proof (Consume_advances s1 58) as Hc.
    destruct (Consume s1 58) as [s2| |]; simpl in *; [|done..].
    specialize (IHv s2 ltac:(lia)).
    destruct (SkipValue fuel s2) as [s3| |]; simpl in *; [|done..].
    pose proof (skip_comma_length s3).
    specialize (IHo (skip_comma s3) ltac:(lia)).
    destruct (skip_object_loop fuel (skip_comma s3)); simpl in *; first [lia|done].
  - destruct s as [|c0 s0] eqn:Es; [done|]. rewrite <-Es in *. clear Es.
    pose proof (SkipWs_length s) as Hs.
    destruct (SkipWs s) as [|c s'] eqn:Hskip; [done|].
    case_match; [simpl in *; lia|].
    specialize (IHv (c :: s') ltac:(simpl in *; lia)).
    destruct (SkipValue fuel (c :: s')) as [s1| |]; simpl in *; [|done..].
    pose proof (skip_comma_length s1).
    specialize (IHa (skip_comma s1) ltac:(lia)).
    destruct (skip_array_loop fuel (skip_comma s1)); simpl in *; first [lia|done].
Qed.

Lemma tags_loop_advances fuel s tags :
  (2 * length s + 1 < fuel)%nat → advances_with (tags_loop fuel s tags) (0 :: s).
Proof.
  unfold advances_with. revert s tags.
  induction fuel as [|fuel IH]; intros s tags Hlen; [lia|]. simpl.
  destruct s as [|c0 s0] eqn:Es; [done|]. rewrite <-Es in *. clear Es.
  pose proof (SkipWs_length s) as Hs.
  destruct (SkipWs s) as [|c s'] eqn:Hskip; [done|].
  case_match; [simpl in *; lia|].
  pose proof (ParseString_advances (c :: s')) as Hp. unfold advances_with in Hp.
  destruct (ParseString (c :: s')) as [[tag s1]| |]; simpl in *; [|done..].
  pose proof (skip_comma_length s1).
  specialize (IH (skip_comma s1) (tags ++ [tag]) ltac:(lia)).
  destruct (tags_loop fuel (skip_comma s1) (tags ++ [tag])) as [[]| |];
    simpl in *; first [lia|done].
Qed.

Lemma ParseTags_advances fuel s :
  (2 * length s < fuel)%nat → advances_with (ParseTags fuel s) s.
Proof.
  intros Hlen. unfold ParseTags, advances_with.
  pose proof (Consume_advances s 91) as Hc.
  destruct (Consume s 91) as [s1| |]; simpl in *; [|done..].
  pose proof (tags_loop_advances fuel s1 [] ltac:(lia)) as Ht.
  unfold advances_with in Ht.
  destruct (tags_loop fuel s1 []) as [[]| |]; simpl in *; first [lia|done].
Qed.

Lemma entry_field_advances fuel key s entry :
  (2 * length s < fuel)%nat →
  advances_with (entry_field fuel key s entry) (0 :: s).
Proof.
  intros Hlen. unfold entry_field, advances_with.
  repeat case_bool_decide.
  - by_progress (ParseString_advances s); lia.
  - by_progress (ParseUnsigned_advances s); lia.
  - by_progress (ParseString_advances s); lia.
  - by_progress (ParseTags_advances fuel s Hlen); lia.
  - by_progress (proj1 (skip_value_advances fuel) s Hlen); lia.
Qed.

Lemma entry_loop_advances fuel s entry :
  (2 * length s + 1 < fuel)%nat →
  advances_with (entry_loop fuel s entry) (0 :: s).
Proof.
  unfold advances_with. revert s entry.
  induction fuel as [|fuel IH]; intros s entry Hlen; [lia|]. simpl.
  destruct s as [|c0 s0] eqn:Es; [done|]. rewrite <-Es in *. clear Es.
  pose proof (SkipWs_length s) as Hs.
  destruct (SkipWs s) as [|c s'] eqn:Hskip; [done|].
  case_match; [simpl in *; lia|].
  pose proof (ParseString_advances (c :: s')) as Hp. unfold advances_with in Hp.
  destruct (ParseString (c :: s')) as [[key s1]| |]; simpl in *; [|done..].
  pose proof (Consume_advances s1 58) as Hc.
  destruct (Consume s1 58) as [s2| |]; simpl in *; [|done..].
  pose proof (entry_field_advances fuel key s2 entry ltac:(lia)) as Hf.
  unfold advances_with in Hf.
  destruct (entry_field fuel key s2 entry) as [[entry' s3]| |]; simpl in *; [|done..].
  pose proof (skip_comma_length s3).
  specialize (IH (skip_comma s3) entry' ltac:(lia)).
  destruct (entry_loop fuel (skip_comma s3) entry') as [[]| |];
    simpl in *; first [lia|done].
Qed.

Lemma ParseEntryObject_advances fuel s :
  (2 * length s < fuel)%nat → advances_with (ParseEntryObject fuel s) s.
Proof.
  intros Hlen. unfold ParseEntryObject, advances_with.
  pose proof (Consume_advances s 123) as Hc.
  destruct (Consume s 123) as [s1| |]; simpl in *; [|done..].
  pose proof (entry_loop_advances fuel s1 (mkDictEntry [] 0 [] []) ltac:(lia)) as Ht.
  unfold advances_with in Ht.
  destruct (entry_loop fuel s1 _) as [[]| |]; simpl in *; first [lia|done].
Qed.

Lemma entries_loop_advances fuel s pronKey m :
  (2 * length s + 1 < fuel)%nat →
  advances (entries_loop fuel s pronKey m).2 (0 :: s).
Proof.
  revert s m. induction fuel as [|fuel IH]; intros s m Hlen; [lia|]. simpl.
  destruct s as [|c0 s0] eqn:Es; [simpl; lia|]. rewrite <-Es in *. clear Es.
  pose proof (ParseEntryObject_advances fuel s ltac:(lia)) as Hp.
  unfold advances_with in Hp.
  destruct (ParseEntryObject fuel s) as [[entry s1]| |]; simpl in *; [|done..].
  pose proof (SkipWs_length s1) as Hs.
  destruct (SkipWs s1) as [|c s2]; simpl in *; [lia|].
  destruct (c =? 44); [|simpl; lia].
  specialize (IH s2 (store_entry pronKey entry m) ltac:(lia)).
  destruct (entries_loop fuel s2 pronKey _) as [m' [s3| |]]; simpl in *;
    first [lia|done].
Qed.

Lemma key_header_advances s : advances_with (key_header s) s.
Proof.
  unfold key_header, advances_with.
  pose proof (ParseString_advances s) as Hp. unfold advances_with in Hp.
  destruct (ParseString s) as [[key s1]| |]; simpl in *; [|done..].
  pose proof (Consume_advances s1 58) as Hc.
  destruct (Consume s1 58) as [s2| |]; simpl in *; [|done..].
  pose proof (Consume_advances s2 91) as Hc'.
  destruct (Consume s2 91) as [s3| |]; simpl in *; [lia|done..].
Qed.

Lemma keys_loop_returns fuel s m :
  (2 * length s + 1 < fuel)%nat → (keys_loop fuel s m).2 ≠ nofuel.
Proof.
  revert s m. induction fuel as [|fuel IH]; intros s m Hlen; [lia|]. simpl.
  destruct s as [|c0 s0] eqn:Es; [done|]. rewrite <-Es in *. clear Es.
  pose proof (SkipWs_length s) as Hs.
  destruct (SkipWs s) as [|c s'] eqn:Hskip; [done|].
  case_match; [done|].
  pose proof (key_header_advances (c :: s')) as Hk. unfold advances_with in Hk.
  destruct (key_header (c :: s')) as [[pronKey s3]| |]; simpl in *; [|done..].
  pose proof (SkipWs_length s3) as Hs3.
  assert (∃ m' r, (match SkipWs s3 with
                   | [] => (m, ok (SkipWs s3))
                   | c4 :: _ =>
                       if negb (c4 =? 93)
                       then entries_loop fuel (SkipWs s3) pronKey m
                       else (m, ok (SkipWs s3))
                   end) = (m', r) ∧ advances r (0 :: SkipWs s3))
    as (m' & r & -> & Hr).
  { destruct (SkipWs s3) as [|c4 s4] eqn:E4; [eexists _, _; split; [done|simpl; lia]|].
    destruct (negb (c4 =? 93)); [|eexists _, _; split; [done|simpl; lia]].
    pose proof (entries_loop_advances fuel (c4 :: s4) pronKey m
                  ltac:(simpl in *; lia)) as He.
    destruct (entries_loop fuel (c4 :: s4) pronKey m) as [m' r]. by eexists _, _. }
  destruct r as [s5| |]; simpl in *; [|done..].
  pose proof (Consume_advances s5 93) as Hc.
  destruct (Consume s5 93) as [s6| |]; simpl in *; [|done..].
  pose proof (skip_comma_length s6).
  apply IH. lia.
Qed.

Lemma find_sub_length pat s s' :
  find_sub pat s = Some s' → (length s' ≤ length s)%nat.
Proof.
  induction s as [|c s IH]; simpl; case_bool_decide; intros Hf; simplify_eq;
    simpl; [lia..|].
  specialize (IH Hf). lia.
Qed.

Lemma find_char_length ch s s' :
  find_char ch s = Some s' → (length s' ≤ length s)%nat.
Proof.
  induction s as [|c s IH]; simpl; [done|].
  destruct (c =? ch); intros Hf; simplify_eq; simpl; [lia|].
  specialize (IH Hf). lia.
Qed.

Lemma load_content_returns content :
  (load_content (2 * length content + 2) content).2 ≠ nofuel.
Proof.
  unfold load_content.
  destruct (find_sub _ content) as [s|] eqn:Hs; [|done].
  apply find_sub_length in Hs.
  destruct (find_char 58 s) as [s1|] eqn:Hs1; [|done].
  apply find_char_length in Hs1.
  pose proof (Consume_advances (tail s1) 123) as Hc.
  destruct (Consume (tail s1) 123) as [s2| |]; simpl in *; [|done..].
  apply keys_loop_returns.
  destruct s1; simpl in *; lia.
Qed.

(** [LoadFromFile] returns on every file system, dictionary and path. *)
Lemma LoadFromFile_total fs now d filePath :
  is_Some (LoadFromFile fs now d filePath).
Proof.
  unfold LoadFromFile. destruct (fs filePath) as [content|]; [|by eexists].
  pose proof (load_content_returns content) as Hr.
  destruct (load_content _ content) as [m [s| |]]; simpl in *; [by eexists..|done].
Qed.

(** ** Failure of a load *)

(** The result of [LoadFromFile] does not depend on the entries the
    dictionary held before the call. *)
Lemma LoadFromFile_discards fs now d1 d2 filePath b d1' :
  LoadFromFile fs now d1 filePath = Some (b, d1') →
  ∃ d2', LoadFromFile fs now d2 filePath = Some (b, d2') ∧
         m_entries d2' = m_entries d1'.
Proof.
  unfold LoadFromFile. destruct (fs filePath) as [content|].
  - destruct (load_content _ content) as [m [s| |]]; intros [= <- <-];
      by eexists.
  - intros [= <- <-]. by eexists.
Qed.

Lemma entry_count_empty d : m_entries d = ∅ → entry_count d = 0%nat.
Proof. unfold entry_count. intros ->. apply map_fold_empty. Qed.



(** The content of a dictionary file cut off inside its second key. *)
Definition truncated_file : wstring :=
  List.map (λ ch, if ch =? 39 then 34 else ch)
    (wlit "{'entries': {'a': [{'word': 'x', 'frequency': 7}], 'b").


(** * Further properties *)

(** ** The dictionary store as a multimap *)

Lemma entry_count_insert_fresh (m : gmap (list N) (list DictEntry)) k entries mv mc mu :
  m !! k = None →
  entry_count (mkDictionary (<[k := entries]> m) mv mc mu) =
    (length entries + entry_count (mkDictionary m mv mc mu))%nat.
Proof.
  intros Hk. unfold entry_count. simpl.
  rewrite map_fold_insert_L; [done| |done]. intros. lia.
Qed.

(** [AddEntry] appends to the sequence of its key and touches no other key;
    it does not look for an equal entry, and the store grows by one entry
    each time. *)
Theorem AddEntry_appends (d : Dictionary) (pron : wstring) (entry : DictEntry) :
  Lookup (AddEntry d pron entry) pron = Lookup d pron ++ [entry] ∧
  (∀ other, other ≠ pron → Lookup (AddEntry d pron entry) other = Lookup d other) ∧
  Lookup (AddEntry (AddEntry d pron entry) pron entry) pron
    = Lookup d pron ++ [entry; entry] ∧
  entry_count (AddEntry d pron entry) = S (entry_count d).
Proof.
  assert (∀ d', Lookup (AddEntry d' pron entry) pron = Lookup d' pron ++ [entry])
    as Happ.
  { intros d'. unfold Lookup, AddEntry, push_entry. simpl.
    rewrite lookup_insert_eq. by destruct (m_entries d' !! pron). }
  split_and!.
  - apply Happ.
  - intros other Hne. unfold Lookup, AddEntry, push_entry. simpl.
    by rewrite lookup_insert_ne.
  - rewrite !Happ, <-app_assoc. reflexivity.
  - destruct d as [m mv mc mu]. unfold AddEntry, push_entry. simpl.
    destruct (m !! pron) as [old|] eqn:Hold; simpl.
    + rewrite <-(insert_delete_eq m).
      rewrite entry_count_insert_fresh by apply lookup_delete_eq.
      rewrite <-(insert_delete_id m pron old) at 2 by done.
      rewrite entry_count_insert_fresh by apply lookup_delete_eq.
      rewrite length_app. simpl. lia.
    + by rewrite entry_count_insert_fresh.
Qed.

(** ** Single syllables *)

(** [ParseSinglePinyin] returns the entries of the key, rearranged so that
    frequencies never increase; a key without entries gives the empty
    sequence. *)
Theorem ParseSinglePinyin_sorted `{StdSort} (d : Dictionary) (pinyin : wstring) :
  ParseSinglePinyin d pinyin ≡ₚ Lookup d pinyin ∧
  (∀ i j a b, (i < j)%nat →
     ParseSinglePinyin d pinyin !! i = Some a →
     ParseSinglePinyin d pinyin !! j = Some b →
     frequency b ≤ frequency a) ∧
  (m_entries d !! pinyin = None → ParseSinglePinyin d pinyin = []).
Proof.
  unfold ParseSinglePinyin. split_and!.
  - apply std_sort_perm, freq_gt_swo.
  - intros i j a b Hij Hi Hj.
    pose proof (std_sort_sorted freq_gt (Lookup d pinyin) freq_gt_swo) as Hs.
    pose proof (StronglySorted_lookup _ _ i j a b Hs Hij Hi Hj) as Hab.
    simpl in Hab. unfold freq_gt in Hab. apply N.ltb_ge in Hab. exact Hab.
  - intros Hnone. apply Permutation_nil_r.
    rewrite (std_sort_perm freq_gt _ freq_gt_swo).
    unfold Lookup. by rewrite Hnone.
Qed.

(** ** Where candidates come from *)

(** The candidates a split point can give. *)
Definition from_split (d : Dictionary) (s : wstring) (e : DictEntry) : Prop :=
  ∃ i leftEntry rightEntry,
    (1 ≤ i < length s)%nat ∧
    leftEntry ∈ Lookup d (take i s) ∧
    rightEntry ∈ Lookup d (drop i s) ∧
    e = combine_entries leftEntry rightEntry.

Lemma split_candidates_inv d s i e :
  e ∈ split_candidates d s i →
  ∃ leftEntry rightEntry,
    leftEntry ∈ Lookup d (take i s) ∧ rightEntry ∈ Lookup d (drop i s) ∧
    e = combine_entries leftEntry rightEntry.
Proof.
  unfold split_candidates.
  destruct (Lookup d (take i s)) as [|l0 ls] eqn:El; [by intros ?%elem_of_nil|].
  destruct (Lookup d (drop i s)) as [|r0 rs] eqn:Er; [by intros ?%elem_of_nil|].
  intros (leftEntry & Hl & He)%list_elem_of_In%in_flat_map.
  apply in_map_iff in He as (rightEntry & <- & Hr).
  exists leftEntry, rightEntry. by rewrite <-!list_elem_of_In in *.
Qed.

Lemma collect_candidates_inv d s e :
  e ∈ collect_candidates d s →
  (Lookup d s ≠ [] ∧ e ∈ Lookup d s) ∨ (Lookup d s = [] ∧ from_split d s e).
Proof.
  unfold collect_candidates.
  destruct (Lookup d s) as [|e0 es] eqn:El; [|by left].
  case_match eqn:Hlen; [|by intros ?%elem_of_nil].
  intros (i & Hi & He)%list_elem_of_In%in_flat_map. right. split; [done|].
  apply in_seq in Hi. apply list_elem_of_In, split_candidates_inv in He
    as (l & r & Hl & Hr & ->).
  exists i, l, r. split_and!; [lia..|done|done|done].
Qed.

Lemma collect_candidates_split d s e :
  Lookup d s = [] → from_split d s e → e ∈ collect_candidates d s.
Proof.
  intros El (i & l & r & Hi & Hl & Hr & ->). unfold collect_candidates.
  rewrite El. rewrite (proj2 (Nat.ltb_lt 1 (length s))) by lia.
  apply list_elem_of_In, in_flat_map. exists i. split.
  - apply in_seq. lia.
  - apply list_elem_of_In. by apply split_candidates_combined.
Qed.

Lemma GenerateCandidates_elem `{StdSort} d s e :
  e ∈ GenerateCandidates d s → e ∈ collect_candidates d s.
Proof.
  intros He. rewrite <-(std_sort_perm freq_gt _ freq_gt_swo).
  eapply elem_of_sublist; [exact He|apply GenerateCandidates_sublist].
Qed.

(** Every candidate generated for a sequence is an entry stored under the
    whole sequence, or, only when the sequence itself has no entry, the
    combination of an entry for the part before a split point with an entry
    for the part after it.  An exact match therefore suppresses
    segmentation. *)
Theorem candidates_from_dictionary `{StdSort} (d : Dictionary) (s : wstring)
    (e : DictEntry) :
  e ∈ GenerateCandidates d s →
  (Lookup d s ≠ [] ∧ e ∈ Lookup d s) ∨ (Lookup d s = [] ∧ from_split d s e).
Proof. intros He. by apply collect_candidates_inv, GenerateCandidates_elem. Qed.

(** The segmentation example again: "nihao" has no entry and splits into
    "ni" and "hao". *)
Lemma candidates_from_dictionary_witness :
  let S := keep_ties_sort in
  let e := combine_entries (mkDictEntry [20320] 500 (wlit "ni") [])
                           (mkDictEntry [22909] 500 (wlit "hao") []) in
  e ∈ GenerateCandidates nihao_dict (wlit "nihao") ∧
  ((Lookup nihao_dict (wlit "nihao") ≠ [] ∧ e ∈ Lookup nihao_dict (wlit "nihao")) ∨
   (Lookup nihao_dict (wlit "nihao") = [] ∧ from_split nihao_dict (wlit "nihao") e)).
Proof.
  intros S e.
  assert (e ∈ GenerateCandidates nihao_dict (wlit "nihao")) as He.
  { vm_compute. left. }
  split; [exact He|].
  exact (candidates_from_dictionary nihao_dict (wlit "nihao") e He).
Defined.

(** ** When the parser finds nothing *)

Lemma std_unique_nil_inv {A} (pred : A → A → bool) l : std_unique pred l = [] → l = [].
Proof. by destruct l. Qed.

Lemma GenerateCandidates_nil `{StdSort} d s :
  GenerateCandidates d s = [] ↔ collect_candidates d s = [].
Proof.
  unfold GenerateCandidates. split.
  - intros Hnil. apply Permutation_nil_r.
    rewrite <-(std_sort_perm freq_gt _ freq_gt_swo).
    destruct (std_sort freq_gt (collect_candidates d s)) as [|x xs]; [done|].
    simpl in Hnil. by case_match.
  - intros ->. pose proof (std_sort_perm freq_gt (@nil DictEntry) freq_gt_swo) as Hp.
    apply Permutation_nil_r in Hp. rewrite Hp. reflexivity.
Qed.

(** The parser returns no candidate exactly when the sequence has no entry
    and no split point has entries on both sides; in particular for a
    sequence of at most one character without an entry. *)
Theorem no_candidates_iff `{StdSort} (d : Dictionary) (s : wstring) :
  ((ParseContinuousPinyin d PinyinParser_new s).1
     = {| candidates := []; frequencies := [] |} ↔
   Lookup d s = [] ∧
   ∀ i, (1 ≤ i < length s)%nat →
        Lookup d (take i s) = [] ∨ Lookup d (drop i s) = []) ∧
  ((length s ≤ 1)%nat → Lookup d s = [] →
   (ParseContinuousPinyin d PinyinParser_new s).1
     = {| candidates := []; frequencies := [] |}).
Proof.
  assert ((ParseContinuousPinyin d PinyinParser_new s).1
            = {| candidates := []; frequencies := [] |} ↔
          collect_candidates d s = []) as Hiff.
  { rewrite ParseContinuousPinyin_fresh by apply lookup_empty. simpl.
    rewrite <-GenerateCandidates_nil. unfold to_result. split.
    - intros [= Hw _]. by destruct (GenerateCandidates d s).
    - by intros ->. }
  assert (collect_candidates d s = [] ↔
          Lookup d s = [] ∧
          ∀ i, (1 ≤ i < length s)%nat →
               Lookup d (take i s) = [] ∨ Lookup d (drop i s) = []) as Hc.
  { split.
    - intros Hnil.
      assert (Lookup d s = []) as El.
      { unfold collect_candidates in Hnil. by destruct (Lookup d s). }
      split; [done|]. intros i Hi.
      destruct (Lookup d (take i s)) as [|l ls] eqn:Hl; [by left|].
      destruct (Lookup d (drop i s)) as [|r rs] eqn:Hr; [by right|].
      exfalso. eapply (not_elem_of_nil (combine_entries l r)). rewrite <-Hnil.
      apply collect_candidates_split; [done|]. exists i, l, r.
      split_and!; [lia..| | |done]; [rewrite Hl|rewrite Hr]; by left.
    - intros [El Hsplits]. destruct (collect_candidates d s) as [|e es] eqn:Hcol;
        [done|]. exfalso.
      assert (e ∈ collect_candidates d s) as He by (rewrite Hcol; by left).
      apply collect_candidates_inv in He as [[Hne _]|[_ (i & l & r & Hi & Hl & Hr & _)]];
        [done|].
      destruct (Hsplits i Hi) as [E|E]; rewrite E in *; by eapply not_elem_of_nil. }
  split; [by rewrite Hiff, Hc|].
  intros Hlen El. apply Hiff, Hc. split; [done|]. intros i Hi. lia.
Qed.

(** A single letter without an entry gives nothing, even next to entries
    for other keys. *)
Lemma no_candidates_iff_witness :
  let S := keep_ties_sort in
  (ParseContinuousPinyin nihao_dict PinyinParser_new (wlit "n")).1
    = {| candidates := []; frequencies := [] |}.
Proof.
  intros S.
  apply (proj2 (no_candidates_iff nihao_dict (wlit "n")));
    [simpl; lia|vm_compute; reflexivity].
Defined.

(** ** What deduplication does achieve *)

Lemma unique_from_adjacent {A} (pred : A → A → bool) kept l :
  HdRel (λ a b, pred a b = false) kept (unique_from pred kept l) ∧
  Sorted (λ a b, pred a b = false) (unique_from pred kept l).
Proof.
  revert kept. induction l as [|x l IH]; intros kept; simpl; [by split|].
  destruct (pred kept x) eqn:Hp; [apply IH|].
  destruct (IH x) as [Hhd Hs]. split; by constructor.
Qed.

Lemma std_unique_adjacent {A} (pred : A → A → bool) l :
  Sorted (λ a b, pred a b = false) (std_unique pred l).
Proof.
  destruct l as [|x l]; simpl; [constructor|].
  destruct (unique_from_adjacent pred x l). by constructor.
Qed.

Lemma Sorted_take {A} (R : relation A) n l : Sorted R l → Sorted R (take n l).
Proof.
  revert n. induction l as [|x l IH]; intros n Hs; [by rewrite take_nil|].
  destruct n as [|n]; simpl; [constructor|].
  apply Sorted_inv in Hs as [Hs Hhd]. constructor; [by apply IH|].
  destruct Hhd as [|y l' Hxy]; [rewrite take_nil; constructor|].
  destruct n; simpl; by constructor.
Qed.

Lemma Sorted_lookup_next {A} (R : relation A) l i a b :
  Sorted R l → l !! i = Some a → l !! S i = Some b → R a b.
Proof.
  intros Hs. revert i. induction Hs as [|x l Hs IH Hhd]; intros i Hi Hj.
  - by rewrite lookup_nil in Hi.
  - destruct i as [|i]; simpl in *.
    + simplify_eq. destruct Hhd as [|y l' Hxy]; simpl in *; by simplify_eq.
    + by eapply IH.
Qed.

(** A property of every generated result holds for every result a parser
    in a reachable state returns, cached or not. *)
Lemma reachable_result_inv `{StdSort} (P : ParseResult → Prop) :
  (∀ d s, P (to_result (GenerateCandidates d s))) →
  ∀ p d s, parser_reachable p → P (ParseContinuousPinyin d p s).1.
Proof.
  intros HP p d s [ops ->].
  assert (map_Forall (λ _, P) (m_cache (foldl run_parser_op PinyinParser_new ops)))
    as Hcache.
  { induction ops as [|op ops IH] using rev_ind; [apply map_Forall_empty|].
    rewrite foldl_app. simpl. destruct op as [d' s'|]; simpl.
    - unfold ParseContinuousPinyin.
      destruct (m_cache _ !! s') eqn:Hs'; simpl; [done|].
      by apply map_Forall_insert_2.
    - apply map_Forall_empty. }
  unfold ParseContinuousPinyin.
  destruct (m_cache _ !! s) eqn:Hs; simpl; [by eapply Hcache|apply HP].
Qed.

(** No two neighbouring candidates of a result carry the same word: this
    is what the [std::unique] call removes. *)
Theorem neighbours_differ `{StdSort} (d : Dictionary) (p : PinyinParser)
    (s : wstring) (i : nat) (w1 w2 : wstring) :
  parser_reachable p →
  candidates (ParseContinuousPinyin d p s).1 !! i = Some w1 →
  candidates (ParseContinuousPinyin d p s).1 !! S i = Some w2 →
  w1 ≠ w2.
Proof.
  intros Hp. apply (Sorted_lookup_next (λ a b, a ≠ b)).
  apply (reachable_result_inv (λ r, Sorted (λ a b, a ≠ b) (candidates r)));
    [|done].
  clear. intros d s. unfold to_result. simpl.
  apply (Sorted_fmap word (λ a b, same_word a b = false)).
  - intros x y Hxy. unfold same_word in Hxy. by apply bool_decide_eq_false in Hxy.
  - unfold GenerateCandidates. case_match.
    + apply Sorted_take, std_unique_adjacent.
    + apply std_unique_adjacent.
Qed.

(** On the dictionary with the word "xyz" at both ends of the frequency
    order, the neighbours "xyz" and "qyz" differ. *)
Lemma neighbours_differ_witness :
  let S := keep_ties_sort in
  parser_reachable PinyinParser_new ∧ wlit "xyz" ≠ wlit "qyz".
Proof.
  intros S.
  assert (parser_reachable PinyinParser_new) as Hp by (by exists []).
  split; [exact Hp|].
  apply (neighbours_differ dedup_dict PinyinParser_new (wlit "abc") 0
           (wlit "xyz") (wlit "qyz") Hp);
    vm_compute; reflexivity.
Defined.

(** ** The best candidate survives *)

(** When anything was collected for a sequence, the first candidate of the
    result carries the highest frequency of all that was collected: neither
    deduplication nor truncation loses it. *)
Theorem best_candidate_first `{StdSort} (d : Dictionary) (s : wstring)
    (e : DictEntry) :
  e ∈ collect_candidates d s →
  ∃ best rest,
    GenerateCandidates d s = best :: rest ∧
    best ∈ collect_candidates d s ∧
    (∀ e', e' ∈ collect_candidates d s → frequency e' ≤ frequency best) ∧
    (ParseContinuousPinyin d PinyinParser_new s).1 =
      {| candidates := word best :: List.map word rest;
         frequencies := frequency best :: List.map frequency rest |}.
Proof.
  intros He.
  pose proof (std_sort_perm freq_gt (collect_candidates d s) freq_gt_swo) as Hperm.
  pose proof (std_sort_sorted freq_gt (collect_candidates d s) freq_gt_swo) as Hs.
  assert (∃ best rest, GenerateCandidates d s = best :: rest ∧
            ∃ tl, std_sort freq_gt (collect_candidates d s) = best :: tl)
    as (best & rest & Hg & tl & Hsort).
  { unfold GenerateCandidates.
    destruct (std_sort freq_gt (collect_candidates d s)) as [|x xs] eqn:Hx.
    - rewrite <-Hperm in He. by apply elem_of_nil in He.
    - simpl. case_match; simpl; by eexists _, _; split; [|eexists]. }
  exists best, rest. rewrite Hsort in Hperm, Hs. split_and!; [done| | |].
  - rewrite <-Hperm. by left.
  - intros e' He'. rewrite <-Hperm in He'.
    apply StronglySorted_inv in Hs as [_ Hall].
    apply elem_of_cons in He' as [->|He']; [done|].
    rewrite Forall_forall in Hall. specialize (Hall e' He'). simpl in Hall.
    unfold freq_gt in Hall. by apply N.ltb_ge in Hall.
  - rewrite ParseContinuousPinyin_fresh by apply lookup_empty. simpl.
    by rewrite Hg.
Qed.

(** On the deduplication dictionary the best candidate is "xyz" with
    frequency 9. *)
Lemma best_candidate_first_witness :
  let S := keep_ties_sort in
  ∃ best rest,
    GenerateCandidates dedup_dict (wlit "abc") = best :: rest ∧
    best ∈ collect_candidates dedup_dict (wlit "abc") ∧
    (∀ e', e' ∈ collect_candidates dedup_dict (wlit "abc") →
           frequency e' ≤ frequency best) ∧
    (ParseContinuousPinyin dedup_dict PinyinParser_new (wlit "abc")).1 =
      {| candidates := word best :: List.map word rest;
         frequencies := frequency best :: List.map frequency rest |}.
Proof.
  intros S.
  apply (best_candidate_first dedup_dict (wlit "abc")
           (mkDictEntry (wlit "xyz") 9 (wlit "a bc") [wlit "combined"])).
  rewrite dedup_dict_collected. by left.
Defined.

(** ** Learned preferences *)

(** The weight recorded for a candidate under an input key, 0 when there is
    none. *)
Definition preference (cm : CandidateManager) (k c : wstring) : Z :=
  weight_of (default ∅ (m_userPreferences cm !! k)) c.

Lemma wrap_int_range z : (- 2 ^ 31 ≤ wrap_int z < 2 ^ 31)%Z.
Proof.
  unfold wrap_int. pose proof (Z.mod_pos_bound (z + 2 ^ 31) (2 ^ 32)). lia.
Qed.

Lemma wrap_int_add_l a b : wrap_int (wrap_int a + b) = wrap_int (a + b).
Proof.
  unfold wrap_int. f_equal.
  replace ((a + 2 ^ 31) mod 2 ^ 32 - 2 ^ 31 + b + 2 ^ 31)%Z
    with ((a + 2 ^ 31) mod 2 ^ 32 + b)%Z by lia.
  rewrite Zplus_mod_idemp_l. f_equal. lia.
Qed.

(** [AddUserPreference] adds the boost to the weight of its candidate under
    its key as the machine adds two [int]: the new weight is the sum when
    the sum is in the range of [int], and the value of the same residue
    modulo 2^32 in that range otherwise.  No other weight changes; boosts
    accumulate modulo 2^32 and their order does not matter.  The selection
    and the parser are left alone. *)
Theorem AddUserPreference_accumulates (cm : CandidateManager) (k c : wstring) (n : Z) :
  preference (AddUserPreference cm k c n) k c = wrap_int (preference cm k c + n) ∧
  ((- 2 ^ 31 ≤ preference cm k c + n < 2 ^ 31)%Z →
   preference (AddUserPreference cm k c n) k c = (preference cm k c + n)%Z) ∧
  (- 2 ^ 31 ≤ preference (AddUserPreference cm k c n) k c < 2 ^ 31)%Z ∧
  (∀ k' c', (k', c') ≠ (k, c) →
     preference (AddUserPreference cm k' c' n) k c = preference cm k c) ∧
  (∀ n', preference (AddUserPreference (AddUserPreference cm k c n) k c n') k c
         = wrap_int (preference cm k c + n + n')) ∧
  (∀ k1 c1 n1 k2 c2 n2,
     preference (AddUserPreference (AddUserPreference cm k1 c1 n1) k2 c2 n2) k c =
     preference (AddUserPreference (AddUserPreference cm k2 c2 n2) k1 c1 n1) k c) ∧
  m_selectedCandidate (AddUserPreference cm k c n) = m_selectedCandidate cm ∧
  m_parser (AddUserPreference cm k c n) = m_parser cm.
Proof.
  assert (∀ cm0 k0 c0 n0 k1 c1,
            preference (AddUserPreference cm0 k0 c0 n0) k1 c1 =
            if bool_decide ((k0, c0) = (k1, c1))
            then wrap_int (preference cm0 k1 c1 + n0)
            else preference cm0 k1 c1) as Hgen.
  { intros cm0 k0 c0 n0 k1 c1. unfold preference, AddUserPreference. simpl.
    destruct (decide (k0 = k1)) as [->|Hk].
    - rewrite lookup_insert_eq. simpl.
      destruct (decide (c0 = c1)) as [->|Hc].
      + rewrite bool_decide_eq_true_2 by done.
        by rewrite weight_of_insert_eq, weight_of_default.
      + rewrite bool_decide_eq_false_2 by congruence.
        by rewrite weight_of_insert_ne.
    - rewrite lookup_insert_ne by done.
      by rewrite bool_decide_eq_false_2 by congruence. }
  split_and!.
  - rewrite Hgen. by rewrite bool_decide_eq_true_2.
  - intros Hrange. rewrite Hgen, bool_decide_eq_true_2 by done.
    by apply wrap_int_small.
  - rewrite Hgen, bool_decide_eq_true_2 by done. apply wrap_int_range.
  - rewrite Hgen, bool_decide_eq_true_2 by done. apply wrap_int_range.
  - intros k' c' Hne. rewrite Hgen. by rewrite bool_decide_eq_false_2.
  - intros n'. rewrite !Hgen. rewrite !bool_decide_eq_true_2 by done.
    apply wrap_int_add_l.
  - intros. rewrite !Hgen.
    repeat case_bool_decide; try done.
    rewrite !wrap_int_add_l. f_equal. lia.
  - reflexivity.
  - reflexivity.
Qed.

(** From the weight 2147483647 a boost of 1 leads to -2147483648. *)
Lemma AddUserPreference_accumulates_witness :
  let cm := AddUserPreference tie_manager (wlit "a") (wlit "x") 2147483647 in
  preference cm (wlit "a") (wlit "x") = 2147483647%Z ∧
  preference (AddUserPreference cm (wlit "a") (wlit "x") 1) (wlit "a") (wlit "x")
    = (-2147483648)%Z ∧
  preference (AddUserPreference tie_manager (wlit "a") (wlit "z") 5)
             (wlit "a") (wlit "z") = 6%Z.
Proof.
  intros cm. split; [vm_compute; reflexivity|]. split.
  - destruct (AddUserPreference_accumulates cm (wlit "a") (wlit "x") 1)
      as (-> & _). vm_compute. reflexivity.
  - destruct (AddUserPreference_accumulates tie_manager (wlit "a") (wlit "z") 5)
      as (_ & Hsum & _).
    rewrite Hsum; [vm_compute; reflexivity|vm_compute; split; [discriminate|reflexivity]].
Defined.

(** A preference recorded under one input key has no effect on the
    suggestions for another key. *)
Theorem preference_other_key `{StdSort} (d : Dictionary) (cm : CandidateManager)
    (k k' c : wstring) (n : Z) :
  k' ≠ k →
  (GetSmartSuggestions d (AddUserPreference cm k' c n) k).1
    = (GetSmartSuggestions d cm k).1.
Proof.
  intros Hne. rewrite !GetSmartSuggestions_suggest, GetCandidates_boosted.
  unfold AddUserPreference. simpl. by rewrite lookup_insert_ne.
Qed.

Lemma preference_other_key_witness :
  let S := flip_ties_sort in
  (GetSmartSuggestions tie_dict
     (AddUserPreference tie_manager (wlit "b") (wlit "x") 9) (wlit "a")).1
    = (GetSmartSuggestions tie_dict tie_manager (wlit "a")).1.
Proof.
  intros S. apply (preference_other_key tie_dict tie_manager). discriminate.
Defined.

(** ** Reset *)

(** [Reset] drops the selection and the cache of the parser but keeps what
    was learned: the next query is computed from the dictionary as it is
    then, and is still ordered by the recorded preferences. *)
Theorem Reset_keeps_preferences `{StdSort} (d : Dictionary) (cm : CandidateManager)
    (k : wstring) :
  m_userPreferences (Reset cm) = m_userPreferences cm ∧
  m_selectedCandidate (Reset cm) = [] ∧
  m_cache (m_parser (Reset cm)) = ∅ ∧
  (GetCandidates d (Reset cm) k).1 = List.map word (GenerateCandidates d k) ∧
  (GetSmartSuggestions d (Reset cm) k).1 =
    suggest (m_userPreferences cm !! k) (List.map word (GenerateCandidates d k)).
Proof.
  assert ((GetCandidates d (Reset cm) k).1 = List.map word (GenerateCandidates d k))
    as Hbase.
  { unfold GetCandidates, Reset, ClearCache. simpl.
    rewrite ParseContinuousPinyin_fresh by apply lookup_empty. reflexivity. }
  split_and!; [done..|].
  by rewrite GetSmartSuggestions_suggest, Hbase.
Qed.

(** ** Context-aware candidates *)

Lemma shorter_swo : StrictWeakOrder shorter.
Proof.
  unfold shorter. split; intros *; rewrite ?Nat.ltb_lt, ?Nat.ltb_ge; lia.
Qed.

Lemma longer_swo : StrictWeakOrder longer.
Proof.
  unfold longer. split; intros *; rewrite ?Nat.ltb_lt, ?Nat.ltb_ge; lia.
Qed.

(** [GetSmartCandidates] returns the plain candidates when the context is
    empty or there are fewer than two of them.  Otherwise it returns ten of
    them (all, if there are fewer), ordered by length: never decreasing for
    a context shorter than five characters, never increasing for a longer
    one.  It leaves the manager as [GetCandidates] does. *)
Theorem GetSmartCandidates_by_length `{StdSort} (d : Dictionary)
    (cm : CandidateManager) (pinyinInput context : wstring) :
  let base := (GetCandidates d cm pinyinInput).1 in
  let smart := (GetSmartCandidates d cm pinyinInput context).1 in
  (GetSmartCandidates d cm pinyinInput context).2 = (GetCandidates d cm pinyinInput).2 ∧
  (context = [] ∨ (length base ≤ 1)%nat → smart = base) ∧
  (context ≠ [] → (2 ≤ length base)%nat →
   length smart = (length base `min` 10)%nat ∧
   (∃ dropped, smart ++ dropped ≡ₚ base) ∧
   ∀ i j a b, (i < j)%nat → smart !! i = Some a → smart !! j = Some b →
     if (length context <? 5)%nat then (length a ≤ length b)%nat
     else (length b ≤ length a)%nat).
Proof.
  intros base smart. subst base smart. unfold GetSmartCandidates.
  destruct (GetCandidates d cm pinyinInput) as [cands cm'] eqn:Hg. simpl.
  split_and!.
  - by case_match.
  - intros [->|Hlen].
    + by rewrite bool_decide_eq_true_2.
    + rewrite (proj2 (Nat.leb_le _ 1) Hlen), orb_true_r. done.
  - intros Hctx Hlen.
    rewrite bool_decide_eq_false_2 by done. simpl.
    rewrite (proj2 (Nat.leb_gt _ 1)) by lia. simpl.
    set (comp := if (length context <? 5)%nat then shorter else longer).
    assert (StrictWeakOrder comp) as Hswo.
    { unfold comp. case_match; [apply shorter_swo|apply longer_swo]. }
    assert ((if (length context <? 5)%nat then std_sort shorter cands
             else std_sort longer cands) = std_sort comp cands) as ->.
    { unfold comp. by case_match. }
    pose proof (std_sort_perm comp cands Hswo) as Hperm.
    pose proof (std_sort_sorted comp cands Hswo) as Hsorted.
    set (sorted := std_sort comp cands) in *.
    assert ((if (10 <? length sorted)%nat then take 10 sorted else sorted)
              = take 10 sorted) as ->.
    { case_match eqn:Hten; [done|]. apply Nat.ltb_ge in Hten.
      by rewrite take_ge. }
    split_and!.
    + rewrite length_take, (Permutation_length Hperm). lia.
    + exists (drop 10 sorted). by rewrite take_drop.
    + intros i j a b Hij Hi Hj.
      assert (comp b a = false) as Hab.
      { apply (StronglySorted_lookup (λ x y, comp y x = false)
                 (take 10 sorted) i j a b); [|done..].
        eapply StronglySorted_sublist; [apply sublist_take|exact Hsorted]. }
      unfold comp in Hab. destruct (length context <? 5)%nat;
        unfold shorter, longer in Hab; apply Nat.ltb_ge in Hab; lia.
Qed.

(** With a short context the shorter of two candidates comes first. *)
Lemma GetSmartCandidates_by_length_witness :
  let S := keep_ties_sort in
  let d := AddEntry (AddEntry Dictionary_new (wlit "a") (example_entry "long" 9 "a"))
                    (wlit "a") (example_entry "x" 5 "a") in
  let cm := CandidateManager_new PinyinParser_new in
  (GetCandidates d cm (wlit "a")).1 = [wlit "long"; wlit "x"] ∧
  (GetSmartCandidates d cm (wlit "a") (wlit "hi")).1 = [wlit "x"; wlit "long"] ∧
  length (GetSmartCandidates d cm (wlit "a") (wlit "hi")).1 = 2%nat.
Proof.
  intros S d cm.
  destruct (GetSmartCandidates_by_length d cm (wlit "a") (wlit "hi"))
    as (_ & _ & Hsmart).
  destruct Hsmart as (Hlen & _); [discriminate|vm_compute; lia|].
  split_and!; [vm_compute; reflexivity..|].
  rewrite Hlen. vm_compute. reflexivity.
Defined.

(** [GetCandidateFrequency] is 1000 for the empty string, at most 1000 for
    any string, 0 from 1000 characters on, and never larger for a longer
    string. *)
Theorem GetCandidateFrequency_antitone (a b : wstring) :
  GetCandidateFrequency [] = 1000 ∧
  GetCandidateFrequency a ≤ 1000 ∧
  (GetCandidateFrequency a = 0 ↔ (1000 ≤ length a)%nat) ∧
  ((length a ≤ length b)%nat → GetCandidateFrequency b ≤ GetCandidateFrequency a).
Proof.
  unfold GetCandidateFrequency. split_and!.
  - reflexivity.
  - apply N.Div0.div_le_upper_bound. lia.
  - rewrite N.div_small_iff by lia. lia.
  - intros Hlen. apply N.div_le_compat_l. lia.
Qed.

Lemma GetCandidateFrequency_antitone_witness :
  GetCandidateFrequency (wlit "abc") ≤ GetCandidateFrequency (wlit "a").
Proof.
  apply (GetCandidateFrequency_antitone (wlit "a") (wlit "abc")). simpl. lia.
Defined.

(** ** Conversion there and back *)

(** Converting a text to the other charset and back returns the text when,
    on each of its characters, the second table undoes the first. *)
Theorem Convert_round_trip (cv : CharsetConverter) (text : wstring) :
  Forall (λ ch, substitute (m_t2s cv) (substitute (m_s2t cv) ch) = ch) text →
  Convert cv (Convert cv text (wlit "Simplified") (wlit "Traditional"))
          (wlit "Traditional") (wlit "Simplified") = text.
Proof.
  intros Hinv. unfold Convert.
  rewrite !(bool_decide_eq_false_2 (wlit "Simplified" = wlit "Traditional"))
    by discriminate.
  rewrite !(bool_decide_eq_false_2 (wlit "Traditional" = wlit "Simplified"))
    by discriminate.
  rewrite !bool_decide_eq_true_2 by done. simpl.
  rewrite map_map. induction Hinv as [|ch text Hch _ IH]; simpl; [done|].
  by rewrite Hch, IH.
Qed.

(** A converter with one real pair of characters: U+56FD and U+570B. *)
Definition guo_converter : CharsetConverter :=
  {| m_s2t := {[ 22269 := 22283 ]}; m_t2s := {[ 22283 := 22269 ]} |}.

Lemma Convert_round_trip_witness :
  Convert guo_converter
    (Convert guo_converter [22269; 65] (wlit "Simplified") (wlit "Traditional"))
    (wlit "Traditional") (wlit "Simplified") = [22269; 65] ∧
  Convert guo_converter [22269; 65] (wlit "Simplified") (wlit "Traditional")
    = [22283; 65].
Proof.
  split; [|vm_compute; reflexivity].
  apply (Convert_round_trip guo_converter [22269; 65]).
  repeat constructor.
Defined.

Lemma substitute_initial_s2t ch : substitute (m_s2t InitializeMaps) ch = ch.
Proof.
  unfold substitute, InitializeMaps. simpl.
  destruct (decide (wchar "B" = ch)) as [<-|HB]; [by rewrite lookup_insert_eq|].
  rewrite lookup_insert_ne by done.
  destruct (decide (wchar "A" = ch)) as [<-|HA]; [by rewrite lookup_insert_eq|].
  by rewrite lookup_insert_ne, lookup_empty.
Qed.

Lemma substitute_initial_t2s ch : substitute (m_t2s InitializeMaps) ch = ch.
Proof. apply substitute_initial_s2t. Qed.

(** The tables the constructor installs map 'A' and 'B' to themselves, so a
    converter as constructed changes no text, whatever the two charsets. *)
Theorem Convert_initial_identity (text from to : wstring) (cands : wstring)
    (cfrom cto : Charset) :
  Convert InitializeMaps text from to = text ∧
  ConvertCandidates InitializeMaps cands cfrom cto = cands.
Proof.
  assert (∀ l, List.map (substitute (m_s2t InitializeMaps)) l = l) as Hs.
  { intros l. rewrite <-(map_id l) at 2. apply map_ext, substitute_initial_s2t. }
  assert (∀ l, List.map (substitute (m_t2s InitializeMaps)) l = l) as Ht by exact Hs.
  split.
  - unfold Convert. repeat case_match; by rewrite ?Hs, ?Ht.
  - unfold ConvertCandidates. repeat case_match; by rewrite ?Hs, ?Ht.
Qed.

(** [ConvertCandidates] on the two enumerators does what [Convert] does on
    their names, for every converter. *)
Theorem ConvertCandidates_as_Convert (cv : CharsetConverter) (cands : wstring)
    (from to : Charset) :
  ConvertCandidates cv cands from to
    = Convert cv cands (charset_name from) (charset_name to) ∧
  length (ConvertCandidates cv cands from to) = length cands.
Proof.
  assert (ConvertCandidates cv cands from to
            = Convert cv cands (charset_name from) (charset_name to)) as Heq.
  { destruct from, to; reflexivity. }
  split; [done|].
  unfold ConvertCandidates. destruct from, to; simpl; by rewrite ?length_map.
Qed.

(** ** The pinyin scheme *)

Lemma int_of_unsigned_cases (u : N) :
  u < 2 ^ 32 →
  int_of_unsigned u = if u <? 2 ^ 31 then Z.of_N u else (Z.of_N u - 2 ^ 32)%Z.
Proof.
  intros Hu. unfold int_of_unsigned.
  assert (Z.of_N u < 2 ^ 32)%Z as Hz.
  { change (2 ^ 32)%Z with (Z.of_N (2 ^ 32)). lia. }
  case_match eqn:Hcmp.
  - apply N.ltb_lt in Hcmp.
    assert (Z.of_N u < 2 ^ 31)%Z.
    { change (2 ^ 31)%Z with (Z.of_N (2 ^ 31)). lia. }
    rewrite Z.mod_small; lia.
  - apply N.ltb_ge in Hcmp.
    assert (2 ^ 31 ≤ Z.of_N u)%Z.
    { change (2 ^ 31)%Z with (Z.of_N (2 ^ 31)). lia. }
    rewrite <-(Z.mod_add _ (-1)) by lia. rewrite Z.mod_small; lia.
Qed.

(** A pinyin scheme without a parser has no candidates.  With a parser it
    returns the parser's candidates in the parser's order, without tags;
    the frequency of each is that of the parser when below 2^31 and that
    frequency minus 2^32, a negative number, otherwise.  Words added to or
    removed from the scheme never change its candidates. *)
Theorem pinyin_scheme_candidates `{StdSort} (d : Dictionary) (s : PinyinScheme.t)
    (input : wstring) :
  (PinyinScheme.m_parser s = None → PinyinScheme.GetCandidates d s input = ([], s)) ∧
  (∀ p, PinyinScheme.m_parser s = Some p → parser_reachable p →
     let r := (ParseContinuousPinyin d p input).1 in
     let cs := (PinyinScheme.GetCandidates d s input).1 in
     length cs = length (candidates r) ∧
     ∀ i w f, candidates r !! i = Some w → frequencies r !! i = Some f →
       f < 2 ^ 32 →
       cs !! i = Some (mkCandidate w
                         (if f <? 2 ^ 31 then Z.of_N f else (Z.of_N f - 2 ^ 32)%Z)
                         [])) ∧
  (∀ w f, (PinyinScheme.GetCandidates d (PinyinScheme.AddWord s w f) input).1
          = (PinyinScheme.GetCandidates d s input).1) ∧
  (∀ w, (PinyinScheme.GetCandidates d (PinyinScheme.RemoveWord s w) input).1
        = (PinyinScheme.GetCandidates d s input).1).
Proof.
  split_and!.
  - unfold PinyinScheme.GetCandidates. by intros ->.
  - intros p Hp Hreach r cs. subst r cs. unfold PinyinScheme.GetCandidates.
    rewrite Hp.
    pose proof (ParseContinuousPinyin_ranked d p input
                  (reachable_cache_ranked p Hreach)) as (_ & _ & Hlen).
    destruct (ParseContinuousPinyin d p input) as [r p'] eqn:Hparse. simpl in *.
    unfold PinyinScheme.to_candidates. split.
    + rewrite length_zip_with. lia.
    + intros i w f Hw Hf Hrange. rewrite lookup_zip_with, Hw, Hf. simpl.
      by rewrite int_of_unsigned_cases.
  - intros w f. unfold PinyinScheme.GetCandidates, PinyinScheme.AddWord. simpl.
    destruct (PinyinScheme.m_parser s); [|done].
    by destruct (ParseContinuousPinyin d p input).
  - intros w. unfold PinyinScheme.GetCandidates, PinyinScheme.RemoveWord. simpl.
    destruct (PinyinScheme.m_parser s); [|done].
    by destruct (ParseContinuousPinyin d p input).
Qed.

(** A frequency clamped to 2^32 - 1 by the loader reaches the user of the
    scheme as -1. *)
Lemma pinyin_scheme_candidates_witness :
  let S := keep_ties_sort in
  let d := AddEntry Dictionary_new (wlit "a") (example_entry "x" 4294967295 "a") in
  let s := PinyinScheme.SetParser PinyinScheme.new PinyinParser_new in
  (PinyinScheme.GetCandidates d s (wlit "a")).1 !! 0%nat
    = Some (mkCandidate (wlit "x") (-1) []).
Proof.
  intros S d s.
  destruct (pinyin_scheme_candidates d s (wlit "a")) as (_ & Hcs & _).
  destruct (Hcs PinyinParser_new eq_refl) as [_ Hat]; [by exists []|].
  apply (Hat 0%nat (wlit "x") 4294967295); vm_compute; reflexivity.
Defined.

(** ** Normalisation of bopomofo input *)

(** The continuation of a collapsed string after its first character:
    characters that are no white space, each preceded by at most one
    space. *)
Inductive tail_ok : list N → Prop :=
  | tail_ok_nil : tail_ok []
  | tail_ok_char ch t : iswspace ch = false → tail_ok t → tail_ok (ch :: t)
  | tail_ok_space ch t : iswspace ch = false → tail_ok t → tail_ok (32 :: ch :: t).

(** A collapsed string: empty, or words separated by single spaces. *)
Definition collapsed (s : wstring) : Prop :=
  match s with
  | [] => True
  | ch :: t => iswspace ch = false ∧ tail_ok t
  end.

Lemma tail_ok_app t1 t2 : tail_ok t1 → tail_ok t2 → tail_ok (t1 ++ t2).
Proof.
  induction 1 as [|ch t Hch _ IH|ch t Hch _ IH]; simpl; intros Ht2; [done|..].
  - apply tail_ok_char; auto.
  - apply tail_ok_space; auto.
Qed.

Lemma collapsed_snoc out ch (pendingSpace : bool) :
  collapsed out → iswspace ch = false →
  collapsed ((if pendingSpace && negb (bool_decide (out = []))
              then out ++ [32] else out) ++ [ch]).
Proof.
  intros Hout Hch. destruct out as [|c t]; simpl.
  - rewrite andb_false_r. simpl. split; [done|constructor].
  - destruct Hout as [Hc Ht]. rewrite andb_true_r.
    destruct pendingSpace; simpl; (split; [done|]).
    + rewrite <-app_assoc. apply tail_ok_app; [done|]. simpl.
      apply tail_ok_space; [done|constructor].
    + apply tail_ok_app; [done|]. apply tail_ok_char; [done|constructor].
Qed.

Lemma trim_step_collapsed st ch : collapsed st.1 → collapsed (trim_step st ch).1.
Proof.
  destruct st as [out pendingSpace]. simpl. intros Hout.
  destruct (iswspace ch) eqn:Hch; simpl; [done|]. by apply collapsed_snoc.
Qed.

Lemma fold_trim_collapsed input st :
  collapsed st.1 → collapsed (fold_left trim_step input st).1.
Proof.
  revert st. induction input as [|ch input IH]; intros st Hst; simpl; [done|].
  by apply IH, trim_step_collapsed.
Qed.

Lemma fold_trim_tail t out :
  out ≠ [] → tail_ok t → fold_left trim_step t (out, false) = (out ++ t, false).
Proof.
  intros Hout Ht. revert out Hout.
  induction Ht as [|ch t Hch Ht IH|ch t Hch Ht IH]; intros out Hout; simpl.
  - by rewrite app_nil_r.
  - rewrite Hch. simpl. rewrite IH by (by destruct out).
    by rewrite <-app_assoc.
  - rewrite Hch. simpl. rewrite (bool_decide_eq_false_2 (out = [])) by done. simpl.
    rewrite IH by (by destruct out). by rewrite <-!app_assoc.
Qed.

Lemma fold_trim_letters input st :
  List.filter (λ ch, negb (iswspace ch)) (fold_left trim_step input st).1 =
  List.filter (λ ch, negb (iswspace ch)) st.1
    ++ List.filter (λ ch, negb (iswspace ch)) input.
Proof.
  revert st. induction input as [|ch input IH]; intros [out pendingSpace]; simpl.
  - by rewrite app_nil_r.
  - rewrite IH. unfold trim_step. destruct (iswspace ch) eqn:Hch; simpl; [done|].
    rewrite List.filter_app. simpl. rewrite Hch. simpl.
    rewrite <-app_assoc. simpl. f_equal.
    destruct (pendingSpace && negb (bool_decide (out = []))); [|done].
    rewrite List.filter_app. simpl. by rewrite app_nil_r.
Qed.

Lemma tail_ok_spaces t :
  tail_ok t → Forall (λ ch, iswspace ch = true → ch = 32) t.
Proof.
  induction 1 as [|ch t Hch _ IH|ch t Hch _ IH]; repeat constructor;
    try done; congruence.
Qed.

Lemma tail_ok_last t ch :
  tail_ok t → last t = Some ch → iswspace ch = false.
Proof.
  induction 1 as [|c t Hc Ht IH|c t Hc Ht IH]; [done| |].
  - destruct t as [|c' t']; simpl in *; [congruence|exact IH].
  - destruct t as [|c' t']; simpl in *; [congruence|exact IH].
Qed.

Lemma tail_ok_no_double t i a b :
  tail_ok t → t !! i = Some a → t !! S i = Some b →
  iswspace a = false ∨ iswspace b = false.
Proof.
  intros Ht. revert i. induction Ht as [|c t Hc Ht IH|c t Hc Ht IH]; intros i Hi Hj.
  - by rewrite lookup_nil in Hi.
  - destruct i as [|i]; simpl in *; [left; congruence|by eapply IH].
  - destruct i as [|[|i]]; simpl in *; [right; congruence|left; congruence|].
    by eapply IH.
Qed.

(** Two normalised strings put together, with one space between them when
    neither is empty. *)
Definition spaced (x y : wstring) : wstring :=
  match x, y with
  | [], _ => y
  | _, [] => x
  | _ :: _, _ :: _ => x ++ 32 :: y
  end.

(** What the loop appends to an output that is not empty. *)
Fixpoint appended (pendingSpace : bool) (s : wstring) : wstring :=
  match s with
  | [] => []
  | ch :: s' =>
      if iswspace ch then appended true s'
      else (if pendingSpace then [32] else []) ++ ch :: appended false s'
  end.

Lemma fold_trim_appended out pendingSpace s :
  out ≠ [] →
  (fold_left trim_step s (out, pendingSpace)).1 = out ++ appended pendingSpace s.
Proof.
  revert out pendingSpace. induction s as [|ch s IH]; intros out p Hout; simpl.
  - by rewrite app_nil_r.
  - destruct (iswspace ch) eqn:Hch; simpl; [by apply IH|].
    rewrite (bool_decide_eq_false_2 (out = [])) by done.
    rewrite andb_true_r. rewrite IH by (by destruct p, out).
    destruct p; by rewrite <-!app_assoc.
Qed.

Lemma TrimAndCollapseWs_char ch s :
  iswspace ch = false → TrimAndCollapseWs (ch :: s) = ch :: appended false s.
Proof.
  intros Hch. unfold TrimAndCollapseWs. simpl. rewrite Hch. simpl.
  by rewrite fold_trim_appended.
Qed.

Lemma TrimAndCollapseWs_space ch s :
  iswspace ch = true → TrimAndCollapseWs (ch :: s) = TrimAndCollapseWs s.
Proof.
  intros Hch. unfold TrimAndCollapseWs. simpl. rewrite Hch.
  destruct s as [|c s]; simpl; [done|].
  by destruct (iswspace c).
Qed.

Lemma fold_trim_pending out s :
  (fold_left trim_step s (out, true)).1 = spaced out (TrimAndCollapseWs s).
Proof.
  induction s as [|ch s IH].
  - simpl. by destruct out.
  - destruct (iswspace ch) eqn:Hch.
    + rewrite TrimAndCollapseWs_space by done. simpl. by rewrite Hch.
    + rewrite TrimAndCollapseWs_char by done. simpl. rewrite Hch. simpl.
      destruct out as [|c out]; simpl.
      * by rewrite fold_trim_appended.
      * rewrite fold_trim_appended by done. simpl.
        by rewrite <-!app_assoc.
Qed.

Lemma appended_chars s :
  Forall (λ ch, iswspace ch = false) s → appended false s = s.
Proof.
  induction 1 as [|ch s Hch _ IH]; simpl; [done|]. by rewrite Hch, IH.
Qed.

(** [TrimAndCollapseWs] keeps the characters that are no white space, in
    their order, and separates the groups the input had by one space each.
    The result neither starts nor ends with white space, holds no white
    space but the space and no two of them in a row, and normalising it
    again changes nothing.  Without its spaces, as [ParseBopomofoInput]
    makes it, the result is the input without any white space.  An input
    without white space is returned as it is, and for an input cut at a
    white-space character the result is what the two parts give, with one
    space between them when neither comes out empty: these two laws fix the
    result for every input. *)
Theorem TrimAndCollapseWs_normal (input : wstring) :
  let out := TrimAndCollapseWs input in
  TrimAndCollapseWs out = out ∧
  List.filter (λ ch, negb (iswspace ch)) out
    = List.filter (λ ch, negb (iswspace ch)) input ∧
  BopomofoScheme.ParseBopomofoInput out
    = List.filter (λ ch, negb (iswspace ch)) input ∧
  (∀ ch, head out = Some ch ∨ last out = Some ch → iswspace ch = false) ∧
  (∀ ch, ch ∈ out → iswspace ch = true → ch = 32) ∧
  (∀ i a b, out !! i = Some a → out !! S i = Some b →
     iswspace a = false ∨ iswspace b = false) ∧
  (Forall (λ ch, iswspace ch = false) input → out = input) ∧
  (∀ a ch b, input = a ++ ch :: b → iswspace ch = true →
     out = spaced (TrimAndCollapseWs a) (TrimAndCollapseWs b)).
Proof.
  intros out.
  assert (collapsed out) as Hc by (by apply fold_trim_collapsed).
  assert (List.filter (λ ch, negb (iswspace ch)) out
            = List.filter (λ ch, negb (iswspace ch)) input) as Hletters.
  { unfold out, TrimAndCollapseWs. by rewrite fold_trim_letters. }
  assert (∀ ch, ch ∈ out → iswspace ch = true → ch = 32) as Hspaces.
  { destruct out as [|c t]; [by intros ? ?%elem_of_nil|]. destruct Hc as [Hc Ht].
    intros ch [->|Hin]%elem_of_cons Hws; [congruence|].
    pose proof (tail_ok_spaces t Ht) as Hall. rewrite Forall_forall in Hall.
    by apply Hall. }
  split_and!; [|done| | |done| | |].
  - destruct out as [|c t]; [done|]. destruct Hc as [Hc Ht].
    unfold TrimAndCollapseWs. simpl. rewrite Hc. simpl.
    by rewrite fold_trim_tail.
  - rewrite <-Hletters. unfold BopomofoScheme.ParseBopomofoInput.
    apply filter_ext_in. intros ch Hin%list_elem_of_In.
    destruct (iswspace ch) eqn:Hws.
    + by rewrite (Hspaces ch Hin Hws).
    + simpl. apply negb_true_iff, N.eqb_neq. by intros ->.
  - destruct out as [|c t]; [by intros ch [?|?]|]. destruct Hc as [Hc Ht].
    intros ch [Hhd|Hlast]; [simpl in Hhd; congruence|].
    destruct t as [|c' t']; [simpl in Hlast; congruence|].
    eapply tail_ok_last; [exact Ht|exact Hlast].
  - destruct out as [|c t]; [by intros i a b; rewrite lookup_nil|].
    destruct Hc as [Hc Ht].
    intros [|i] a b Hi Hj; simpl in *; [left; congruence|].
    by eapply tail_ok_no_double.
  - intros Hall. unfold out. destruct Hall as [|ch s Hch Hs]; [done|].
    rewrite TrimAndCollapseWs_char by done. by rewrite appended_chars.
  - intros a ch b -> Hch. unfold out, TrimAndCollapseWs.
    rewrite fold_left_app. simpl.
    destruct (fold_left trim_step a ([], false)) as [oa pa] eqn:Ha.
    simpl. rewrite Hch. apply fold_trim_pending.
Qed.

(** Three groups, with white space of several kinds around and between
    them, come out with one space after the first and one after the
    second. *)
Lemma TrimAndCollapseWs_normal_witness :
  TrimAndCollapseWs (wlit "  ab" ++ [9; 10] ++ wlit "c   d ")
    = spaced (TrimAndCollapseWs (wlit "  ab"))
             (TrimAndCollapseWs ([10] ++ wlit "c   d ")) ∧
  TrimAndCollapseWs (wlit "  ab" ++ [9; 10] ++ wlit "c   d ") = wlit "ab c d".
Proof.
  split; [|vm_compute; reflexivity].
  apply (TrimAndCollapseWs_normal (wlit "  ab" ++ [9; 10] ++ wlit "c   d "))
    with (ch := 9); [reflexivity|vm_compute; reflexivity].
Defined.

(** ** Bopomofo symbols to pinyin *)

(** The three symbols that combine with U+3122 into one syllable final. *)
Definition is_medial (ch : wchar_t) : bool :=
  (ch =? 0x3127) || (ch =? 0x3128) || (ch =? 0x3129).

Lemma convert_loop_cons table ch rest :
  (is_medial ch = false ∨ head rest ≠ Some 0x3122) →
  BopomofoScheme.convert_loop table (ch :: rest) =
    BopomofoScheme.convert_char table ch ++ BopomofoScheme.convert_loop table rest.
Proof.
  intros Hcond. simpl. destruct rest as [|next rest']; [by rewrite app_nil_r|].
  unfold is_medial in Hcond. simpl in Hcond.
  destruct (next =? 0x3122) eqn:Hnext.
  - apply N.eqb_eq in Hnext. subst next.
    destruct Hcond as [Hm|Hh]; [|done].
    apply orb_false_iff in Hm as [[-> ->]%orb_false_iff ->]. done.
  - by rewrite !andb_false_r.
Qed.

Lemma convert_loop_pair table ch rest :
  is_medial ch = true →
  BopomofoScheme.convert_loop table (ch :: 0x3122 :: rest) =
    (if ch =? 0x3127 then wlit "ian" else wlit "uan")
      ++ BopomofoScheme.convert_loop table rest.
Proof.
  unfold is_medial. intros Hm. cbn [BopomofoScheme.convert_loop].
  change (0x3122 =? 0x3122) with true. rewrite !andb_true_r.
  destruct (ch =? 0x3127); [done|]. destruct (ch =? 0x3128); [done|].
  destruct (ch =? 0x3129); [done|]. done.
Qed.

(** [ConvertBopomofoToPinyin] translates symbol by symbol, a symbol without
    a table entry standing for itself, except where one of U+3127, U+3128,
    U+3129 is followed by U+3122.  An input without U+3122 is therefore
    the concatenation of the translations of its symbols, and the
    translation of a concatenation is the concatenation of the
    translations unless the cut separates such a pair. *)
Theorem convert_loop_compositional (table : gmap (list N) (list N)) (a b : wstring) :
  ((∀ ch, last a = Some ch → is_medial ch = false) ∨ head b ≠ Some 0x3122 →
   BopomofoScheme.convert_loop table (a ++ b) =
     BopomofoScheme.convert_loop table a ++ BopomofoScheme.convert_loop table b) ∧
  (0x3122 ∉ a →
   BopomofoScheme.convert_loop table a =
     concat (List.map (BopomofoScheme.convert_char table) a)).
Proof.
  split.
  - induction a as [a IH] using (induction_ltof1 _ (@length N)). unfold ltof in IH.
    intros Hcut. destruct a as [|ch [|next a']]; [done| |].
    + apply convert_loop_cons.
      destruct Hcut as [Hlast|Hhead]; [left; by apply Hlast|by right].
    + assert ((∀ c, last (next :: a') = Some c → is_medial c = false)
              ∨ head b ≠ Some 0x3122) as Hcut1.
      { destruct Hcut as [Hlast|Hhead]; [left|by right]. intros c Hc.
        apply Hlast. simpl in *. exact Hc. }
      assert ((∀ c, last a' = Some c → is_medial c = false)
              ∨ head b ≠ Some 0x3122) as Hcut2.
      { destruct Hcut as [Hlast|Hhead]; [left|by right]. intros c Hc.
        apply Hlast. destruct a'; [done|]. simpl in *. exact Hc. }
      destruct (is_medial ch && (next =? 0x3122)) eqn:Hpair.
      * apply andb_true_iff in Hpair as [Hm ->%N.eqb_eq].
        change ((ch :: 0x3122 :: a') ++ b) with (ch :: 0x3122 :: (a' ++ b)).
        rewrite !convert_loop_pair by done.
        rewrite (IH a') by (simpl; lia || done). by rewrite app_assoc.
      * change ((ch :: next :: a') ++ b) with (ch :: ((next :: a') ++ b)).
        assert (is_medial ch = false ∨ Some next ≠ Some 0x3122) as Hc.
        { apply andb_false_iff in Hpair as [?|Hn%N.eqb_neq]; [by left|right].
          congruence. }
        rewrite !convert_loop_cons by done.
        rewrite (IH (next :: a')) by (simpl; lia || done). by rewrite app_assoc.
  - induction a as [a IH] using (induction_ltof1 _ (@length N)). unfold ltof in IH.
    intros Hno. destruct a as [|ch rest]; [done|].
    rewrite convert_loop_cons.
    + simpl. rewrite IH; [done|simpl; lia|].
      intros Hin. apply Hno. by right.
    + right. destruct rest as [|next rest']; [done|]. simpl. intros [= ->].
      apply Hno. right. by left.
Qed.

(** The symbols U+3105 U+311A give "ba", and a cut after them is no cut
    through a pair. *)
Lemma convert_loop_compositional_witness :
  BopomofoScheme.ConvertBopomofoToPinyin BopomofoScheme.new
    ([0x3105; 0x311A] ++ [0x3127; 0x3122])
  = wlit "ba" ++ wlit "ian".
Proof.
  unfold BopomofoScheme.ConvertBopomofoToPinyin.
  rewrite (proj1 (convert_loop_compositional _ [0x3105; 0x311A] [0x3127; 0x3122])).
  - vm_compute. reflexivity.
  - left. intros ch [= <-]. reflexivity.
Defined.

(** ** Which dictionary the bopomofo scheme loads *)

(** Every path of the list that exists fails to load, from attempt [n]
    on. *)
Definition all_fail (host : Host) (n : nat) (paths : list (list N)) : Prop :=
  ∀ j path, paths !! j = Some path → file_exists host path = true →
    ∃ dj, LoadFromFile (file_content host) (clock host (n + j)) Dictionary_new path
            = Some (false, dj).

(** The [i]-th path exists and loads, and the existing ones before it
    fail; [entries] is what the load of that path alone gives. *)
Definition first_loadable (host : Host) (n : nat) (paths : list (list N))
    (entries : gmap (list N) (list DictEntry)) : Prop :=
  ∃ i path d0,
    paths !! i = Some path ∧ file_exists host path = true ∧
    LoadFromFile (file_content host) (clock host (n + i)) Dictionary_new path
      = Some (true, d0) ∧
    m_entries d0 = entries ∧
    all_fail host n (take i paths).

Lemma try_paths_spec host d n paths :
  let r := BopomofoScheme.try_paths host d n paths in
  if r.1 then first_loadable host n paths (m_entries r.2)
  else all_fail host n paths.
Proof.
  revert d n. induction paths as [|path rest IH]; intros d n; simpl.
  { intros j p. by rewrite lookup_nil. }
  assert (∀ d1, (let r := BopomofoScheme.try_paths host d1 (S n) rest in
                 if r.1 then first_loadable host n (path :: rest) (m_entries r.2)
                 else all_fail host n (path :: rest)) ∨
                file_exists host path = true ∧
                ∃ dj, LoadFromFile (file_content host) (clock host n) Dictionary_new
                        path = Some (true, dj)) as Hrest.
  { intros d1. destruct (file_exists host path) eqn:Hex.
    - destruct (LoadFromFile_total (file_content host) (clock host n)
                  Dictionary_new path) as [[[] dj] Hload]; [right; eauto|].
      left. specialize (IH d1 (S n)). simpl in *.
      destruct (BopomofoScheme.try_paths host d1 (S n) rest) as [[] d2]; simpl in *.
      + destruct IH as (i & p & d0 & Hi & Hpex & Hl & He & Hfail).
        exists (S i), p, d0. rewrite Nat.add_succ_comm in Hl.
        split_and!; [done..|].
        intros [|j] q Hq Hqex; simpl in Hq.
        * simplify_eq. rewrite Nat.add_0_r. eauto.
        * rewrite Nat.add_succ_r, <-Nat.add_succ_l. by eapply Hfail.
      + intros [|j] q Hq Hqex; simpl in Hq.
        * simplify_eq. rewrite Nat.add_0_r. eauto.
        * rewrite Nat.add_succ_r, <-Nat.add_succ_l. by eapply IH.
    - left. specialize (IH d1 (S n)). simpl in *.
      destruct (BopomofoScheme.try_paths host d1 (S n) rest) as [[] d2]; simpl in *.
      + destruct IH as (i & p & d0 & Hi & Hpex & Hl & He & Hfail).
        exists (S i), p, d0. rewrite Nat.add_succ_comm in Hl.
        split_and!; [done..|].
        intros [|j] q Hq Hqex; simpl in Hq; [simplify_eq; congruence|].
        rewrite Nat.add_succ_r, <-Nat.add_succ_l. by eapply Hfail.
      + intros [|j] q Hq Hqex; simpl in Hq; [simplify_eq; congruence|].
        rewrite Nat.add_succ_r, <-Nat.add_succ_l. by eapply IH. }
  destruct (file_exists host path) eqn:Hex; simpl.
  - destruct (LoadFromFile (file_content host) (clock host n) d path)
      as [[[] d1]|] eqn:Hload; simpl.
    + destruct (LoadFromFile_discards _ _ _ Dictionary_new _ _ _ Hload)
        as (d0 & Hload0 & He).
      exists 0%nat, path, d0. rewrite Nat.add_0_r.
      split_and!; [done..|]. intros j q. by rewrite take_0, lookup_nil.
    + destruct (Hrest d1) as [H1|[_ [dj Hdj]]]; [exact H1|].
      destruct (LoadFromFile_discards _ _ _ Dictionary_new _ _ _ Hload)
        as (d0 & Hload0 & _). congruence.
    + by destruct (LoadFromFile_total (file_content host) (clock host n) d path)
        as [? ?]; congruence.
  - destruct (Hrest d) as [H1|[? _]]; [exact H1|congruence].
Qed.

(** A scheme that holds a loaded dictionary keeps it without touching any
    file.  Otherwise the scheme ends up with the content of the first path
    of its list that exists and loads, exactly as that file alone gives it:
    nothing a file that failed earlier had stored remains.  When no path
    loads, the scheme reports failure. *)
Theorem first_loadable_dictionary (host : Host) (s : BopomofoScheme.t) :
  let b := (BopomofoScheme.EnsureDictionaryLoaded host s).1 in
  let s' := (BopomofoScheme.EnsureDictionaryLoaded host s).2 in
  (BopomofoScheme.m_dictionaryLoaded s = true →
   is_Some (BopomofoScheme.m_dictionary s) → b = true ∧ s' = s) ∧
  (BopomofoScheme.m_dictionaryLoaded s = false ∨ BopomofoScheme.m_dictionary s = None →
   BopomofoScheme.m_dictionaryLoaded s' = b ∧
   BopomofoScheme.m_userWords s' = BopomofoScheme.m_userWords s ∧
   ∃ d', BopomofoScheme.m_dictionary s' = Some d' ∧
         if b then first_loadable host 0 (BopomofoScheme.dictionary_paths host)
                                  (m_entries d')
         else all_fail host 0 (BopomofoScheme.dictionary_paths host)).
Proof.
  intros b s'. subst b s'. unfold BopomofoScheme.EnsureDictionaryLoaded. split.
  - intros -> Hd. by rewrite bool_decide_eq_true_2.
  - intros Hnot.
    assert (BopomofoScheme.m_dictionaryLoaded s
              && bool_decide (is_Some (BopomofoScheme.m_dictionary s)) = false) as ->.
    { destruct Hnot as [->| ->]; [done|]. rewrite bool_decide_eq_false_2.
      - apply andb_false_r.
      - by intros [? ?]. }
    pose proof (try_paths_spec host Dictionary_new 0
                  (BopomofoScheme.dictionary_paths host)) as Hspec.
    destruct (BopomofoScheme.try_paths host Dictionary_new 0 _) as [b d'].
    simpl in *. split_and!; [done..|]. by exists d'.
Qed.

(** A host where only the second repository path exists: the scheme loads
    it. *)
Definition repo_host : Host :=
  {| dict_dir_var := [];
     exe_dir := [];
     file_exists := λ path, bool_decide (path = wlit "dicts/bopomofo.dict.json");
     file_content := λ path,
       if bool_decide (path = wlit "dicts/bopomofo.dict.json")
       then Some (List.map (λ ch, if ch =? 39 then 34 else ch)
                    (wlit "{'entries': {'a b': [{'word': 'x', 'frequency': 7}]}}"))
       else None;
     clock := λ _, wlit "now" |}.

Lemma first_loadable_dictionary_witness :
  (BopomofoScheme.EnsureDictionaryLoaded repo_host BopomofoScheme.new).1 = true ∧
  ∃ d', BopomofoScheme.m_dictionary
          (BopomofoScheme.EnsureDictionaryLoaded repo_host BopomofoScheme.new).2
          = Some d' ∧
        first_loadable repo_host 0 (BopomofoScheme.dictionary_paths repo_host)
                       (m_entries d').
Proof.
  destruct (first_loadable_dictionary repo_host BopomofoScheme.new) as [_ Hload].
  destruct Hload as (_ & _ & d' & Hd & Hfirst); [by left|].
  assert ((BopomofoScheme.EnsureDictionaryLoaded repo_host BopomofoScheme.new).1
            = true) as Hb by (vm_compute; reflexivity).
  rewrite Hb in Hfirst. split; [done|]. by exists d'.
Defined.

(** ** Candidates of the bopomofo scheme *)

Lemma cand_freq_gt_swo : StrictWeakOrder cand_freq_gt.
Proof. apply (key_gt_swo cand_frequency). Qed.

Lemma valid_loop_true table input :
  BopomofoScheme.valid_loop table input = true ↔
  ∃ ch, ch ∈ input ∧ ch ≠ 32 ∧ is_Some (table !! [ch]).
Proof.
  induction input as [|ch input IH]; simpl.
  { split; [done|]. by intros (? & ?%elem_of_nil & _). }
  destruct (ch =? 32) eqn:Hsp.
  - apply N.eqb_eq in Hsp. subst ch. rewrite IH. split.
    + intros (c & Hc & Hne & Hs). exists c. split; [by right|done].
    + intros (c & [->|Hc]%elem_of_cons & Hne & Hs); [done|]. by exists c.
  - apply N.eqb_neq in Hsp. case_bool_decide as Hmapped.
    + split; [|done]. intros _. exists ch. split; [by left|done].
    + rewrite IH. split.
      * intros (c & Hc & Hne & Hs). exists c. split; [by right|done].
      * intros (c & [->|Hc]%elem_of_cons & Hne & Hs); [done|]. by exists c.
Qed.

Lemma find_entries_from d key e :
  e ∈ BopomofoScheme.find_entries d key →
  ∃ key', e ∈ Lookup d key' ∧
          BopomofoScheme.ParseBopomofoInput key'
            = BopomofoScheme.ParseBopomofoInput key.
Proof.
  unfold BopomofoScheme.find_entries.
  destruct (Lookup d key) as [|e0 es] eqn:Hl.
  - destruct (BopomofoScheme.ParseBopomofoInput key) as [|c needle] eqn:Hn;
      [by intros ?%elem_of_nil|].
    destruct (List.find _ _) as [[key' entries]|] eqn:Hfind;
      [|by intros ?%elem_of_nil].
    apply find_some in Hfind as [Hin Hmatch]. simpl in *.
    apply bool_decide_eq_true in Hmatch.
    apply list_elem_of_In in Hin. unfold in_key_order in Hin.
    rewrite merge_sort_Permutation in Hin.
    apply elem_of_map_to_list in Hin.
    intros He. exists key'. split; [|done]. unfold Lookup. by rewrite Hin.
  - intros He. exists key. by rewrite Hl.
Qed.

(** After a successful [EnsureDictionaryLoaded] the scheme holds a
    dictionary, and its user words are as before. *)
Lemma EnsureDictionaryLoaded_holds (host : Host) (s : BopomofoScheme.t) :
  (BopomofoScheme.EnsureDictionaryLoaded host s).1 = true →
  ∃ d, BopomofoScheme.m_dictionary (BopomofoScheme.EnsureDictionaryLoaded host s).2
         = Some d ∧
       BopomofoScheme.m_userWords (BopomofoScheme.EnsureDictionaryLoaded host s).2
         = BopomofoScheme.m_userWords s.
Proof.
  unfold BopomofoScheme.EnsureDictionaryLoaded.
  destruct (BopomofoScheme.m_dictionaryLoaded s
              && bool_decide (is_Some (BopomofoScheme.m_dictionary s))) eqn:Hheld.
  - apply andb_true_iff in Hheld as [_ [d Hd]%bool_decide_eq_true].
    intros _. by exists d.
  - destruct (BopomofoScheme.try_paths host Dictionary_new 0 _) as [loaded d].
    intros _. by exists d.
Qed.

(** The bopomofo scheme returns at most ten candidates, in an order in
    which frequencies never increase.  Each comes from an entry of the
    loaded dictionary under a key that, spaces aside, is the normalised
    input, and carries the frequency of the entry as an [int], plus the
    boost the user gave its word, if any, as the machine adds two [int].
    An input without a bopomofo symbol gives no
    candidate and does not make the scheme load its dictionary; a
    dictionary that does not load gives no candidate either. *)
Theorem bopomofo_candidates `{StdSort} (host : Host) (s : BopomofoScheme.t)
    (input : wstring) :
  let cs := (BopomofoScheme.GetCandidates host s input).1 in
  let s' := (BopomofoScheme.GetCandidates host s input).2 in
  (length cs ≤ 10)%nat ∧
  (∀ i j a b, (i < j)%nat → cs !! i = Some a → cs !! j = Some b →
     (cand_frequency b ≤ cand_frequency a)%Z) ∧
  (∀ c, c ∈ cs →
     ∃ d key e,
       BopomofoScheme.m_dictionary s' = Some d ∧ e ∈ Lookup d key ∧
       BopomofoScheme.ParseBopomofoInput key
         = BopomofoScheme.ParseBopomofoInput
             (BopomofoScheme.NormalizeForLookup input) ∧
       c = BopomofoScheme.to_candidate (BopomofoScheme.m_userWords s) e ∧
       cand_frequency c =
         match BopomofoScheme.m_userWords s !! word e with
         | Some boost => wrap_int (int_of_unsigned (frequency e) + boost)
         | None => int_of_unsigned (frequency e)
         end) ∧
  ((∀ ch, ch ∈ input → ch = 32 ∨ BopomofoScheme.m_bopomofoToPinyin s !! [ch] = None) →
   cs = [] ∧ s' = s) ∧
  ((BopomofoScheme.EnsureDictionaryLoaded host s).1 = false → cs = []).
Proof.
  intros cs s'. subst cs s'. unfold BopomofoScheme.GetCandidates.
  destruct (BopomofoScheme.IsValidBopomofoInput s input) eqn:Hvalid; simpl.
  - assert (¬ ∀ ch, ch ∈ input →
              ch = 32 ∨ BopomofoScheme.m_bopomofoToPinyin s !! [ch] = None) as Hsome.
    { intros Hnone. unfold BopomofoScheme.IsValidBopomofoInput in Hvalid.
      destruct input as [|c0 input0] eqn:Ein; [done|]. rewrite <-Ein in *.
      apply valid_loop_true in Hvalid as (ch & Hin & Hne & [v Hv]).
      destruct (Hnone ch Hin); congruence. }
    pose proof (EnsureDictionaryLoaded_holds host s) as Hholds.
    destruct (BopomofoScheme.EnsureDictionaryLoaded host s) as [loaded s1] eqn:He.
    simpl in *. destruct loaded; simpl;
      [|split_and!; [lia|by intros ????; rewrite lookup_nil
                    |by intros ? ?%elem_of_nil|done|done]].
    destruct (Hholds eq_refl) as (d & Hd & Hwords).
    rewrite Hd, Hwords. simpl.
    set (cands := List.map _ _).
    pose proof (std_sort_perm cand_freq_gt cands cand_freq_gt_swo) as Hperm.
    pose proof (std_sort_sorted cand_freq_gt cands cand_freq_gt_swo) as Hsorted.
    set (sorted := std_sort cand_freq_gt cands) in *.
    assert ((if (10 <? length sorted)%nat then take 10 sorted else sorted)
              = take 10 sorted) as ->.
    { case_match eqn:Hten; [done|]. apply Nat.ltb_ge in Hten. by rewrite take_ge. }
    split_and!; [rewrite length_take; lia| | |done|done].
    + intros i j a b Hij Hi Hj.
      assert (cand_freq_gt b a = false) as Hab.
      { apply (StronglySorted_lookup (λ x y, cand_freq_gt y x = false)
                 (take 10 sorted) i j a b); [|done..].
        eapply StronglySorted_sublist; [apply sublist_take|exact Hsorted]. }
      unfold cand_freq_gt in Hab. by apply Z.ltb_ge in Hab.
    + intros c Hc.
      assert (c ∈ cands) as Hin.
      { rewrite <-Hperm. eapply elem_of_sublist; [exact Hc|apply sublist_take]. }
      apply list_elem_of_In, in_map_iff in Hin as (e & <- & He').
      apply list_elem_of_In, find_entries_from in He' as (key & Hk & Hstrip).
      exists d, key, e. by split_and!.
  - split_and!; [lia|by intros ????; rewrite lookup_nil
                |by intros ? ?%elem_of_nil|done|done].
Qed.

(** A host whose second repository path holds one entry of frequency
    2147483647 under the symbols U+310B U+3127. *)
Definition bpmf_host : Host :=
  {| dict_dir_var := [];
     exe_dir := [];
     file_exists := λ path, bool_decide (path = wlit "dicts/bopomofo.dict.json");
     file_content := λ path,
       if bool_decide (path = wlit "dicts/bopomofo.dict.json")
       then Some (List.map (λ ch, if ch =? 39 then 34 else ch)
                    (wlit "{'entries': {'" ++ [0x310B; 0x3127]
                       ++ wlit "': [{'word': 'x', 'frequency': 2147483647}]}}"))
       else None;
     clock := λ _, wlit "now" |}.

(** After [AddWord] of "x" with the boost 1 the entry of frequency
    2147483647 comes back with the frequency -2147483648.  A Latin letter
    is no bopomofo symbol: no candidate, and the scheme is left as it was,
    without a dictionary. *)
Lemma bopomofo_candidates_witness :
  let S := keep_ties_sort in
  let s := BopomofoScheme.AddWord BopomofoScheme.new (wlit "x") 1 in
  (BopomofoScheme.GetCandidates bpmf_host s [0x310B; 0x3127]).1
    = [mkCandidate (wlit "x") (-2147483648) []] ∧
  (∃ e, mkCandidate (wlit "x") (-2147483648) []
          = BopomofoScheme.to_candidate (BopomofoScheme.m_userWords s) e ∧
        cand_frequency (mkCandidate (wlit "x") (-2147483648) [])
          = match BopomofoScheme.m_userWords s !! word e with
            | Some boost => wrap_int (int_of_unsigned (frequency e) + boost)
            | None => int_of_unsigned (frequency e)
            end) ∧
  (BopomofoScheme.GetCandidates repo_host BopomofoScheme.new (wlit "n")).1 = [] ∧
  (BopomofoScheme.GetCandidates repo_host BopomofoScheme.new (wlit "n")).2
    = BopomofoScheme.new.
Proof.
  intros S s.
  assert ((BopomofoScheme.GetCandidates bpmf_host s [0x310B; 0x3127]).1
            = [mkCandidate (wlit "x") (-2147483648) []]) as Hcs
    by (vm_compute; reflexivity).
  split; [exact Hcs|]. split.
  - destruct (bopomofo_candidates bpmf_host s [0x310B; 0x3127])
      as (_ & _ & Hfrom & _).
    destruct (Hfrom (mkCandidate (wlit "x") (-2147483648) []))
      as (d & key & e & _ & _ & _ & Hc & Hfreq); [rewrite Hcs; by left|].
    by exists e.
  - apply (bopomofo_candidates repo_host BopomofoScheme.new (wlit "n")).
    intros ch [->|Hin%elem_of_nil]%elem_of_cons; [|done].
    right. vm_compute. reflexivity.
Defined.

(** ** The dictionary of the engine *)

Lemma Lookup_AddEntry d pron entry key :
  Lookup (AddEntry d pron entry) key =
    if bool_decide (key = pron) then Lookup d key ++ [entry] else Lookup d key.
Proof.
  unfold Lookup, AddEntry, push_entry. simpl. case_bool_decide as Hk.
  - subst key. rewrite lookup_insert_eq. by destruct (m_entries d !! pron).
  - by rewrite lookup_insert_ne.
Qed.

Lemma Lookup_add_fallback d key :
  Lookup (ImeEngine.add_fallback d) key =
    Lookup d key ++ Lookup (ImeEngine.add_fallback Dictionary_new) key.
Proof.
  unfold ImeEngine.add_fallback, ImeEngine.fallback_entries. simpl.
  rewrite !Lookup_AddEntry.
  assert (Lookup Dictionary_new key = []) as -> by reflexivity.
  repeat case_bool_decide; subst; simpl; rewrite ?app_nil_r; try done;
    exfalso; discriminate.
Qed.

Lemma AddEntry_nonempty d pron entry : m_entries (AddEntry d pron entry) ≠ ∅.
Proof.
  unfold AddEntry, push_entry. simpl. apply insert_non_empty.
Qed.

(** After [Initialize] the dictionary of the engine is never empty.  When
    a dictionary file loads, the dictionary is what the file holds.  When
    none is found, or the load fails, the six fallback entries follow, under
    each key, whatever the failed load left behind; there is nothing left
    behind when the file could not be opened. *)
Theorem engine_dictionary_never_empty (host : Host) :
  let d := ImeEngine.InitializeDictionary host in
  let path := ImeEngine.ResolveDictPath host (wlit "pinyin.dict.json") in
  m_entries d ≠ ∅ ∧
  (∀ d', path ≠ [] →
     LoadFromFile (file_content host) (clock host 0) Dictionary_new path
       = Some (true, d') → d = d') ∧
  (∀ d', path ≠ [] →
     LoadFromFile (file_content host) (clock host 0) Dictionary_new path
       = Some (false, d') →
     ∀ key, Lookup d key
            = Lookup d' key ++ Lookup (ImeEngine.add_fallback Dictionary_new) key) ∧
  (path = [] ∨ file_content host path = None →
   m_entries d = m_entries (ImeEngine.add_fallback Dictionary_new)).
Proof.
  intros d path. subst d path. unfold ImeEngine.InitializeDictionary.
  set (path := ImeEngine.ResolveDictPath host (wlit "pinyin.dict.json")).
  assert (∀ d0, m_entries (ImeEngine.add_fallback d0) ≠ ∅) as Hfb.
  { intros d0. apply AddEntry_nonempty. }
  destruct path as [|c path'] eqn:Hpath; [split_and!; try done; auto|].
  destruct (LoadFromFile (file_content host) (clock host 0) Dictionary_new (c :: path'))
    as [[[] d']|] eqn:Hload.
  - split_and!.
    + revert Hload. unfold LoadFromFile.
      destruct (file_content host (c :: path')) as [content|]; [|done].
      destruct (load_content _ content) as [m [?| |]]; intros [= Hb <-]; simpl.
      by apply negb_true_iff, bool_decide_eq_false in Hb.
    + by intros d0 _ [= <-].
    + by intros d0 _ [=].
    + intros [?|Hnone]; [done|]. unfold LoadFromFile in Hload.
      by rewrite Hnone in Hload.
  - split_and!.
    + apply Hfb.
    + by intros d0 _ [=].
    + intros d0 _ [= <-] key. apply Lookup_add_fallback.
    + intros [?|Hnone]; [done|]. unfold LoadFromFile in Hload.
      rewrite Hnone in Hload. by simplify_eq.
  - destruct (LoadFromFile_total (file_content host) (clock host 0)
                Dictionary_new (c :: path')) as [? ?]. congruence.
Qed.

(** On a host without any dictionary file the engine serves the fallback
    entries. *)
Lemma engine_dictionary_never_empty_witness :
  let host := mkHost [] [] (λ _, false) (λ _, None) (λ _, wlit "now") in
  m_entries (ImeEngine.InitializeDictionary host)
    = m_entries (ImeEngine.add_fallback Dictionary_new) ∧
  List.map word (Lookup (ImeEngine.InitializeDictionary host) (wlit "ni hao"))
    = [wlit "NiHao"].
Proof.
  intros host. split; [|vm_compute; reflexivity].
  apply (engine_dictionary_never_empty host). left. vm_compute. reflexivity.
Defined.

(** ** What a loaded dictionary looks like *)

(** An entry as the loader stores it under a key: its frequency fits 32
    bits, and its pronunciation is empty only under the empty key. *)
Definition entry_loaded (key : wstring) (e : DictEntry) : Prop :=
  frequency e < 2 ^ 32 ∧ (pronunciation e = [] → key = []).

(** Every key holds at least one entry, and every entry is as the loader
    stores it. *)
Definition entries_loaded (m : gmap (list N) (list DictEntry)) : Prop :=
  map_Forall (λ key entries, entries ≠ [] ∧ Forall (entry_loaded key) entries) m.

Lemma ParseUnsigned_range s v rest : ParseUnsigned s = ok (v, rest) → v < 2 ^ 32.
Proof.
  unfold ParseUnsigned. destruct (SkipWs s) as [|ch s']; [done|].
  destruct (iswdigit ch); [|done].
  destruct (digits_loop 0 (ch :: s')) as [value r]. intros [= <- _].
  apply N.mod_lt. done.
Qed.

Lemma entry_field_range fuel key s entry entry' rest :
  frequency entry < 2 ^ 32 →
  entry_field fuel key s entry = ok (entry', rest) →
  frequency entry' < 2 ^ 32.
Proof.
  intros Hf. unfold entry_field. repeat case_bool_decide.
  - destruct (ParseString s) as [[w s1]| |]; simpl; intros [= <- _]; done.
  - destruct (ParseUnsigned s) as [[f s1]| |] eqn:Hp; simpl; intros [= <- _].
    simpl. by eapply ParseUnsigned_range.
  - destruct (ParseString s) as [[w s1]| |]; simpl; intros [= <- _]; done.
  - destruct (ParseTags fuel s) as [[t s1]| |]; simpl; intros [= <- _]; done.
  - destruct (SkipValue fuel s) as [s1| |]; simpl; intros [= <- _]; done.
Qed.

Lemma entry_loop_range fuel s entry entry' rest :
  frequency entry < 2 ^ 32 →
  entry_loop fuel s entry = ok (entry', rest) →
  frequency entry' < 2 ^ 32.
Proof.
  revert s entry. induction fuel as [|fuel IH]; intros s entry Hf; simpl; [done|].
  destruct s as [|c0 s0] eqn:Es; [done|]. rewrite <-Es. clear Es.
  destruct (SkipWs s) as [|c s']; [done|].
  case_match; [by intros [= <- _]|].
  destruct (ParseString (c :: s')) as [[key s1]| |]; simpl; [|done..].
  destruct (Consume s1 58) as [s2| |]; simpl; [|done..].
  destruct (entry_field fuel key s2 entry) as [[entry1 s3]| |] eqn:Hfield;
    simpl; [|done..].
  apply IH. by eapply entry_field_range.
Qed.

Lemma ParseEntryObject_range fuel s entry rest :
  ParseEntryObject fuel s = ok (entry, rest) → frequency entry < 2 ^ 32.
Proof.
  unfold ParseEntryObject. destruct (Consume s 123) as [s1| |]; simpl; [|done..].
  apply entry_loop_range. simpl. done.
Qed.

Lemma store_entry_loaded pronKey entry m :
  frequency entry < 2 ^ 32 → entries_loaded m →
  entries_loaded (store_entry pronKey entry m).
Proof.
  intros Hf Hm. unfold store_entry, push_entry.
  apply map_Forall_insert_2; [|done]. split.
  - by destruct (default [] (m !! pronKey)).
  - apply Forall_app. split.
    + destruct (m !! pronKey) as [old|] eqn:Hold; simpl; [|constructor].
      by apply (Hm pronKey old).
    + constructor; [|constructor].
      destruct (pronunciation entry) eqn:Hp; split; simpl; try done.
      by rewrite Hp.
Qed.

Lemma entries_loop_loaded fuel s pronKey m :
  entries_loaded m → entries_loaded (entries_loop fuel s pronKey m).1.
Proof.
  revert s m. induction fuel as [|fuel IH]; intros s m Hm; simpl; [done|].
  destruct s as [|c0 s0] eqn:Es; [done|]. rewrite <-Es. clear Es.
  destruct (ParseEntryObject fuel s) as [[entry s1]| |] eqn:Hp; simpl; [|done..].
  apply ParseEntryObject_range in Hp.
  pose proof (store_entry_loaded pronKey entry m Hp Hm) as Hm'.
  destruct (SkipWs s1) as [|c s2]; simpl; [done|].
  destruct (c =? 44); [by apply IH|done].
Qed.

Lemma keys_loop_loaded fuel s m :
  entries_loaded m → entries_loaded (keys_loop fuel s m).1.
Proof.
  revert s m. induction fuel as [|fuel IH]; intros s m Hm; simpl; [done|].
  destruct s as [|c0 s0] eqn:Es; [done|]. rewrite <-Es. clear Es.
  destruct (SkipWs s) as [|c s']; [done|].
  case_match; [done|].
  destruct (key_header (c :: s')) as [[pronKey s3]| |]; simpl; [|done..].
  assert (entries_loaded
            (match SkipWs s3 with
             | [] => (m, ok (SkipWs s3))
             | c4 :: _ =>
                 if negb (c4 =? 93) then entries_loop fuel (SkipWs s3) pronKey m
                 else (m, ok (SkipWs s3))
             end).1) as Hm1.
  { destruct (SkipWs s3) as [|c4 s4]; [done|].
    destruct (negb (c4 =? 93)); [by apply entries_loop_loaded|done]. }
  destruct (match SkipWs s3 with [] => _ | _ :: _ => _ end) as [m1 r]. simpl in Hm1.
  destruct r as [s5| |]; simpl; [|done..].
  destruct (Consume s5 93) as [s6| |]; simpl; [|done..].
  by apply IH.
Qed.

Lemma entries_loaded_count m mv mc mu :
  entries_loaded m → m ≠ ∅ → (0 < entry_count (mkDictionary m mv mc mu))%nat.
Proof.
  intros Hm Hne.
  destruct (map_choose m Hne) as (k & v & Hk).
  destruct (Hm k v Hk) as [Hv _].
  rewrite <-(insert_delete_id m k v) by done.
  rewrite entry_count_insert_fresh by apply lookup_delete_eq.
  destruct v; [done|]. simpl. lia.
Qed.

(** Whatever [LoadFromFile] leaves in a dictionary, on success or failure,
    is well formed: no key without entries, every frequency below 2^32,
    and an empty pronunciation replaced by the key.  The version and the
    creation time are never changed, and a successful load leaves at least
    one entry and the current time as the update time. *)
Theorem loaded_dictionary_wellformed (fs : list N → option (list N)) (now : wstring)
    (d : Dictionary) (filePath : wstring) (b : bool) (d' : Dictionary) :
  LoadFromFile fs now d filePath = Some (b, d') →
  (∀ key entries, m_entries d' !! key = Some entries →
     entries ≠ [] ∧
     ∀ e, e ∈ entries →
       frequency e < 2 ^ 32 ∧ (pronunciation e = [] → key = [])) ∧
  m_version d' = m_version d ∧ m_createdAt d' = m_createdAt d ∧
  (b = true → (0 < entry_count d')%nat ∧ m_updatedAt d' = now) ∧
  (entry_count d' = 0%nat ↔ m_entries d' = ∅).
Proof.
  intros Hload.
  assert (entries_loaded (m_entries d') ∧
          m_version d' = m_version d ∧ m_createdAt d' = m_createdAt d ∧
          (b = true → m_entries d' ≠ ∅ ∧ m_updatedAt d' = now))
    as (Hwf & Hv & Hc & Hb).
  { revert Hload. unfold LoadFromFile. destruct (fs filePath) as [content|].
    - assert (entries_loaded (load_content (2 * length content + 2) content).1)
        as Hwf.
      { unfold load_content. destruct (find_sub _ content) as [s|]; [|done].
        destruct (find_char 58 s) as [s1|]; [|done].
        destruct (Consume (tail s1) 123) as [s2| |]; [|done..].
        by apply keys_loop_loaded. }
      destruct (load_content _ content) as [m [s| |]]; intros [= <- <-];
        simpl in *; split_and!; try done.
      intros Hb%negb_true_iff%bool_decide_eq_false. done.
    - intros [= <- <-]. simpl. split_and!; done. }
  split_and!; [|done|done| |].
  - intros key entries Hk. destruct (Hwf key entries Hk) as [Hne Hall].
    split; [done|]. intros e He. rewrite Forall_forall in Hall. by apply Hall.
  - intros Hbt. destruct (Hb Hbt) as [Hne Hu]. split; [|done].
    destruct d' as [m mv mc mu]. by apply entries_loaded_count.
  - split; [|apply entry_count_empty].
    intros Hzero. destruct (decide (m_entries d' = ∅)) as [|Hne]; [done|].
    destruct d' as [m mv mc mu]. simpl in *.
    pose proof (entries_loaded_count m mv mc mu Hwf Hne). lia.
Qed.

(** The truncated file: its one entry had no pronunciation and got the
    key "a". *)
Lemma loaded_dictionary_wellformed_witness :
  ∃ d', LoadFromFile (λ _, Some truncated_file) (wlit "now") Dictionary_new
          (wlit "cut.json") = Some (false, d') ∧
        List.map pronunciation (Lookup d' (wlit "a")) = [wlit "a"] ∧
        (entry_count d' = 0%nat ↔ m_entries d' = ∅).
Proof.
  destruct (LoadFromFile (λ _, Some truncated_file) (wlit "now") Dictionary_new
              (wlit "cut.json")) as [[b d']|] eqn:Hload; [|vm_compute in Hload; done].
  assert (b = false) as -> by (vm_compute in Hload; congruence).
  exists d'. split; [done|]. split.
  - vm_compute in Hload. injection Hload as <-. vm_compute. reflexivity.
  - apply (loaded_dictionary_wellformed (λ _, Some truncated_file) (wlit "now")
             Dictionary_new (wlit "cut.json") false d' Hload).
Defined.


(** ** Reading back what was written *)

(** White space only. *)
Definition blank (ws : wstring) : Prop := Forall (λ ch, iswspace ch = true) ws.

(** A string that [SaveToFile] writes as it is and [ParseString] reads as
    it is: no quotation mark and no backslash. *)
Definition plain (w : wstring) : Prop := Forall (λ ch, ch ≠ 34 ∧ ch ≠ 92) w.

(** The result of a helper run with some counter: the expected value,
    unless the counter was too small. *)
Definition reads {A} (r : res A) (expected : A) : Prop :=
  r = nofuel ∨ r = ok expected.

Lemma SkipWs_blank ws ch rest :
  blank ws → iswspace ch = false → SkipWs (ws ++ ch :: rest) = ch :: rest.
Proof.
  intros Hws Hch. rewrite SkipWs_spaces by done. by apply SkipWs_non_space.
Qed.

Lemma Consume_blank ws ch rest :
  blank ws → iswspace ch = false → Consume (ws ++ ch :: rest) ch = ok rest.
Proof.
  intros Hws Hch. unfold Consume. rewrite SkipWs_blank by done.
  by rewrite N.eqb_refl.
Qed.

Lemma Consume_here ch rest :
  iswspace ch = false → Consume (ch :: rest) ch = ok rest.
Proof. intros Hch. apply (Consume_blank [] ch rest); [constructor|done]. Qed.

Lemma string_body_plain w rest result :
  plain w → string_body (w ++ 34 :: rest) result = ok (result ++ w, rest).
Proof.
  intros Hw. revert result.
  induction Hw as [|ch w [Hq Hb] _ IH]; intros result; simpl.
  - by rewrite app_nil_r.
  - rewrite (proj2 (N.eqb_neq ch 34) Hq), (proj2 (N.eqb_neq ch 92) Hb).
    rewrite IH. by rewrite <-app_assoc.
Qed.

Lemma ParseString_plain ws w rest :
  blank ws → plain w → ParseString (ws ++ 34 :: w ++ 34 :: rest) = ok (w, rest).
Proof.
  intros Hws Hw. unfold ParseString. rewrite SkipWs_blank by done.
  change (34 =? 34) with true. cbv iota. by rewrite string_body_plain.
Qed.

Lemma ParseString_quoted w rest :
  plain w → ParseString (34 :: w ++ 34 :: rest) = ok (w, rest).
Proof. intros Hw. apply (ParseString_plain [] w rest); [constructor|done]. Qed.

Lemma skip_comma_comma s : skip_comma (44 :: s) = s.
Proof. reflexivity. Qed.

Lemma skip_comma_blank ws ch rest :
  blank ws → iswspace ch = false → ch ≠ 44 →
  skip_comma (ws ++ ch :: rest) = ch :: rest.
Proof.
  intros Hws Hch Hne. unfold skip_comma. rewrite SkipWs_blank by done.
  by rewrite (proj2 (N.eqb_neq ch 44) Hne).
Qed.

(** *** Numbers *)

Lemma digits_of_S fuel n acc :
  digits_of (S fuel) n acc =
    if n <? 10 then (48 + n mod 10) :: acc
    else digits_of fuel (n / 10) ((48 + n mod 10) :: acc).
Proof. reflexivity. Qed.

Lemma digits_of_spec fuel n acc :
  n < 10 ^ N.of_nat (S fuel) →
  ∃ digits, digits_of (S fuel) n acc = digits ++ acc ∧ digits ≠ [] ∧
            Forall (λ ch, iswdigit ch = true) digits ∧ decimal_value digits = n.
Proof.
  revert n acc. induction fuel as [|fuel IH]; intros n acc Hn.
  - change (10 ^ N.of_nat 1) with 10 in Hn. simpl.
    rewrite (proj2 (N.ltb_lt n 10) Hn). exists [48 + n mod 10].
    split_and!; [done|done| |].
    + constructor; [|constructor]. apply iswdigit_range.
      pose proof (N.mod_lt n 10 ltac:(lia)) as Hm. revert Hm.
        generalize (n mod 10). intros m Hm. lia.
    + unfold decimal_value, decimal_value_from. simpl.
      rewrite N.mod_small by done. lia.
  - rewrite digits_of_S. destruct (n <? 10) eqn:Hsmall.
    + exists [48 + n mod 10]. apply N.ltb_lt in Hsmall.
      split_and!; [done|done| |].
      * constructor; [|constructor]. apply iswdigit_range.
        pose proof (N.mod_lt n 10 ltac:(lia)) as Hm. revert Hm.
        generalize (n mod 10). intros m Hm. lia.
      * unfold decimal_value, decimal_value_from. simpl.
        rewrite N.mod_small by done. lia.
    + apply N.ltb_ge in Hsmall.
      destruct (IH (n / 10) ((48 + n mod 10) :: acc)) as (pre & Hpre & _ & Hd & Hv).
      { apply N.Div0.div_lt_upper_bound.
        rewrite Nat2N.inj_succ, N.pow_succ_r' in Hn. lia. }
      exists (pre ++ [48 + n mod 10]). split_and!.
      * rewrite Hpre. by rewrite <-app_assoc.
      * by destruct pre.
      * apply Forall_app. split; [done|]. constructor; [|constructor].
        apply iswdigit_range. pose proof (N.mod_lt n 10 ltac:(lia)) as Hm. revert Hm.
        generalize (n mod 10). intros m Hm. lia.
      * unfold decimal_value, decimal_value_from in *.
        rewrite fold_left_app, Hv. simpl.
        pose proof (N.div_mod n 10 ltac:(lia)) as Hdm. revert Hdm.
        generalize (n / 10) (n mod 10). intros q r Hdm. lia.
Qed.

Lemma print_unsigned_spec n :
  n < 2 ^ 32 →
  print_unsigned n ≠ [] ∧ Forall (λ ch, iswdigit ch = true) (print_unsigned n) ∧
  decimal_value (print_unsigned n) = n.
Proof.
  intros Hn. unfold print_unsigned.
  destruct (digits_of_spec 9 n []) as (digits & Hd & Hne & Hall & Hv).
  { change (10 ^ N.of_nat 10) with 10000000000.
    change (2 ^ 32) with 4294967296 in Hn. lia. }
  rewrite Hd, app_nil_r. done.
Qed.

Lemma ParseUnsigned_print ws n rest :
  blank ws → n < 2 ^ 32 → ends_number rest →
  ParseUnsigned (ws ++ print_unsigned n ++ rest) = ok (n, rest).
Proof.
  intros Hws Hn Hrest.
  destruct (print_unsigned_spec n Hn) as (Hne & Hdigits & Hv).
  destruct (print_unsigned n) as [|ch digits] eqn:Hp; [done|].
  pose proof (Forall_inv Hdigits) as Hch. simpl in Hch.
  unfold ParseUnsigned. rewrite <-app_comm_cons.
  rewrite SkipWs_blank by (done || by apply iswdigit_not_space).
  rewrite Hch, app_comm_cons.
  change 0 with (N.min 0 0xFFFFFFFF) at 1.
  rewrite digits_loop_value by done.
  fold (decimal_value (ch :: digits)). rewrite Hv.
  change (2 ^ 32) with 4294967296 in *.
  rewrite N.min_l by lia. by rewrite N.mod_small.
Qed.

(** *** Tags *)

Lemma blank_literal (ws : wstring) : forallb iswspace ws = true → blank ws.
Proof.
  intros Hall. apply Forall_forall. intros ch Hch%list_elem_of_In.
  rewrite forallb_forall in Hall. by apply Hall.
Qed.

Lemma tags_loop_step fuel ws tag rest tags :
  blank ws → plain tag →
  tags_loop (S fuel) (ws ++ 34 :: tag ++ 34 :: rest) tags
    = tags_loop fuel (skip_comma rest) (tags ++ [tag]).
Proof.
  intros Hws Htag. cbn [tags_loop].
  destruct (ws ++ 34 :: tag ++ 34 :: rest) as [|c0 s0] eqn:Es;
    [by destruct ws|]. rewrite <-Es. clear Es.
  rewrite SkipWs_blank by done. change (34 =? 93) with false. cbv iota.
  rewrite ParseString_quoted by done. reflexivity.
Qed.

Lemma tags_loop_close fuel ws rest tags :
  blank ws → tags_loop (S fuel) (ws ++ 93 :: rest) tags = ok (tags, rest).
Proof.
  intros Hws. cbn [tags_loop].
  destruct (ws ++ 93 :: rest) as [|c0 s0] eqn:Es; [by destruct ws|].
  rewrite <-Es. clear Es. rewrite SkipWs_blank by done. reflexivity.
Qed.

(** The text [SaveToFile] puts after the last tag. *)
Definition tags_end : wstring := endl ++ wlit "        ]".

Lemma tags_loop_resume tags fuel acc rest :
  Forall plain tags →
  reads (tags_loop fuel (skip_comma (save_list save_tag false tags ++ tags_end ++ rest)) acc)
        (acc ++ tags, rest).
Proof.
  intros Htags. revert fuel acc.
  induction Htags as [|tag tags Htag _ IH]; intros fuel acc.
  - destruct fuel as [|fuel]; [by left|]. right. rewrite app_nil_r.
    change (save_list save_tag false [] ++ tags_end ++ rest)
      with ((endl ++ wlit "        ") ++ 93 :: rest).
    rewrite skip_comma_blank by (by apply blank_literal || done).
    apply (tags_loop_close fuel []). constructor.
  - destruct fuel as [|fuel]; [by left|].
    assert (save_list save_tag false (tag :: tags) ++ tags_end ++ rest
            = 44 :: (endl ++ wlit "          ") ++ 34 :: tag
                ++ 34 :: (save_list save_tag false tags ++ tags_end ++ rest)) as ->.
    { cbn [save_list]. unfold save_tag, quote. rewrite <-!app_assoc. reflexivity. }
    rewrite skip_comma_comma.
    rewrite tags_loop_step by (by apply blank_literal || done).
    specialize (IH fuel (acc ++ [tag])). rewrite <-app_assoc in IH. exact IH.
Qed.

Lemma reads_bind {A B} (r : res A) (k : A → res B) a b :
  reads r a → reads (k a) b → reads (r ≫= k) b.
Proof. intros [-> | ->] Hk; [by left|exact Hk]. Qed.

Lemma ParseTags_saved fuel ws tags rest :
  blank ws → Forall plain tags →
  reads (ParseTags fuel (ws ++ 91 :: endl ++ save_list save_tag true tags
                           ++ tags_end ++ rest))
        (tags, rest).
Proof.
  intros Hws Htags. unfold ParseTags. rewrite Consume_blank by done.
  change (ok ?s ≫= ?k) with (k s). cbv beta.
  destruct fuel as [|fuel]; [by left|].
  destruct Htags as [|tag tags Htag Htags].
  - right.
    change (endl ++ save_list save_tag true [] ++ tags_end ++ rest)
      with ((endl ++ endl ++ wlit "        ") ++ 93 :: rest).
    apply tags_loop_close. by apply blank_literal.
  - assert (endl ++ save_list save_tag true (tag :: tags) ++ tags_end ++ rest
            = (endl ++ wlit "          ") ++ 34 :: tag
                ++ 34 :: (save_list save_tag false tags ++ tags_end ++ rest)) as ->.
    { cbn [save_list]. unfold save_tag, quote. rewrite <-!app_assoc. reflexivity. }
    rewrite tags_loop_step by (by apply blank_literal || done).
    apply (tags_loop_resume tags fuel [tag] rest Htags).
Qed.

(** *** Entries *)

Lemma entry_loop_step fuel ws key value entry :
  blank ws → plain key →
  entry_loop (S fuel) (ws ++ 34 :: key ++ 34 :: 58 :: value) entry =
    entry_field fuel key value entry
      ≫= λ '(entry', s3), entry_loop fuel (skip_comma s3) entry'.
Proof.
  intros Hws Hkey. cbn [entry_loop].
  destruct (ws ++ 34 :: key ++ 34 :: 58 :: value) as [|c0 s0] eqn:Es;
    [by destruct ws|]. rewrite <-Es. clear Es.
  rewrite SkipWs_blank by done. change (34 =? 125) with false. cbv iota.
  rewrite ParseString_quoted by done.
  change (ok ?s ≫= ?k) with (k s). cbv beta iota.
  rewrite Consume_here by done. reflexivity.
Qed.

Lemma entry_loop_close fuel ws rest entry :
  blank ws → entry_loop (S fuel) (ws ++ 125 :: rest) entry = ok (entry, rest).
Proof.
  intros Hws. cbn [entry_loop].
  destruct (ws ++ 125 :: rest) as [|c0 s0] eqn:Es; [by destruct ws|].
  rewrite <-Es. clear Es. rewrite SkipWs_blank by done. reflexivity.
Qed.

Ltac literal_neq :=
  let Heq := fresh in intros Heq; vm_compute in Heq; discriminate Heq.

Lemma entry_field_word fuel s entry :
  entry_field fuel (wlit "word") s entry =
    ParseString s ≫= λ '(w, s1),
      ok (mkDictEntry w (frequency entry) (pronunciation entry) (tags entry), s1).
Proof. unfold entry_field. by rewrite bool_decide_eq_true_2. Qed.

Lemma entry_field_frequency fuel s entry :
  entry_field fuel (wlit "frequency") s entry =
    ParseUnsigned s ≫= λ '(f, s1),
      ok (mkDictEntry (word entry) f (pronunciation entry) (tags entry), s1).
Proof.
  unfold entry_field. rewrite bool_decide_eq_false_2 by literal_neq.
  by rewrite bool_decide_eq_true_2.
Qed.

Lemma entry_field_pronunciation fuel s entry :
  entry_field fuel (wlit "pronunciation") s entry =
    ParseString s ≫= λ '(p, s1),
      ok (mkDictEntry (word entry) (frequency entry) p (tags entry), s1).
Proof.
  unfold entry_field. rewrite !bool_decide_eq_false_2 by literal_neq.
  by rewrite bool_decide_eq_true_2.
Qed.

Lemma entry_field_tags fuel s entry :
  entry_field fuel (wlit "tags") s entry =
    ParseTags fuel s ≫= λ '(t, s1),
      ok (mkDictEntry (word entry) (frequency entry) (pronunciation entry) t, s1).
Proof.
  unfold entry_field. rewrite !bool_decide_eq_false_2 by literal_neq.
  by rewrite bool_decide_eq_true_2.
Qed.

(** An entry whose strings can be written as they are. *)
Definition entry_plain (e : DictEntry) : Prop :=
  plain (word e) ∧ plain (pronunciation e) ∧ Forall plain (tags e).

(** What [SaveToFile] writes for an entry after its opening brace. *)
Definition entry_body (e : DictEntry) (rest : wstring) : wstring :=
  (endl ++ wlit "        ") ++ 34 :: wlit "word" ++ 34 :: 58 ::
    [32] ++ 34 :: word e ++ 34 :: 44 ::
  (endl ++ wlit "        ") ++ 34 :: wlit "frequency" ++ 34 :: 58 ::
    [32] ++ print_unsigned (frequency e) ++ 44 ::
  (endl ++ wlit "        ") ++ 34 :: wlit "pronunciation" ++ 34 :: 58 ::
    [32] ++ 34 :: pronunciation e ++ 34 :: 44 ::
  (endl ++ wlit "        ") ++ 34 :: wlit "tags" ++ 34 :: 58 ::
    [32] ++ 91 :: endl ++ save_list save_tag true (tags e) ++ tags_end ++
  (endl ++ wlit "      ") ++ 125 :: rest.

Lemma save_entry_shape e rest :
  save_entry e ++ rest = wlit "      " ++ 123 :: entry_body e rest.
Proof.
  unfold save_entry, entry_body, tags_end, quote. rewrite <-!app_assoc. reflexivity.
Qed.

Lemma plain_literal (w : wstring) :
  forallb (λ ch, negb (ch =? 34) && negb (ch =? 92)) w = true → plain w.
Proof.
  intros Hall. apply Forall_forall. intros ch Hch%list_elem_of_In.
  rewrite forallb_forall in Hall. specialize (Hall ch Hch).
  apply andb_true_iff in Hall as [Hq%negb_true_iff%N.eqb_neq Hb%negb_true_iff%N.eqb_neq].
  done.
Qed.

Lemma entry_loop_saved fuel e rest :
  entry_plain e → frequency e < 2 ^ 32 →
  reads (entry_loop fuel (entry_body e rest) (mkDictEntry [] 0 [] [])) (e, rest).
Proof.
  intros (Hw & Hp & Ht) Hf. unfold entry_body.
  destruct fuel as [|fuel]; [by left|].
  rewrite entry_loop_step by (by apply blank_literal || by apply plain_literal).
  rewrite entry_field_word, (ParseString_plain [32]) by (done || by apply blank_literal).
  change (ok ?s ≫= ?k) with (k s). cbv beta iota.
  change (ok ?s ≫= ?k) with (k s). cbv beta iota.
  rewrite skip_comma_comma.
  destruct fuel as [|fuel]; [by left|].
  rewrite entry_loop_step by (by apply blank_literal || by apply plain_literal).
  rewrite entry_field_frequency, (ParseUnsigned_print [32])
    by (done || by apply blank_literal).
  change (ok ?s ≫= ?k) with (k s). cbv beta iota.
  change (ok ?s ≫= ?k) with (k s). cbv beta iota.
  rewrite skip_comma_comma.
  destruct fuel as [|fuel]; [by left|].
  rewrite entry_loop_step by (by apply blank_literal || by apply plain_literal).
  rewrite entry_field_pronunciation, (ParseString_plain [32])
    by (done || by apply blank_literal).
  change (ok ?s ≫= ?k) with (k s). cbv beta iota.
  change (ok ?s ≫= ?k) with (k s). cbv beta iota.
  rewrite skip_comma_comma.
  destruct fuel as [|fuel]; [by left|].
  rewrite entry_loop_step by (by apply blank_literal || by apply plain_literal).
  rewrite entry_field_tags.
  destruct (ParseTags_saved fuel [32] (tags e)
              ((endl ++ wlit "      ") ++ 125 :: rest)) as [Hno|Hok];
    [by apply blank_literal|done| |].
  { left. by rewrite Hno. }
  rewrite Hok.
  change (ok ?s ≫= ?k) with (k s). cbv beta iota.
  change (ok ?s ≫= ?k) with (k s). cbv beta iota.
  rewrite skip_comma_blank by (by apply blank_literal || done).
  destruct fuel as [|fuel]; [by left|]. right.
  destruct e. apply (entry_loop_close fuel []). constructor.
Qed.

Lemma ParseEntryObject_saved fuel ws e rest :
  blank ws → entry_plain e → frequency e < 2 ^ 32 →
  reads (ParseEntryObject fuel (ws ++ 123 :: entry_body e rest)) (e, rest).
Proof.
  intros Hws He Hf. unfold ParseEntryObject. rewrite Consume_blank by done.
  change (ok ?s ≫= ?k) with (k s). cbv beta. by apply entry_loop_saved.
Qed.

(** The text [SaveToFile] puts after the last entry of a key. *)
Definition key_end : wstring := endl ++ wlit "    ]".

(** What the loader stores for the entries of a key, one after the other. *)
Definition store_entries (key : wstring) (entries : list DictEntry)
    (m : gmap (list N) (list DictEntry)) : gmap (list N) (list DictEntry) :=
  foldl (λ m e, store_entry key e m) m entries.

Lemma entries_loop_saved es e fuel ws key m rest :
  blank ws →
  Forall (λ e, entry_plain e ∧ frequency e < 2 ^ 32) (e :: es) →
  (entries_loop fuel
     (ws ++ 123 :: entry_body e (save_list save_entry false es ++ key_end ++ rest))
     key m).2 = nofuel ∨
  entries_loop fuel
    (ws ++ 123 :: entry_body e (save_list save_entry false es ++ key_end ++ rest))
    key m = (store_entries key (e :: es) m, ok (93 :: rest)).
Proof.
  revert e fuel ws m. induction es as [|e2 es IH]; intros e fuel ws m Hws Hall;
    apply Forall_cons in Hall as [[He Hf] Hall].
  - destruct fuel as [|fuel]; [by left|]. cbn [entries_loop].
    destruct (ws ++ 123 :: _) as [|c0 s0] eqn:Es; [by destruct ws|].
    rewrite <-Es. clear Es.
    destruct (ParseEntryObject_saved fuel ws e
                (save_list save_entry false [] ++ key_end ++ rest) Hws He Hf)
      as [-> | ->]; [by left|]. right.
    change (save_list save_entry false [] ++ key_end ++ rest)
      with ((endl ++ wlit "    ") ++ 93 :: rest).
    rewrite SkipWs_blank by (by apply blank_literal || done). reflexivity.
  - destruct fuel as [|fuel]; [by left|]. cbn [entries_loop].
    destruct (ws ++ 123 :: _) as [|c0 s0] eqn:Es; [by destruct ws|].
    rewrite <-Es. clear Es.
    destruct (ParseEntryObject_saved fuel ws e
                (save_list save_entry false (e2 :: es) ++ key_end ++ rest) Hws He Hf)
      as [-> | ->]; [by left|].
    assert (save_list save_entry false (e2 :: es) ++ key_end ++ rest
            = 44 :: (endl ++ wlit "      ") ++ 123 ::
                entry_body e2 (save_list save_entry false es ++ key_end ++ rest))
      as ->.
    { cbn [save_list]. rewrite <-!app_assoc, save_entry_shape. reflexivity. }
    rewrite SkipWs_non_space by done. change (44 =? 44) with true. cbv iota.
    apply IH; [by apply blank_literal|done].
Qed.

(** *** Keys *)

(** The text [SaveToFile] puts after the last key. *)
Definition dict_end : wstring := endl ++ wlit "  }" ++ endl ++ wlit "}" ++ endl.

(** A key with its entries, as the round trip needs them. *)
Definition pair_plain (pair : list N * list DictEntry) : Prop :=
  plain pair.1 ∧ pair.2 ≠ [] ∧
  Forall (λ e, entry_plain e ∧ frequency e < 2 ^ 32) pair.2.

(** What the loader stores for the keys, one after the other. *)
Definition store_all (pairs : list (list N * list DictEntry))
    (m : gmap (list N) (list DictEntry)) : gmap (list N) (list DictEntry) :=
  foldl (λ m pair, store_entries pair.1 pair.2 m) m pairs.

Lemma save_key_shape key e es rest :
  endl ++ save_key (key, e :: es) ++ rest =
    (endl ++ wlit "    ") ++ 34 :: key ++ 34 :: 58 :: [32] ++ 91 ::
    (endl ++ wlit "      ") ++ 123 ::
      entry_body e (save_list save_entry false es ++ key_end ++ rest).
Proof.
  unfold save_key, quote, key_end. cbn [save_list fst snd].
  rewrite <-!app_assoc. rewrite save_entry_shape. reflexivity.
Qed.

Lemma keys_loop_key fuel key e es rest m :
  pair_plain (key, e :: es) →
  (keys_loop (S fuel) (endl ++ save_key (key, e :: es) ++ rest) m).2 = nofuel ∨
  keys_loop (S fuel) (endl ++ save_key (key, e :: es) ++ rest) m
    = keys_loop fuel (skip_comma rest) (store_entries key (e :: es) m).
Proof.
  intros (Hkey & _ & Hall). simpl in Hkey, Hall.
  rewrite save_key_shape. cbn [keys_loop].
  destruct ((endl ++ wlit "    ") ++ _) as [|c0 s0] eqn:Es; [done|].
  rewrite <-Es. clear Es.
  rewrite SkipWs_blank by (by apply blank_literal || done).
  change (34 =? 125) with false. cbv iota.
  unfold key_header. rewrite ParseString_quoted by done.
  change (ok ?s ≫= ?k) with (k s). cbv beta iota.
  rewrite Consume_here by done.
  change (ok ?s ≫= ?k) with (k s). cbv beta iota.
  rewrite (Consume_blank [32]) by (by apply blank_literal || done).
  change (ok ?s ≫= ?k) with (k s). cbv beta iota.
  rewrite SkipWs_blank by (by apply blank_literal || done).
  change (negb (123 =? 93)) with true. cbv iota.
  destruct (entries_loop_saved es e fuel [] key m rest) as [Hno|Hok];
    [constructor|done| |].
  - rewrite app_nil_l in Hno. destruct (entries_loop fuel _ key m) as [m1 r1].
    cbn [snd] in Hno. subst r1. by left.
  - rewrite app_nil_l in Hok. rewrite Hok.
    change (ok ?s ≫= ?k) with (k s). cbv beta iota.
    rewrite Consume_here by done. by right.
Qed.

Lemma keys_loop_saved pairs fuel m :
  Forall pair_plain pairs →
  (keys_loop fuel (skip_comma (save_list save_key false pairs ++ dict_end)) m).2
    = nofuel ∨
  keys_loop fuel (skip_comma (save_list save_key false pairs ++ dict_end)) m
    = (store_all pairs m, ok (endl ++ wlit "}" ++ endl)).
Proof.
  intros Hpairs. revert fuel m.
  induction Hpairs as [|[key entries] pairs Hpair _ IH]; intros fuel m.
  - destruct fuel as [|fuel]; [by left|]. right.
    change (save_list save_key false [] ++ dict_end)
      with ((endl ++ wlit "  ") ++ 125 :: endl ++ wlit "}" ++ endl).
    rewrite skip_comma_blank by (by apply blank_literal || done). reflexivity.
  - destruct fuel as [|fuel]; [by left|].
    destruct entries as [|e es]; [by destruct Hpair as (_ & ? & _)|].
    assert (save_list save_key false ((key, e :: es) :: pairs) ++ dict_end
            = 44 :: endl ++ save_key (key, e :: es)
                ++ (save_list save_key false pairs ++ dict_end)) as ->.
    { cbn [save_list]. rewrite <-!app_assoc. reflexivity. }
    rewrite skip_comma_comma.
    destruct (keys_loop_key fuel key e es
                (save_list save_key false pairs ++ dict_end) m Hpair)
      as [Hno|Hok]; [by left|].
    rewrite Hok. apply (IH fuel (store_entries key (e :: es) m)).
Qed.

Lemma keys_loop_first pairs fuel :
  Forall pair_plain pairs →
  (keys_loop fuel (endl ++ save_list save_key true pairs ++ dict_end) ∅).2 = nofuel ∨
  keys_loop fuel (endl ++ save_list save_key true pairs ++ dict_end) ∅
    = (store_all pairs ∅, ok (endl ++ wlit "}" ++ endl)).
Proof.
  intros Hpairs. destruct fuel as [|fuel]; [by left|].
  destruct Hpairs as [|[key entries] pairs Hpair Hpairs].
  - right.
    change (endl ++ save_list save_key true [] ++ dict_end)
      with ((endl ++ endl ++ wlit "  ") ++ 125 :: endl ++ wlit "}" ++ endl).
    cbn [keys_loop].
    destruct ((endl ++ endl ++ wlit "  ") ++ _) as [|c0 s0] eqn:Es; [done|].
    rewrite <-Es. clear Es.
    rewrite SkipWs_blank by (by apply blank_literal || done). reflexivity.
  - destruct entries as [|e es]; [by destruct Hpair as (_ & ? & _)|].
    assert (endl ++ save_list save_key true ((key, e :: es) :: pairs) ++ dict_end
            = endl ++ save_key (key, e :: es)
                ++ (save_list save_key false pairs ++ dict_end)) as ->.
    { cbn [save_list]. rewrite <-!app_assoc. reflexivity. }
    destruct (keys_loop_key fuel key e es
                (save_list save_key false pairs ++ dict_end) ∅ Hpair)
      as [Hno|Hok]; [by left|].
    rewrite Hok. by apply (keys_loop_saved pairs fuel (store_entries key (e :: es) ∅)).
Qed.

(** *** The search for the entries object *)

Definition entries_token : wstring := [34] ++ wlit "entries" ++ [34].

(** A header value that cannot be mistaken for the name of the entries
    object. *)
Definition header_safe (w : wstring) : Prop :=
  Forall (λ ch, ch ≠ 34) w ∧ w ≠ wlit "entries".

Lemma find_sub_found s : find_sub entries_token (entries_token ++ s)
                         = Some (entries_token ++ s).
Proof.
  assert (entries_token `prefix_of` entries_token ++ s) as Hp by by eexists.
  destruct (entries_token ++ s); cbn [find_sub]; by rewrite bool_decide_eq_true_2.
Qed.

Lemma find_sub_skip_char c s :
  c ≠ 34 → find_sub entries_token (c :: s) = find_sub entries_token s.
Proof.
  intros Hc. cbn [find_sub]. rewrite bool_decide_eq_false_2; [done|].
  intros Hp. by apply prefix_cons_inv_1 in Hp.
Qed.

Lemma find_sub_skip_word w s :
  Forall (λ ch, ch ≠ 34) w →
  find_sub entries_token (w ++ s) = find_sub entries_token s.
Proof.
  induction 1 as [|c w Hc _ IH]; [done|].
  cbn [app]. by rewrite find_sub_skip_char.
Qed.

Lemma find_sub_skip_close c s :
  c ≠ 101 →
  find_sub entries_token (34 :: c :: s) = find_sub entries_token (c :: s).
Proof.
  intros Hc. cbn [find_sub]. rewrite bool_decide_eq_false_2; [done|].
  intros Hp. apply prefix_cons_inv_2, prefix_cons_inv_1 in Hp. done.
Qed.

Lemma quoted_inj (w1 w2 r1 r2 : wstring) :
  Forall (λ ch, ch ≠ 34) w1 → Forall (λ ch, ch ≠ 34) w2 →
  w1 ++ 34 :: r1 = w2 ++ 34 :: r2 → w1 = w2.
Proof.
  intros H1. revert w2. induction H1 as [|c w1 Hc _ IH]; intros w2 H2 Heq.
  - destruct H2 as [|c2 w2 Hc2 _]; [done|]. simplify_eq/=.
  - destruct H2 as [|c2 w2 Hc2 H2]; simplify_eq/=. f_equal. by apply IH.
Qed.

Lemma find_sub_skip_open w s :
  header_safe w →
  find_sub entries_token (34 :: w ++ 34 :: s)
  = find_sub entries_token (w ++ 34 :: s).
Proof.
  intros [Hw Hne]. cbn [find_sub]. rewrite bool_decide_eq_false_2; [done|].
  intros Hp. apply prefix_cons_inv_2 in Hp as [k Hk].
  change (wlit "entries" ++ [34]) with (wlit "entries" ++ 34 :: []) in Hk.
  rewrite <-app_assoc in Hk. cbn [app] in Hk.
  apply quoted_inj in Hk; [done|done|].
  repeat constructor; done.
Qed.

(** One line of the header, [  "name": "value",] and the line end. *)
Definition header_line (name value : wstring) : wstring :=
  wlit "  " ++ quote ++ name ++ quote ++ wlit ": " ++ quote
    ++ value ++ quote ++ wlit "," ++ endl.

Lemma find_sub_header_line name value s :
  header_safe name → header_safe value →
  find_sub entries_token (header_line name value ++ s)
  = find_sub entries_token s.
Proof.
  intros Hn Hv. unfold header_line, quote, endl. rewrite <-!app_assoc.
  rewrite find_sub_skip_word by (repeat constructor; done).
  cbn [app]. rewrite find_sub_skip_open by done.
  rewrite find_sub_skip_word by apply Hn.
  change (wlit ": " ++ ?x) with (58 :: 32 :: x).
  rewrite find_sub_skip_close by done.
  rewrite !find_sub_skip_char by done.
  rewrite find_sub_skip_open by done.
  rewrite find_sub_skip_word by apply Hv.
  change (wlit "," ++ ?x) with (44 :: x).
  rewrite find_sub_skip_close by done.
  rewrite !find_sub_skip_char by done. done.
Qed.

Lemma SaveToFile_text_shape d :
  SaveToFile_text d
  = wlit "{" ++ endl ++
    header_line (wlit "version") (m_version d) ++
    header_line (wlit "created_at") (m_createdAt d) ++
    header_line (wlit "updated_at") (m_updatedAt d) ++
    wlit "  " ++ entries_token ++ wlit ": {" ++ endl ++
    save_list save_key true (in_key_order (m_entries d)) ++ dict_end.
Proof.
  unfold SaveToFile_text, header_line, entries_token, dict_end, quote.
  rewrite <-!app_assoc. reflexivity.
Qed.

Lemma load_content_saved fuel d :
  header_safe (m_version d) → header_safe (m_createdAt d) →
  header_safe (m_updatedAt d) →
  load_content fuel (SaveToFile_text d)
  = keys_loop fuel
      (endl ++ save_list save_key true (in_key_order (m_entries d)) ++ dict_end) ∅.
Proof.
  intros Hv Hc Hu. rewrite SaveToFile_text_shape. unfold load_content.
  change ([34] ++ wlit "entries" ++ [34]) with entries_token.
  change (wlit "{" ++ endl ++ ?x) with (123 :: 10 :: x).
  rewrite !find_sub_skip_char by done.
  rewrite !find_sub_header_line by (done || (split; [repeat constructor|]; done)).
  change (wlit "  " ++ ?x) with (32 :: 32 :: x).
  rewrite !find_sub_skip_char by done.
  rewrite find_sub_found. reflexivity.
Qed.

(** *** The entries stored *)

Lemma store_entry_loaded_push key e m :
  entry_loaded key e → store_entry key e m = push_entry key e m.
Proof.
  intros [_ Hp]. unfold store_entry. destruct e as [w f p t]; simpl in *.
  destruct p; [|done]. by rewrite Hp.
Qed.

Lemma store_entries_loaded key es m :
  Forall (entry_loaded key) es → es ≠ [] →
  store_entries key es m = <[key := default [] (m !! key) ++ es]> m.
Proof.
  unfold store_entries. intros Hes. revert m.
  induction Hes as [|e es He Hes IH]; intros m Hne; [done|].
  cbn [foldl]. rewrite store_entry_loaded_push by done.
  destruct es as [|e2 es]; [done|].
  rewrite IH by done. unfold push_entry.
  rewrite lookup_insert_eq, insert_insert_eq. cbn [default id].
  by rewrite <-app_assoc.
Qed.

Lemma store_all_list_to_map pairs :
  NoDup pairs.*1 →
  Forall (λ pair, pair.2 ≠ [] ∧ Forall (entry_loaded pair.1) pair.2) pairs →
  store_all pairs ∅ = list_to_map pairs.
Proof.
  induction pairs as [|[key es] pairs IH] using rev_ind; [done|].
  rewrite fmap_app, Forall_app, Forall_singleton. cbn [fmap list_fmap fst snd].
  intros Hnd [Hall [Hne Hes]].
  apply NoDup_app in Hnd as (Hnd & Hfresh & _).
  unfold store_all in *. rewrite foldl_app. cbn [foldl fst snd].
  rewrite IH by done.
  assert (key ∉ pairs.*1) as Hkey.
  { intros Hin. apply (Hfresh key Hin). by left. }
  rewrite store_entries_loaded by done.
  rewrite (not_elem_of_list_to_map_1 _ _ Hkey). cbn [default app].
  symmetry. by apply list_to_map_snoc.
Qed.

Lemma in_key_order_perm {V} (m : gmap (list N) V) :
  in_key_order m ≡ₚ map_to_list m.
Proof. apply merge_sort_Permutation. Qed.

Lemma store_all_in_key_order m :
  entries_loaded m → store_all (in_key_order m) ∅ = m.
Proof.
  intros Hm. pose proof (in_key_order_perm m) as Hperm.
  rewrite store_all_list_to_map.
  - rewrite (list_to_map_proper (in_key_order m) (map_to_list m));
      [apply list_to_map_to_list| |done].
    rewrite Hperm. apply NoDup_fst_map_to_list.
  - rewrite Hperm. apply NoDup_fst_map_to_list.
  - rewrite Hperm. apply Forall_forall. intros [key es] Hin.
    apply elem_of_map_to_list in Hin. apply (Hm key es Hin).
Qed.

(** A dictionary whose strings hold neither a quotation mark nor a
    backslash. *)
Definition dictionary_plain (m : gmap (list N) (list DictEntry)) : Prop :=
  map_Forall (λ key entries, plain key ∧ Forall entry_plain entries) m.

Lemma in_key_order_plain m :
  dictionary_plain m → entries_loaded m → Forall pair_plain (in_key_order m).
Proof.
  intros Hp Hl. rewrite in_key_order_perm. apply Forall_forall.
  intros [key es] Hin. apply elem_of_map_to_list in Hin.
  destruct (Hp key es Hin) as [Hkey Hes], (Hl key es Hin) as [Hne Hle].
  repeat split; [done..|]. cbn [snd].
  apply Forall_forall. intros e He. split.
  - by apply (proj1 (Forall_forall _ _) Hes).
  - by apply (proj1 (Forall_forall _ _) Hle e He).
Qed.

(** [LoadFromFile] reads back what a successful [SaveToFile] wrote.
    [SaveToFile] returned true for [d], which it does when the file opens
    and every character it writes is below 128, and the file at the path
    holds what it wrote; a file of such characters decodes to them.  The
    strings of [d] hold no quotation mark and no backslash, its entries are
    as a load stores them, and no header value is the word [entries].  Then
    the load into any dictionary [d0] stores exactly the entries of [d],
    reports whether there are any, and leaves the version and the creation
    time of [d0] as they were: the header of the file is not read. *)
Theorem save_load_round_trip fs now d d0 filePath opens flushed content :
  dictionary_plain (m_entries d) →
  entries_loaded (m_entries d) →
  header_safe (m_version d) →
  header_safe (m_createdAt d) →
  header_safe (m_updatedAt d) →
  SaveToFile opens flushed d = (true, Some content) →
  fs filePath = Some content →
  Forall (λ ch, ch < 128) content ∧
  LoadFromFile fs now d0 filePath
  = Some (negb (bool_decide (m_entries d = ∅)),
          mkDictionary (m_entries d) (m_version d0) (m_createdAt d0) now).
Proof.
  intros Hplain Hloaded Hv Hc Hu Hsave Hfs.
  unfold SaveToFile in Hsave. destruct opens; [|done].
  destruct (forallb encodable (SaveToFile_text d)) eqn:Hascii; [|done].
  injection Hsave as <-. split.
  { apply Forall_forall. intros ch Hch%list_elem_of_In.
    rewrite forallb_forall in Hascii. by apply N.ltb_lt, Hascii. }
  pose proof (load_content_returns (SaveToFile_text d)) as Hret.
  unfold LoadFromFile. rewrite Hfs.
  rewrite load_content_saved in * by done.
  destruct (keys_loop_first (in_key_order (m_entries d))
              (2 * length (SaveToFile_text d) + 2)
              (in_key_order_plain _ Hplain Hloaded)) as [Hno|Hok]; [done|].
  rewrite Hok. by rewrite store_all_in_key_order.
Qed.



(** Saving the dictionary of "x" and "y" under "a", whose characters are
    all below 128, and loading the file into a fresh dictionary brings its
    two entries back. *)
Lemma save_load_round_trip_witness :
  SaveToFile true 0 tie_dict = (true, Some (SaveToFile_text tie_dict)) ∧
  LoadFromFile (λ _, Some (SaveToFile_text tie_dict)) (wlit "now")
    Dictionary_new (wlit "out.json")
  = Some (negb (bool_decide (m_entries tie_dict = ∅)),
          mkDictionary (m_entries tie_dict) (m_version Dictionary_new)
            (m_createdAt Dictionary_new) (wlit "now")).
Proof.
  assert (SaveToFile true 0 tie_dict = (true, Some (SaveToFile_text tie_dict)))
    as Hsave by (vm_compute; reflexivity).
  split; [exact Hsave|].
  apply (save_load_round_trip (λ _, Some (SaveToFile_text tie_dict))
           (wlit "now") tie_dict Dictionary_new (wlit "out.json") true 0%nat
           (SaveToFile_text tie_dict)).
  - apply (bool_decide_unpack _). vm_compute. exact I.
  - apply (bool_decide_unpack _). vm_compute. exact I.
  - split; [repeat constructor; done|done].
  - split; [repeat constructor; done|done].
  - split; [repeat constructor; done|done].
  - exact Hsave.
  - reflexivity.
Defined.


(** ** The engine *)

(** What every call keeps true of an engine once [Initialize] has run: the
    configuration, the dictionary and the converter are those of
    [Initialize]; the parser is in a state parse calls can reach; and
    [m_schemes] holds the pinyin scheme and a bopomofo scheme, and nothing
    else. *)
Record engine_inv `{StdSort} (host : Host) (e : ImeEngine.t) : Prop := {
  inv_ai : ImeEngine.m_aiSelectionEnabled e = true;
  inv_scheme : ImeEngine.m_defaultScheme e = wlit "pinyin";
  inv_charset : ImeEngine.m_charset e = wlit "Traditional";
  inv_dictionary : ImeEngine.m_dictionary e = ImeEngine.InitializeDictionary host;
  inv_converter : ImeEngine.m_converter e = InitializeMaps;
  inv_parser : parser_reachable (ImeEngine.m_pinyinParser e);
  inv_pinyin : ImeEngine.m_schemes e !! wlit "pinyin" = Some (ImeEngine.PinyinObj ∅);
  inv_bopomofo : ∃ s, ImeEngine.m_schemes e !! wlit "bopomofo"
                      = Some (ImeEngine.BopomofoObj s);
  inv_others : ∀ name, name ≠ wlit "pinyin" → name ≠ wlit "bopomofo" →
                       ImeEngine.m_schemes e !! name = None
}.

Lemma parser_reachable_parse `{StdSort} d p s :
  parser_reachable p → parser_reachable (ParseContinuousPinyin d p s).2.
Proof.
  intros [ops ->]. exists (ops ++ [OpParse d s]). by rewrite foldl_app.
Qed.

Lemma engine_inv_Initialize `{StdSort} host configPath :
  engine_inv host (ImeEngine.Initialize host configPath).2.
Proof.
  split; simpl; try done.
  - by exists [].
  - by eexists.
  - intros name Hp Hb. by rewrite !lookup_insert_ne, lookup_empty.
Qed.

(** What [GetCandidatesFromScheme] does on such an engine, by the name of
    the scheme. *)
Lemma GetCandidatesFromScheme_inv `{StdSort} host e input name :
  engine_inv host e →
  engine_inv host (ImeEngine.GetCandidatesFromScheme host e input name).2 ∧
  (name = wlit "pinyin" →
   ImeEngine.GetCandidatesFromScheme host e input name
   = (PinyinScheme.to_candidates
        (ParseContinuousPinyin (ImeEngine.InitializeDictionary host)
           (ImeEngine.m_pinyinParser e) input).1,
      ImeEngine.set_parser e
        (ParseContinuousPinyin (ImeEngine.InitializeDictionary host)
           (ImeEngine.m_pinyinParser e) input).2)) ∧
  (name = wlit "bopomofo" →
   ∃ s, ImeEngine.m_schemes e !! wlit "bopomofo" = Some (ImeEngine.BopomofoObj s) ∧
        ImeEngine.GetCandidatesFromScheme host e input name
        = ((BopomofoScheme.GetCandidates host s input).1,
           ImeEngine.set_scheme e (wlit "bopomofo")
             (ImeEngine.BopomofoObj (BopomofoScheme.GetCandidates host s input).2))) ∧
  (name ≠ wlit "pinyin" → name ≠ wlit "bopomofo" →
   ImeEngine.GetCandidatesFromScheme host e input name = ([], e)).
Proof.
  intros Hinv. destruct Hinv as [Hai Hsch Hcs Hd Hcv Hp Hpin [s Hs] Hoth].
  unfold ImeEngine.GetCandidatesFromScheme.
  destruct (decide (name = wlit "pinyin")) as [->|Hnp].
  - rewrite Hpin. unfold PinyinScheme.GetCandidates. cbn [PinyinScheme.m_parser].
    rewrite Hd.
    pose proof (parser_reachable_parse (ImeEngine.InitializeDictionary host)
                  (ImeEngine.m_pinyinParser e) input Hp) as Hp'.
    destruct (ParseContinuousPinyin _ _ input) as [r p']. cbn [fst snd default] in *.
    split_and!; [|done..].
    split; simpl; try done. by exists s.
  - destruct (decide (name = wlit "bopomofo")) as [->|Hnb].
    + rewrite Hs.
      destruct (BopomofoScheme.GetCandidates host s input) as [cs s'] eqn:Hget.
      cbn [fst snd]. split_and!; [|done|by (intros _; exists s; rewrite Hget)|done].
      split; simpl; try done.
      * by rewrite lookup_insert_ne.
      * exists s'. by rewrite lookup_insert_eq.
      * intros name Hn1 Hn2. rewrite lookup_insert_ne by done. by apply Hoth.
    + rewrite Hoth by done. rewrite bool_decide_eq_false_2 by done.
      split_and!; [|done..]. split; try done. by exists s.
Qed.

Lemma ProcessInput_inv `{StdSort} host e input context :
  engine_inv host e → engine_inv host (ImeEngine.ProcessInput host e input context).2.
Proof.
  intros Hinv. unfold ImeEngine.ProcessInput.
  pose proof (GetCandidatesFromScheme_inv host e input (ImeEngine.m_defaultScheme e)
                Hinv) as [Hinv' _].
  by destruct (ImeEngine.GetCandidatesFromScheme host e input _) as [cs e'].
Qed.

Lemma engine_reachable_inv `{StdSort} host e :
  ImeEngine.engine_reachable host e → engine_inv host e.
Proof.
  intros (configPath & ops & ->).
  induction ops as [|op ops IH] using rev_ind; [apply engine_inv_Initialize|].
  rewrite foldl_app. cbn [foldl].
  set (e := foldl _ _ ops) in *. destruct op; cbn [ImeEngine.run_engine_op].
  - apply engine_inv_Initialize.
  - by apply ProcessInput_inv.
  - unfold ImeEngine.ProcessCrossInput.
    pose proof (ProcessInput_inv host e input context IH) as Hinv'.
    by destruct (ImeEngine.ProcessInput host e input context) as [cs e'].
  - unfold ImeEngine.GetCrossCandidates.
    by apply GetCandidatesFromScheme_inv.
Qed.

Lemma to_candidates_tags r c : c ∈ PinyinScheme.to_candidates r → cand_tags c = [].
Proof.
  unfold PinyinScheme.to_candidates. intros Hc.
  apply elem_of_lookup_zip_with in Hc as (i & w & f & -> & _). done.
Qed.

Lemma ProcessInput_pinyin `{StdSort} host e input context :
  engine_inv host e →
  let parsed := ParseContinuousPinyin (ImeEngine.InitializeDictionary host)
                  (ImeEngine.m_pinyinParser e) input in
  (ImeEngine.ProcessInput host e input context).2 = ImeEngine.set_parser e parsed.2 ∧
  (ImeEngine.ProcessInput host e input context).1
    ≡ₚ PinyinScheme.to_candidates parsed.1 ∧
  sorted_by cand_freq_gt (ImeEngine.ProcessInput host e input context).1.
Proof.
  intros Hinv parsed. unfold ImeEngine.ProcessInput.
  destruct (GetCandidatesFromScheme_inv host e input (ImeEngine.m_defaultScheme e) Hinv)
    as (_ & Hpin & _).
  rewrite Hpin by apply Hinv. fold parsed.
  destruct (PinyinScheme.to_candidates parsed.1) as [|c cs] eqn:Hcs;
    [by split_and!; [..|constructor]|].
  cbn [ImeEngine.set_parser ImeEngine.m_aiSelectionEnabled fst snd].
  rewrite (inv_ai host e Hinv). split_and!; [done| |].
  - by apply std_sort_perm, cand_freq_gt_swo.
  - by apply std_sort_sorted, cand_freq_gt_swo.
Qed.

(** [ProcessInput] on an engine in use asks the parser of the engine, on
    the dictionary [Initialize] installed, and ignores the context.  It
    returns the candidates of the parser, at most twenty and without tags,
    rearranged so that their frequencies as [int] never increase, and the
    only member it changes is the cache of the parser. *)
Theorem engine_process_input `{StdSort} (host : Host) (e : ImeEngine.t)
    (input context : wstring) :
  ImeEngine.engine_reachable host e →
  let parsed := ParseContinuousPinyin (ImeEngine.InitializeDictionary host)
                  (ImeEngine.m_pinyinParser e) input in
  let cs := (ImeEngine.ProcessInput host e input context).1 in
  let e' := (ImeEngine.ProcessInput host e input context).2 in
  cs ≡ₚ PinyinScheme.to_candidates parsed.1 ∧
  (length cs ≤ 20)%nat ∧
  (∀ i j a b, (i < j)%nat → cs !! i = Some a → cs !! j = Some b →
     (cand_frequency b ≤ cand_frequency a)%Z) ∧
  (∀ c, c ∈ cs → cand_tags c = []) ∧
  e' = ImeEngine.set_parser e parsed.2 ∧
  ImeEngine.engine_reachable host e'.
Proof.
  intros Hreach parsed cs e'. subst cs e'.
  pose proof (engine_reachable_inv host e Hreach) as Hinv.
  destruct (ProcessInput_pinyin host e input context Hinv) as (He' & Hperm & Hsorted).
  fold parsed in He', Hperm.
  pose proof (ParseContinuousPinyin_ranked (ImeEngine.InitializeDictionary host)
                (ImeEngine.m_pinyinParser e) input
                (reachable_cache_ranked _ (inv_parser host e Hinv)))
    as (_ & Hlen & Hsame).
  fold parsed in Hlen, Hsame.
  split_and!.
  - done.
  - rewrite Hperm. unfold PinyinScheme.to_candidates. rewrite length_zip_with. lia.
  - intros i j a b Hij Hi Hj.
    assert (cand_freq_gt b a = false) as Hab.
    { by apply (StronglySorted_lookup (λ x y, cand_freq_gt y x = false)
                  _ i j a b Hsorted). }
    unfold cand_freq_gt in Hab. by apply Z.ltb_ge in Hab.
  - intros c Hc. rewrite Hperm in Hc. by eapply to_candidates_tags.
  - done.
  - destruct Hreach as (configPath & ops & ->).
    exists configPath, (ops ++ [ImeEngine.OpProcessInput input context]).
    by rewrite foldl_app.
Qed.

(** A host without any dictionary file: the engine runs on the fallback
    entries. *)
Definition bare_host : Host := mkHost [] [] (λ _, false) (λ _, None) (λ _, wlit "now").

(** On the fallback entries the input "ai" has the one candidate "Ai" with
    frequency 600. *)
Lemma engine_process_input_witness :
  let S := keep_ties_sort in
  let e := (ImeEngine.Initialize bare_host []).2 in
  (ImeEngine.ProcessInput bare_host e (wlit "ai") []).1
    ≡ₚ PinyinScheme.to_candidates
         (ParseContinuousPinyin (ImeEngine.InitializeDictionary bare_host)
            (ImeEngine.m_pinyinParser e) (wlit "ai")).1 ∧
  PinyinScheme.to_candidates
    (ParseContinuousPinyin (ImeEngine.InitializeDictionary bare_host)
       (ImeEngine.m_pinyinParser e) (wlit "ai")).1
    = [mkCandidate (wlit "Ai") 600 []].
Proof.
  intros S e. split; [|vm_compute; reflexivity].
  apply (engine_process_input bare_host e (wlit "ai") []). by exists [], [].
Defined.

Lemma Convert_as_constructed text from to : Convert InitializeMaps text from to = text.
Proof.
  assert (∀ l, List.map (substitute (m_s2t InitializeMaps)) l = l) as Hs.
  { intros l. rewrite <-(map_id l) at 2. apply map_ext, substitute_initial_s2t. }
  assert (∀ l, List.map (substitute (m_t2s InitializeMaps)) l = l) as Ht by exact Hs.
  unfold Convert. repeat case_match; by rewrite ?Hs, ?Ht.
Qed.

Lemma sorted_by_head_max (l : list Candidate) best rest c :
  sorted_by cand_freq_gt l → l = best :: rest → c ∈ l →
  (cand_frequency c ≤ cand_frequency best)%Z.
Proof.
  intros Hsorted -> Hc. apply StronglySorted_inv in Hsorted as [_ Hall].
  apply elem_of_cons in Hc as [->|Hc]; [lia|].
  apply (proj1 (Forall_forall _ _) Hall) in Hc.
  unfold cand_freq_gt in Hc. by apply Z.ltb_ge in Hc.
Qed.

(** [ProcessCrossInput] on an engine in use returns the input itself when
    the parser has no candidate for it, and otherwise the word of a
    candidate whose frequency as [int] no other candidate of the parser
    exceeds.  The scheme and the charset asked for make no difference: the
    default scheme is used, and the tables of the converter map each of
    their characters to itself.  The engine is left as [ProcessInput]
    leaves it. *)
Theorem engine_cross_input `{StdSort} (host : Host) (e : ImeEngine.t)
    (input context scheme charset : wstring) :
  ImeEngine.engine_reachable host e →
  let parsed := ParseContinuousPinyin (ImeEngine.InitializeDictionary host)
                  (ImeEngine.m_pinyinParser e) input in
  let out := (ImeEngine.ProcessCrossInput host e input context scheme charset).1 in
  (ImeEngine.ProcessCrossInput host e input context scheme charset).2
    = (ImeEngine.ProcessInput host e input context).2 ∧
  (candidates parsed.1 = [] → out = input) ∧
  (candidates parsed.1 ≠ [] →
   ∃ best, best ∈ PinyinScheme.to_candidates parsed.1 ∧
           out = character best ∧
           ∀ c, c ∈ PinyinScheme.to_candidates parsed.1 →
                (cand_frequency c ≤ cand_frequency best)%Z).
Proof.
  intros Hreach parsed out. subst out.
  pose proof (engine_reachable_inv host e Hreach) as Hinv.
  destruct (ProcessInput_pinyin host e input context Hinv) as (He' & Hperm & Hsorted).
  fold parsed in He', Hperm.
  pose proof (ParseContinuousPinyin_ranked (ImeEngine.InitializeDictionary host)
                (ImeEngine.m_pinyinParser e) input
                (reachable_cache_ranked _ (inv_parser host e Hinv)))
    as (_ & _ & Hsame).
  fold parsed in Hsame.
  unfold ImeEngine.ProcessCrossInput.
  destruct (ImeEngine.ProcessInput host e input context) as [cs e'].
  cbn [fst snd] in *. subst e'.
  cbn [ImeEngine.set_parser ImeEngine.m_converter ImeEngine.m_charset].
  rewrite (inv_converter host e Hinv), Convert_as_constructed.
  split_and!; [done| |].
  - intros Hnone.
    assert (PinyinScheme.to_candidates parsed.1 = []) as Hnil.
    { unfold PinyinScheme.to_candidates. by rewrite Hnone. }
    rewrite Hnil in Hperm. by apply Permutation_nil_r in Hperm as ->.
  - intros Hsome. destruct cs as [|best rest].
    + apply Permutation_nil_l, (f_equal length) in Hperm.
      unfold PinyinScheme.to_candidates in Hperm.
      rewrite length_zip_with in Hperm.
      destruct (candidates parsed.1); [done|]. cbn [length] in *. lia.
    + exists best. split_and!; [rewrite <-Hperm; by left|done|].
      intros c Hc. rewrite <-Hperm in Hc.
      by apply (sorted_by_head_max (best :: rest) best rest c).
Qed.

(** On the fallback entries the input "zz" has no candidate and comes back
    as it is, whatever scheme and charset are asked for. *)
Lemma engine_cross_input_witness :
  let S := keep_ties_sort in
  let e := (ImeEngine.Initialize bare_host []).2 in
  (ImeEngine.ProcessCrossInput bare_host e (wlit "zz") [] (wlit "bopomofo")
     (wlit "Simplified")).1 = wlit "zz".
Proof.
  intros S e.
  apply (engine_cross_input bare_host e (wlit "zz") [] (wlit "bopomofo")
           (wlit "Simplified")).
  - by exists [], [].
  - vm_compute. reflexivity.
Defined.

(** A query for a named scheme on an engine in use.  Under the name
    "pinyin" it gives the candidates of the parser in the order of the
    parser, and the cache of the parser, which [ProcessInput] uses as well,
    then holds the input: a [ProcessInput] for it that follows changes
    nothing.  Under "bopomofo" it gives what the bopomofo scheme of the
    engine gives and leaves the parser alone.  Under any other name it
    gives nothing and changes nothing; the branch that asks the parser when
    no scheme is registered under "pinyin" is never taken. *)
Theorem engine_scheme_dispatch `{StdSort} (host : Host) (e : ImeEngine.t)
    (input scheme charset : wstring) :
  ImeEngine.engine_reachable host e →
  let res := ImeEngine.GetCrossCandidates host e input scheme charset in
  (scheme = wlit "pinyin" →
   res.1 = PinyinScheme.to_candidates
             (ParseContinuousPinyin (ImeEngine.InitializeDictionary host)
                (ImeEngine.m_pinyinParser e) input).1 ∧
   ImeEngine.m_schemes res.2 = ImeEngine.m_schemes e ∧
   ∀ context, (ImeEngine.ProcessInput host res.2 input context).2 = res.2 ∧
              (ImeEngine.ProcessInput host res.2 input context).1 ≡ₚ res.1) ∧
  (scheme = wlit "bopomofo" →
   ∃ s, ImeEngine.m_schemes e !! wlit "bopomofo" = Some (ImeEngine.BopomofoObj s) ∧
        res.1 = (BopomofoScheme.GetCandidates host s input).1 ∧
        ImeEngine.m_schemes res.2 !! wlit "bopomofo"
          = Some (ImeEngine.BopomofoObj (BopomofoScheme.GetCandidates host s input).2) ∧
        ImeEngine.m_pinyinParser res.2 = ImeEngine.m_pinyinParser e) ∧
  (scheme ≠ wlit "pinyin" → scheme ≠ wlit "bopomofo" → res = ([], e)).
Proof.
  intros Hreach res. subst res. unfold ImeEngine.GetCrossCandidates.
  pose proof (engine_reachable_inv host e Hreach) as Hinv.
  destruct (GetCandidatesFromScheme_inv host e input scheme Hinv)
    as (Hinv' & Hpin & Hbop & Hother).
  split_and!; [| |done].
  - intros ->. rewrite Hpin in * by done. cbn [fst snd] in *.
    set (d := ImeEngine.InitializeDictionary host) in *.
    set (p := ImeEngine.m_pinyinParser e) in *.
    split_and!; [done..|]. intros context.
    destruct (ProcessInput_pinyin host _ input context Hinv') as (He' & Hperm & _).
    cbn [ImeEngine.set_parser ImeEngine.m_pinyinParser] in He', Hperm. fold d in He', Hperm.
    rewrite (ParseContinuousPinyin_cached d (ParseContinuousPinyin d p input).2 input
               (ParseContinuousPinyin d p input).1) in He', Hperm
      by apply ParseContinuousPinyin_stores.
    split; [|done]. by rewrite He'.
  - intros ->. destruct (Hbop eq_refl) as (s & Hs & ->). exists s. cbn [fst snd].
    split_and!; [done..| |done].
    cbn [ImeEngine.set_scheme ImeEngine.m_schemes]. apply lookup_insert_eq.
Qed.

(** The engine registers no scheme under "cangjie": a query for it gives
    nothing. *)
Lemma engine_scheme_dispatch_witness :
  let S := keep_ties_sort in
  let e := (ImeEngine.Initialize bare_host []).2 in
  ImeEngine.GetCrossCandidates bare_host e (wlit "ai") (wlit "cangjie")
    (wlit "Traditional") = ([], e).
Proof.
  intros S e.
  apply (engine_scheme_dispatch bare_host e (wlit "ai") (wlit "cangjie")
           (wlit "Traditional")).
  - by exists [], [].
  - discriminate.
  - discriminate.
Defined.
